(** * musidx: the incremental scan-and-catalogue engine

    A shallow embedding of [src/lib/index.js] (the [MusicIndexer] closure),
    [src/lib/cache.js], [src/lib/util.js], [src/lib/hacks.js],
    [src/lib/tags.js] and [src/lib/playlists.js], and the properties of
    the freshness-driven scan, the taxonomy builder, the category deriver,
    the attribute extractor, the cache files, the playlist import and
    [indexPath].

    Conventions of the embedding.
    - A JavaScript string is a [string]; every [ascii] stands for one code
      unit, so string comparison is code-unit lexicographic as in JavaScript.
    - A JavaScript number is a [Z] (indices, years, millisecond time stamps);
      only equality, order and decimal printing of numbers are used.
    - A plain object is an association list kept in own-property order:
      array-index keys first, ascending, then the other keys in insertion
      order. Where the code reads a property whose name comes from the
      data ([tags[keyItem]], [items[taxData]]), the members inherited
      from [Object.prototype] are part of the model; the keys of the
      record set are paths the enumerator gave, which end in a file
      extension and so are never the name of such a member.
    - An [async] function that can reject is a function into [result].
    - The objects the category deriver copies and then edits in place live
      on a heap of cells addressed by location, so that sharing between a
      primary category's items and a derived tree is visible; the recursive
      copy and the recursive filter take a bound on the depth they descend
      and return [None] when it is too small.
    - Collaborators outside the repository (file system, tag parser, codec,
      clock, [path]) are fields of an environment record; the examples
      instantiate the codec with zlib without compression and JSON.
    - A [Buffer] is the list of its bytes; the tag values of the extractor
      carry rational numbers; the cache files are a map from paths to
      contents. *)

From Stdlib Require Import List String Ascii ZArith NArith Bool Arith Lia.
From Stdlib Require Import Sorting.Sorted Sorting.Permutation.
From Stdlib Require Import DecimalString OrdersEx Relations RelationClasses.
From Stdlib Require Import QArith Qround Lqa.
Import ListNotations.
Close Scope Q_scope.
Open Scope string_scope.
Open Scope list_scope.

Set Implicit Arguments.
Set Warnings "-register-all".

(* ================================================================== *)
(** * JavaScript values, errors and objects *)
(* ================================================================== *)

(** An [Error] object: [err.name], [err.code] (set by Node on system and
    zlib errors and on its internal errors) and [err.message]. An internal
    error of Node ([ERR_INVALID_ARG_TYPE], [ERR_OUT_OF_RANGE], ...) has a
    [toString] of its own, which prints the key the error was made with;
    [err_key] holds that key and is absent on every other error. *)
Record JsError : Type := mkJsError {
  err_name : string;
  err_code : option string;
  err_message : string;
  err_key : option string
}.

(** An error of the language or of a library, and a system error. *)
Definition mkError (name : string) (code : option string) (message : string)
  : JsError :=
  mkJsError name code message None.

(** An internal error of Node. *)
Definition NodeError (name key message : string) : JsError :=
  mkJsError name (Some key) message (Some key).

(** [String(err)]: the [toString] of a Node internal error, else
    [Error.prototype.toString]. *)
Definition String_of_error (e : JsError) : string :=
  match err_key e with
  | Some key => err_name e ++ " [" ++ key ++ "]: " ++ err_message e
  | None =>
      if (err_name e =? "") then err_message e
      else if (err_message e =? "") then err_name e
      else err_name e ++ ": " ++ err_message e
  end.

(** The [TypeError] the engine throws on a failed property access. *)
Definition TypeError (msg : string) : JsError :=
  mkError "TypeError" None msg.

(** The double quote, for messages that quote a name. *)
Definition dquote : string := String (Ascii.ascii_of_nat 34) EmptyString.

(** The error of Node's argument validation for a [path] that is
    [undefined]: [validateString] of [path.join]. *)
Definition invalidPathArgument : JsError :=
  NodeError "TypeError" "ERR_INVALID_ARG_TYPE"
    ("The " ++ dquote ++ "path" ++ dquote
     ++ " argument must be of type string. Received undefined").

(** A computation that returns or throws. *)
Inductive result (A : Type) : Type :=
| Ok (a : A)
| Throw (e : JsError).
Arguments Ok {A} a.
Arguments Throw {A} e.

Definition bind {A B : Type} (r : result A) (k : A -> result B) : result B :=
  match r with
  | Ok a => k a
  | Throw e => Throw e
  end.

Declare Scope js_scope.
Delimit Scope js_scope with js.
Notation "'let*' x ':=' c1 'in' c2" := (bind c1 (fun x => c2))
  (at level 61, x pattern, c1 at next level, right associativity) : js_scope.
Open Scope js_scope.

(** ** Own-property order *)

Definition digit (c : ascii) : option N :=
  let n := N_of_ascii c in
  if ((48 <=? n) && (n <=? 57))%N then Some (n - 48)%N else None.

Fixpoint digits (s : string) (acc : N) : option N :=
  match s with
  | EmptyString => Some acc
  | String c s' =>
      match digit c with
      | Some d => digits s' (10 * acc + d)%N
      | None => None
      end
  end.

(** A property key is an array index when it is the canonical decimal form
    of an integer below 2^32 - 1. *)
Definition array_index (s : string) : option N :=
  match s with
  | EmptyString => None
  | String "0" EmptyString => Some 0%N
  | String "0" _ => None
  | _ =>
      match digits s 0 with
      | Some n => if (n <? 4294967295)%N then Some n else None
      | None => None
      end
  end.

Definition is_array_index (s : string) : bool :=
  match array_index s with Some _ => true | None => false end.

Section Objects.
Variable V : Type.

(** Entries in own-property order; keys are unique. *)
Definition obj := list (string * V).

Fixpoint obj_get (k : string) (o : obj) : option V :=
  match o with
  | [] => None
  | (k', v) :: o' => if k' =? k then Some v else obj_get k o'
  end.

Definition obj_has (k : string) (o : obj) : bool :=
  match obj_get k o with Some _ => true | None => false end.

Fixpoint obj_replace (k : string) (v : V) (o : obj) : obj :=
  match o with
  | [] => []
  | (k', v') :: o' =>
      if k' =? k then (k', v) :: o' else (k', v') :: obj_replace k v o'
  end.

(** A new array-index key goes before the first larger index and before
    every other key. *)
Fixpoint obj_insert_index (n : N) (k : string) (v : V) (o : obj) : obj :=
  match o with
  | [] => [(k, v)]
  | (k', v') :: o' =>
      match array_index k' with
      | Some n' =>
          if (n <? n')%N then (k, v) :: o
          else (k', v') :: obj_insert_index n k v o'
      | None => (k, v) :: o
      end
  end.

(** [o[k] = v] *)
Definition obj_set (k : string) (v : V) (o : obj) : obj :=
  if obj_has k o then obj_replace k v o
  else match array_index k with
       | Some n => obj_insert_index n k v o
       | None => o ++ [(k, v)]
       end.

(** [delete o[k]] *)
Definition obj_delete (k : string) (o : obj) : obj :=
  filter (fun kv => negb (fst kv =? k)) o.

(** [Object.entries(o)] and [Object.keys(o)] *)
Definition entries (o : obj) : list (string * V) := o.
Definition keys (o : obj) : list string := map fst o.

(** [Object.fromEntries(l)] *)
Definition fromEntries (l : list (string * V)) : obj :=
  fold_left (fun o kv => obj_set (fst kv) (snd kv) o) l [].

(** [{...a, ...b}], where a missing operand spreads as nothing *)
Definition spread (a b : option obj) : obj :=
  let copy src dst :=
    match src with
    | Some s => fold_left (fun o kv => obj_set (fst kv) (snd kv) o) (entries s) dst
    | None => dst
    end in
  copy b (copy a []).

(** [omit(o, names)] of lodash, for top-level property names *)
Definition omit (o : obj) (names : list string) : obj :=
  filter (fun kv => negb (existsb (String.eqb (fst kv)) names)) o.
End Objects.

Arguments obj_get {V} k o.
Arguments obj_has {V} k o.
Arguments obj_replace {V} k v o.
Arguments obj_insert_index {V} n k v o.
Arguments obj_set {V} k v o.
Arguments obj_delete {V} k o.
Arguments entries {V} o.
Arguments keys {V} o.
Arguments fromEntries {V} l.
Arguments spread {V} a b.
Arguments omit {V} o names.

(** Names every object literal inherits from [Object.prototype]; reading one
    of them on an object that has no own property of that name yields the
    inherited member, which is truthy: a function or, for [__proto__], the
    prototype itself. *)
Definition prototype_names : list string :=
  [ "constructor"; "__defineGetter__"; "__defineSetter__"; "hasOwnProperty";
    "__lookupGetter__"; "__lookupSetter__"; "isPrototypeOf";
    "propertyIsEnumerable"; "toString"; "valueOf"; "__proto__";
    "toLocaleString" ].

Definition inherited (k : string) : bool :=
  existsb (String.eqb k) prototype_names.

(** ** Attribute values *)

(** [VInherited name] is the member of [Object.prototype] of that name,
    which a property read finds on an object without an own property of
    the name. *)
Inductive value : Type :=
| VUndefined
| VNull
| VBool (b : bool)
| VNum (n : Z)
| VStr (s : string)
| VArr (l : list value)
| VObj (o : list (string * value))
| VInherited (name : string).

(** ToBoolean *)
Definition truthy (v : value) : bool :=
  match v with
  | VUndefined | VNull => false
  | VBool b => b
  | VNum n => negb (n =? 0)%Z
  | VStr s => negb (s =? "")
  | VArr _ | VObj _ | VInherited _ => true
  end.

Definition isArray (v : value) : bool :=
  match v with VArr _ => true | _ => false end.

(** [v[0]] *)
Definition index0 (v : value) : value :=
  match v with
  | VArr (x :: _) => x
  | _ => VUndefined
  end.

(** [o[k]] on an object literal holding attribute values: the own
    property, else the member inherited from [Object.prototype], else
    [undefined]. *)
Definition prop (o : obj value) (k : string) : value :=
  match obj_get k o with
  | Some v => v
  | None => if inherited k then VInherited k else VUndefined
  end.

(** [v[k]] as lodash's [get] walks a path, for the names of the sort
    criteria, none of which is inherited: [undefined] off an object. *)
Definition field (v : value) (k : string) : value :=
  match v with
  | VObj o => prop o k
  | _ => VUndefined
  end.

Definition string_of_Z (n : Z) : string :=
  NilZero.string_of_int (Z.to_int n).

(** ToString, as applied to a computed property key. *)
Fixpoint toString (v : value) : string :=
  match v with
  | VUndefined => "undefined"
  | VNull => "null"
  | VBool true => "true"
  | VBool false => "false"
  | VNum n => string_of_Z n
  | VStr s => s
  | VArr l =>
      String.concat ","
        (map (fun x => match x with
                       | VUndefined | VNull => ""
                       | _ => toString x
                       end) l)
  | VObj _ => "[object Object]"
  | VInherited name =>
      if name =? "__proto__" then "[object Object]"
      else "function "
           ++ (if name =? "constructor" then "Object" else name)
           ++ "() { [native code] }"
  end.

(** ** [String.prototype.split] with a non-empty separator *)

(** [skip] counts the code units of a matched separator still to pass;
    [cur] is the segment read so far. *)
Fixpoint split_from (sep : string) (skip : nat) (cur : string) (s : string)
  : list string :=
  match s with
  | EmptyString => [cur]
  | String c s' =>
      match skip with
      | S n => split_from sep n cur s'
      | O =>
          if String.prefix sep s
          then cur :: split_from sep (String.length sep - 1) "" s'
          else split_from sep 0 (cur ++ String c "") s'
      end
  end.

Definition str_split (sep s : string) : list string := split_from sep 0 "" s.

(* ================================================================== *)
(** * Records *)
(* ================================================================== *)

(** [meta: {category: category?.code}] *)
Record Meta : Type := mkMeta {
  meta_category : option string
}.

(** One entry of [state.data]. A record written by [processFile] has every
    field but [error]; the record written on a failure has [error] only. *)
Record FileData : Type := mkFileData {
  tags : option (obj value);
  category : option (obj value);
  format : option (obj value);
  meta : option Meta;
  file : option string;
  time : option Z;
  mtime : option Z;
  ext : option string;
  error : option string
}.

(** [{error: String(err)}] *)
Definition errorRecord (reason : string) : FileData :=
  mkFileData None None None None None None None None (Some reason).

(* ================================================================== *)
(** * Taxonomy builder *)
(* ================================================================== *)

(** Symbol for items that do not belong to any taxonomy type. *)
Definition NONE : string := "__NONE__".

(** [getTaxonomyValue(tags, key)]: the loop over [key.split('__or__')]. *)
Fixpoint getTaxonomyValue_items (tags : obj value) (keyItems : list string)
  : value :=
  match keyItems with
  | [] => VStr NONE
  | keyItem :: rest =>
      let value := prop tags keyItem in
      let isArr := isArray value in
      if (negb isArr && truthy value) || (isArr && truthy (index0 value))
      then (if isArr then index0 value else value)
      else getTaxonomyValue_items tags rest
  end.

Definition getTaxonomyValue (tags : obj value) (key : string) : value :=
  getTaxonomyValue_items tags (str_split "__or__" key).

(** ** lodash [orderBy], ascending on every criterion *)

(** [compareAscending(value, other)] of lodash on the operands the sort
    criteria of this program range over: numbers and strings are compared
    with [<] and [>], [null] sorts after every defined operand and
    [undefined] after [null]. Other pairs of operands, which JavaScript
    compares through ToPrimitive and ToNumber, are outside the embedding and
    left unordered; [sortable] below excludes them. *)
Definition compareAscending (value other : value) : comparison :=
  match value, other with
  | VNum a, VNum b => (a ?= b)%Z
  | VStr a, VStr b => String.compare a b
  | VUndefined, VUndefined => Eq
  | VUndefined, _ => Gt
  | _, VUndefined => Lt
  | VNull, VNull => Eq
  | VNull, _ => Gt
  | _, VNull => Lt
  | _, _ => Eq
  end.

(** [compareMultiple(object, other, orders)]: the first criterion that
    tells the operands apart decides. *)
Fixpoint compareMultiple (objCriteria othCriteria : list value) : comparison :=
  match objCriteria, othCriteria with
  | x :: xs, y :: ys =>
      match compareAscending x y with
      | Eq => compareMultiple xs ys
      | c => c
      end
  | _, _ => Eq
  end.

Section OrderBy.
Variable A : Type.
Variable criteria : A -> list value.

(** [Array.prototype.sort] is stable and the comparer falls back on the
    original index: an element goes before the first one that is not
    smaller than it. *)
Fixpoint sort_insert (x : A) (l : list A) : list A :=
  match l with
  | [] => [x]
  | y :: l' =>
      match compareMultiple (criteria x) (criteria y) with
      | Gt => y :: sort_insert x l'
      | _ => x :: l
      end
  end.

Fixpoint orderBy (l : list A) : list A :=
  match l with
  | [] => []
  | x :: l' => sort_insert x (orderBy l')
  end.
End OrderBy.

(** [get(file, 'tags')] as a value *)
Definition tagsValue (f : FileData) : value :=
  match tags f with Some t => VObj t | None => VUndefined end.

Definition fileValue (f : FileData) : value :=
  match file f with Some s => VStr s | None => VUndefined end.

(** The criteria ['1.tags.disk.no', '1.tags.track.no', '1.file',
    '1.tags.title'] of an entry [[key, file]]. *)
Definition albumCriteria (e : string * FileData) : list value :=
  let f := snd e in
  [ field (field (tagsValue f) "disk") "no";
    field (field (tagsValue f) "track") "no";
    fileValue f;
    field (tagsValue f) "title" ].

(** Sorts the files in an album. *)
Definition sortAlbumFiles (dataFiles : obj FileData) : obj FileData :=
  fromEntries (orderBy albumCriteria (entries dataFiles)).

(** The criterion ['0'] of an entry [[key, item]]. *)
Definition keyCriteria (V : Type) (e : string * V) : list value :=
  [ VStr (fst e) ].

(** Sorts the items in a taxonomy collection. *)
Definition sortTaxonomyItems (V : Type) (collectionItems : obj V) : obj V :=
  fromEntries (orderBy (@keyCriteria V) (entries collectionItems)).

(** ** The taxonomy tree *)

(** A taxonomy item [{key, data, isNullCollection, items}]. An item with
    [isEndNode] holds files and, unless its first file has the empty path,
    [tags]; any other item holds items. *)
Inductive TaxNode : Type :=
| Branch (key : string) (data : value) (isNullCollection : bool)
         (items : list (string * TaxNode))
| EndNode (key : string) (data : value) (isNullCollection : bool)
          (items : list (string * FileData)) (tags : option (obj value)).

(** An item as the grouping loop leaves it, before its [items] are
    rebuilt. *)
Record Group : Type := mkGroup {
  g_key : string;
  g_data : value;
  g_isNullCollection : bool;
  g_items : obj FileData
}.

(** [{...file.tags, ...file.category}] *)
Definition attributes (f : FileData) : obj value :=
  spread (tags f) (category f).

(** [taxData === NONE] *)
Definition isNONE (v : value) : bool :=
  match v with VStr s => s =? NONE | _ => false end.

(** One turn of the grouping loop (lines 276-288). [items[taxData]] reads
    an inherited member when [taxData] names one, so no item is created
    and the assignment to its [items] throws. *)
Definition groupStep (taxKey : string) (items : obj Group)
  (e : string * FileData) : result (obj Group) :=
  let (key, f) := e in
  let taxData := getTaxonomyValue (attributes f) taxKey in
  let name := toString taxData in
  match obj_get name items with
  | Some g =>
      Ok (obj_set name
            (mkGroup (g_key g) (g_data g) (g_isNullCollection g)
                     (obj_set key f (g_items g)))
            items)
  | None =>
      if inherited name
      then Throw (TypeError ("Cannot set properties of undefined (setting '"
                             ++ key ++ "')"))
      else Ok (obj_set name
                 (mkGroup taxKey taxData (isNONE taxData) (obj_set key f []))
                 items)
  end.

Fixpoint groupFiles (taxKey : string) (items : obj Group)
  (es : list (string * FileData)) : result (obj Group) :=
  match es with
  | [] => Ok items
  | e :: es' =>
      let* items' := groupStep taxKey items e in
      groupFiles taxKey items' es'
  end.

(** Running a callback over the entries of an object, in order, replacing
    each value; the first throw ends the loop. *)
Fixpoint forEntries (A B : Type) (f : string -> A -> result B) (o : obj A)
  : result (obj B) :=
  match o with
  | [] => Ok []
  | (k, a) :: o' =>
      let* b := f k a in
      let* rest := forEntries f o' in
      Ok ((k, b) :: rest)
  end.

(** The representative tags of an end node (lines 300-304). *)
Definition endNodeTags (sorted : obj FileData) : option (obj value) :=
  match keys sorted with
  | firstFile :: _ =>
      if firstFile =? "" then None
      else match obj_get firstFile sorted with
           | Some firstItem =>
               Some (omit (attributes firstItem) ["title"; "track"; "disk"])
           | None => None
           end
  | [] => None
  end.

Definition endNode (g : Group) : TaxNode :=
  let sorted := sortAlbumFiles (g_items g) in
  EndNode (g_key g) (g_data g) (g_isNullCollection g) sorted
          (endNodeTags sorted).

(** Returns files reorganized per a category taxonomy; recurses for the
    remaining keys of the category's taxonomy list. *)
Fixpoint collectMediaLibraryTaxonomy (dataFiles : obj FileData)
  (taxKey : string) (remainingTaxKeys : list string) {struct remainingTaxKeys}
  : result (obj TaxNode) :=
  let* items := groupFiles taxKey [] (entries dataFiles) in
  match remainingTaxKeys with
  | next :: rest =>
      forEntries
        (fun _ g =>
           let* sub := collectMediaLibraryTaxonomy (g_items g) next rest in
           Ok (Branch (g_key g) (g_data g) (g_isNullCollection g)
                      (sortTaxonomyItems sub)))
        items
  | [] => forEntries (fun _ g => Ok (endNode g)) items
  end.

(* ================================================================== *)
(** * Categories of a profile *)
(* ================================================================== *)

(** A category of the profile: a primary one claims a [basedir] and has a
    [taxonomy]; a secondary one [inherits] from a primary one and has a
    [filter]. *)
Record Category : Type := mkCategory {
  cat_name : option string;
  cat_code : option string;
  cat_basedir : option string;
  cat_taxonomy : option (list string);
  cat_sort : option value;
  cat_inherits : option string;
  cat_filter : FileData -> bool
}.

(** [a === b] on two optional strings *)
Definition same_string (a b : option string) : bool :=
  match a, b with
  | Some x, Some y => x =? y
  | None, None => true
  | _, _ => false
  end.

(** Returns the basedir that this file is in. *)
Definition getBaseDir (file : string) : string :=
  let rel := match file with
             | String "/" rest => rest
             | _ => file
             end in
  match str_split "/" rel with
  | seg :: _ => seg
  | [] => ""
  end.

(** Returns the category that this file applies to. *)
Definition getCategory (file : string) (categories : list Category)
  : option Category :=
  let basedir := getBaseDir file in
  find (fun cat => same_string (cat_basedir cat) (Some basedir)) categories.

(** Returns all files that pertain to a given category. *)
Definition getCategoryFiles (cat : Category) (dataFiles : obj FileData)
  : obj FileData :=
  fromEntries
    (filter (fun e =>
               same_string
                 (match meta (snd e) with
                  | Some m => meta_category m
                  | None => None
                  end)
                 (cat_code cat))
            (entries dataFiles)).

(* ================================================================== *)
(** * The scan *)
(* ================================================================== *)

(** What [processTags] of [tags.js] resolves with. *)
Record TagData : Type := mkTagData {
  td_tags : obj value;
  td_category : obj value;
  td_format : obj value
}.

Record Options : Type := mkOptions {
  forceRefresh : bool;
  printSpeed : bool
}.

(** The collaborators of a scan. [processTags] is the attribute extractor
    ([tags.js] around the tag parser); the scan only depends on whether it
    resolves or rejects. [now] is the clock read when the record of a file
    is stamped. *)
Record Env : Type := mkEnv {
  path_join : string -> string -> string;
  extname : string -> string;
  fg : string -> list string;
  stat_mtimeMs : string -> result Z;
  fs_access : string -> result unit;
  processTags : string -> string -> string -> option Category -> result TagData;
  now : string -> Z
}.

(** The mutable state of a scan: [state.data] and, for the properties, the
    file paths the extractor was invoked on. *)
Record ScanState : Type := mkScanState {
  data : obj FileData;
  extracted : list string
}.

(** [files.sort()] *)
Definition sortFiles (files : list string) : list string :=
  orderBy (fun f => [VStr f]) files.

(** Returns an array of all audio files in the given music path. *)
Definition findFiles (env : Env) (musicPath : string) : list string :=
  sortFiles (fg env musicPath).

(** Returns whether this file's previous entry is fresh enough that it can
    be skipped. *)
Definition isFresh (env : Env) (d : obj FileData) (file filepath : string)
  : result (bool * Z) :=
  let fdata_mtime := match obj_get file d with
                     | Some fdata => mtime fdata
                     | None => None
                     end in
  let* mtimeMs := stat_mtimeMs env filepath in
  Ok (match fdata_mtime with
      | Some m => (m =? mtimeMs)%Z
      | None => false
      end, mtimeMs).

(** Reads tags for a specific file. The result is [skipped]. *)
Definition processFile (env : Env) (musicPath file : string)
  (categories : list Category) (options : Options) (s : ScanState)
  : ScanState * result bool :=
  let filepath := path_join env musicPath file in
  match isFresh env (data s) file filepath with
  | Throw e => (s, Throw e)
  | Ok (fresh, mtimeMs) =>
      if fresh && negb (forceRefresh options) then (s, Ok true)
      else
        let ext := extname env file in
        let category := getCategory file categories in
        let s' := mkScanState (data s) (extracted s ++ [file]) in
        match processTags env ext file filepath category with
        | Throw e => (s', Throw e)
        | Ok td =>
            let fdata :=
              mkFileData (Some (td_tags td)) (Some (td_category td))
                (Some (td_format td))
                (Some (mkMeta (match category with
                               | Some c => cat_code c
                               | None => None
                               end)))
                (Some file) (Some (now env file)) (Some mtimeMs) (Some ext)
                None in
            (mkScanState (obj_set file fdata (data s')) (extracted s'),
             Ok false)
        end
  end.

(** One turn of the loop of [processFiles]: [processFile] inside
    [try], and the [catch] that stores the error record. *)
Definition processFilesStep (env : Env) (musicPath : string)
  (categories : list Category) (options : Options) (s : ScanState)
  (file : string) : ScanState :=
  match processFile env musicPath file categories options s with
  | (s1, Ok _) => s1
  | (s1, Throw err) =>
      mkScanState (obj_set file (errorRecord (String_of_error err)) (data s1))
                  (extracted s1)
  end.

(** Iterates through all audio files and reads their tags. *)
Fixpoint processFiles (env : Env) (musicPath : string) (files : list string)
  (categories : list Category) (options : Options) (s : ScanState)
  : ScanState :=
  match files with
  | [] => s
  | file :: files' =>
      processFiles env musicPath files' categories options
        (processFilesStep env musicPath categories options s file)
  end.

(** [path.join(musicPath, value.file)]: [path.join] validates that every
    argument is a string. *)
Definition join_checked (env : Env) (musicPath : string) (f : option string)
  : result string :=
  match f with
  | Some f' => Ok (path_join env musicPath f')
  | None => Throw invalidPathArgument
  end.

(** Checks whether a certain access level applies to a given file path. *)
Definition fileAccessCheck (env : Env) (filepath : string) : result bool :=
  match fs_access env filepath with
  | Ok _ => Ok true
  | Throw err =>
      if same_string (err_code err) (Some "ENOENT")
         || same_string (err_code err) (Some "EACCES")
      then Ok false
      else Throw err
  end.

(** Checks whether a file or path exists. *)
Definition fileExists (env : Env) (filepath : string) : result bool :=
  fileAccessCheck env filepath.

(** Checks all files to ensure they all exist. If not, removes them. The
    loop runs over the entries taken before the first removal. *)
Fixpoint checkEntries (env : Env) (musicPath : string)
  (es : list (string * FileData)) (d : obj FileData) : result (obj FileData) :=
  match es with
  | [] => Ok d
  | (key, value) :: es' =>
      let* filepath := join_checked env musicPath (file value) in
      let* exists_ := fileExists env filepath in
      if exists_ then checkEntries env musicPath es' d
      else checkEntries env musicPath es' (obj_delete key d)
  end.

Definition checkFileExistence (env : Env) (musicPath : string)
  (d : obj FileData) : result (obj FileData) :=
  checkEntries env musicPath (entries d) d.

(** The scan of [indexPath] (lines 406-409) on the record set read from
    the cache: the record set handed to [writeCache] when the scan gets
    that far, and the extractor invocations in either case. *)
Definition scan (env : Env) (musicPath : string) (categories : list Category)
  (options : Options) (cache : obj FileData)
  : result (obj FileData) * list string :=
  let files := findFiles env musicPath in
  let s := processFiles env musicPath files categories options
             (mkScanState cache []) in
  (checkFileExistence env musicPath (data s), extracted s).

(** The record cache on disk after a scan: [writeCache] is reached only
    when nothing threw before it. *)
Definition persisted (cache : obj FileData)
  (run : result (obj FileData) * list string) : obj FileData :=
  match fst run with
  | Ok d => d
  | Throw _ => cache
  end.

(* ================================================================== *)
(** * The cache file *)
(* ================================================================== *)

Section Cache.
(** The parsed content of a cache file and the empty object. *)
Variable D : Type.
Variable emptyObject : D.

(** [fs.readFile], [gunzip] of [gzip.js] (zlib) and [JSON.parse]. *)
Variable fs_readFile : string -> result (list Byte.byte).
Variable gunzip : list Byte.byte -> result (list Byte.byte).
Variable JSON_parse : list Byte.byte -> result D.

(** Reads and returns the existing cache. *)
Definition readCache (filepath : string) : result D :=
  let body :=
    let* raw := fs_readFile (filepath ++ ".gz") in
    let* unzipped := gunzip raw in
    JSON_parse unzipped in
  match body with
  | Ok d => Ok d
  | Throw err =>
      if same_string (err_code err) (Some "ENOENT") then Ok emptyObject
      else if err_name err =? "SyntaxError" then Ok emptyObject
      else Throw err
  end.
End Cache.

(* ================================================================== *)
(** * Playlists *)
(* ================================================================== *)

(** A track of a playlist as [getTrackData] of [playlists.js] returns it. *)
Record Track : Type := mkTrack {
  track_file : string
}.

(** A playlist whose tracks are of type [T]. *)
Record Playlist (T : Type) : Type := mkPlaylist {
  pl_title : string;
  pl_file : string;
  pl_id : string;
  pl_tracks : list T
}.

(** [state.ml], as far as [importPlaylists] touches it. *)
Record MediaLibrary (C : Type) : Type := mkMediaLibrary {
  ml_categories : option (list C);
  ml_playlists : option (list (Playlist Track))
}.

(** The constant [pl] of [importPlaylists]: every track replaced by
    [state.data[track.file]]. *)
Definition resolvedPlaylists (d : obj FileData)
  (playlists : list (Playlist Track)) : list (Playlist (option FileData)) :=
  map (fun playlist =>
         mkPlaylist (pl_title playlist) (pl_file playlist) (pl_id playlist)
           (map (fun track => obj_get (track_file track) d)
                (pl_tracks playlist)))
      playlists.

(** [importPlaylists(waPath, playlistProfile)], given what [findPlaylists]
    resolved with: [pl] is computed and [state.ml] receives [playlists]. *)
Definition importPlaylists (C : Type) (d : obj FileData)
  (ml : option (MediaLibrary C)) (playlists : list (Playlist Track))
  : MediaLibrary C :=
  let pl := resolvedPlaylists d playlists in
  mkMediaLibrary
    (match ml with Some m => ml_categories m | None => None end)
    (Some playlists).

(* ================================================================== *)
(** * Primary categories *)
(* ================================================================== *)

(** An entry of [state.ml.categories] whose [items] are of type [I]. *)
Record CategoryEntry (I : Type) : Type := mkCategoryEntry {
  ce_type : string;
  ce_name : option string;
  ce_code : option string;
  ce_inherits : option string;
  ce_taxonomy : option (list string);
  ce_sort : option value;
  ce_items : I
}.

(** [cat.basedir] as a condition *)
Definition has_basedir (cat : Category) : bool :=
  match cat_basedir cat with
  | Some s => negb (s =? "")
  | None => false
  end.

(** The primary categories of [catalogueMediaLibrary] (lines 355-368): a
    category without taxonomy keys is left out, and the items of the others
    are what [collectMediaLibraryTaxonomy] returns for the first key. *)
Fixpoint primaryCategories (cats : list Category) (d : obj FileData)
  : result (list (CategoryEntry (obj TaxNode))) :=
  match cats with
  | [] => Ok []
  | cat :: cats' =>
      match cat_taxonomy cat with
      | Some (taxKey :: rest) =>
          let* items :=
            collectMediaLibraryTaxonomy (getCategoryFiles cat d) taxKey rest in
          let* others := primaryCategories cats' d in
          Ok (mkCategoryEntry "primary" (cat_name cat) (cat_code cat) None
                (cat_taxonomy cat) (cat_sort cat) items :: others)
      | _ => primaryCategories cats' d
      end
  end.

Definition cataloguePrimary (categories : list Category) (d : obj FileData)
  : result (list (CategoryEntry (obj TaxNode))) :=
  primaryCategories (filter has_basedir categories) d.

(* ================================================================== *)
(** * Category deriver: objects on a heap *)
(* ================================================================== *)

(** [filterMediaLibraryTaxonomy] assigns to the items it is given, so the
    tree it works on is a graph of objects: every object lives at a
    location and refers to other objects by location. *)
Definition loc := nat.

(** A taxonomy item as an object; [isEndNode] is [true] or absent. *)
Record NodeObj : Type := mkNodeObj {
  n_key : string;
  n_data : value;
  n_isNullCollection : bool;
  n_isEndNode : bool;
  n_items : loc;
  n_tags : option (obj value)
}.

(** An object of the graph: an [items] object, whose properties hold a
    reference or [null]; a taxonomy item; a file record. *)
Inductive cell : Type :=
| CItems (m : obj (option loc))
| CNode (n : NodeObj)
| CFile (f : FileData).

Definition heap := list cell.

Definition read (h : heap) (l : loc) : option cell := nth_error h l.

Definition alloc (h : heap) (c : cell) : heap * loc := (h ++ [c], List.length h).

Fixpoint write (h : heap) (l : loc) (c : cell) : heap :=
  match h, l with
  | [], _ => []
  | _ :: h', O => c :: h'
  | x :: h', S l' => x :: write h' l' c
  end.

Definition with_items (n : NodeObj) (l : loc) : NodeObj :=
  mkNodeObj (n_key n) (n_data n) (n_isNullCollection n) (n_isEndNode n) l
            (n_tags n).

(** The properties of an object cloned in turn, [recur] cloning what a
    property refers to. *)
Fixpoint cloneProps (recur : heap -> loc -> option (heap * loc)) (h : heap)
  (m : list (string * option loc)) : option (heap * obj (option loc)) :=
  match m with
  | [] => Some (h, [])
  | (k, None) :: m' =>
      match cloneProps recur h m' with
      | Some (h2, r) => Some (h2, (k, None) :: r)
      | None => None
      end
  | (k, Some l) :: m' =>
      match recur h l with
      | Some (h1, c) =>
          match cloneProps recur h1 m' with
          | Some (h2, r) => Some (h2, (k, Some c) :: r)
          | None => None
          end
      | None => None
      end
  end.

(** [cloneDeep] of lodash on a tree of objects: a fresh object for every
    object reached. [None] stands for a graph deeper than [fuel] or a
    dangling reference. *)
Fixpoint cloneDeep (fuel : nat) (h : heap) (l : loc) : option (heap * loc) :=
  match fuel with
  | O => None
  | S fuel' =>
      match read h l with
      | None => None
      | Some (CFile f) => Some (alloc h (CFile f))
      | Some (CNode n) =>
          match cloneDeep fuel' h (n_items n) with
          | Some (h1, li) => Some (alloc h1 (CNode (with_items n li)))
          | None => None
          end
      | Some (CItems m) =>
          match cloneProps (cloneDeep fuel') h m with
          | Some (h1, m') => Some (alloc h1 (CItems m'))
          | None => None
          end
      end
  end.

(** Applies compact() on objects. *)
Definition compactObject (o : obj (option loc)) : obj (option loc) :=
  fromEntries
    (filter (fun e => match snd e with Some _ => true | None => false end)
            (entries o)).

(** [Object.entries(item.items).filter(([key, file]) => filterFunction(file))] *)
Fixpoint filterFileEntries (filterFunction : FileData -> bool) (h : heap)
  (es : list (string * option loc)) : option (list (string * option loc)) :=
  match es with
  | [] => Some []
  | (k, Some lf) :: es' =>
      match read h lf, filterFileEntries filterFunction h es' with
      | Some (CFile f), Some r =>
          Some (if filterFunction f then (k, Some lf) :: r else r)
      | _, _ => None
      end
  | (k, None) :: _ => None
  end.

(** [items[key] = null] *)
Definition set_null (h : heap) (items : loc) (key : string) : option heap :=
  match read h items with
  | Some (CItems m) => Some (write h items (CItems (obj_set key None m)))
  | _ => None
  end.

(** The loop of [filterMediaLibraryTaxonomy] over the entries of [items]
    taken before the loop, [recur] being the recursive call. *)
Fixpoint filterLoop (recur : heap -> loc -> option (heap * loc))
  (filterFunction : FileData -> bool) (items : loc) (h : heap)
  (es : list (string * option loc)) : option heap :=
  match es with
  | [] => Some h
  | (key, None) :: _ => None
  | (key, Some item) :: es' =>
      match read h item with
      | Some (CNode n) =>
          if n_isEndNode n then
            match read h (n_items n) with
            | Some (CItems fm) =>
                match filterFileEntries filterFunction h (entries fm) with
                | Some fileEntries =>
                    let (h1, fresh) :=
                      alloc h (CItems (fromEntries fileEntries)) in
                    let h2 := write h1 item (CNode (with_items n fresh)) in
                    if Nat.eqb (List.length fileEntries) 0 then
                      match set_null h2 items key with
                      | Some h3 => filterLoop recur filterFunction items h3 es'
                      | None => None
                      end
                    else filterLoop recur filterFunction items h2 es'
                | None => None
                end
            | _ => None
            end
          else
            match recur h (n_items n) with
            | Some (h1, sub) =>
                match read h1 item, read h1 sub with
                | Some (CNode n1), Some (CItems subm) =>
                    let h2 := write h1 item (CNode (with_items n1 sub)) in
                    if Nat.eqb (List.length (keys subm)) 0 then
                      match set_null h2 items key with
                      | Some h3 => filterLoop recur filterFunction items h3 es'
                      | None => None
                      end
                    else filterLoop recur filterFunction items h2 es'
                | _, _ => None
                end
            | None => None
            end
      | _ => None
      end
  end.

(** Filters the items in a category taxonomy. This recurses into taxonomy
    nodes until it finds files, and then it filters those. [None] stands
    for a tree deeper than [fuel] or a heap that does not hold a taxonomy
    at [items]. *)
Fixpoint filterMediaLibraryTaxonomy (fuel : nat)
  (filterFunction : FileData -> bool) (h : heap) (items : loc)
  : option (heap * loc) :=
  match fuel with
  | O => None
  | S fuel' =>
      match read h items with
      | Some (CItems m) =>
          match filterLoop (filterMediaLibraryTaxonomy fuel' filterFunction)
                  filterFunction items h (entries m) with
          | Some h' =>
              match read h' items with
              | Some (CItems m') => Some (alloc h' (CItems (compactObject m')))
              | _ => None
              end
          | None => None
          end
      | _ => None
      end
  end.

(** The items of a secondary category (line 378):
    [filterMediaLibraryTaxonomy(cloneDeep(baseCategory.items), cat.filter)] *)
Definition deriveItems (fuel : nat) (h : heap) (baseItems : loc)
  (filterFunction : FileData -> bool) : option (heap * loc) :=
  match cloneDeep fuel h baseItems with
  | Some (h1, copy) => filterMediaLibraryTaxonomy fuel filterFunction h1 copy
  | None => None
  end.

(** ** The tree an [items] object stands for *)

Definition isEmptyNode (t : TaxNode) : bool :=
  match t with
  | EndNode _ _ _ [] _ | Branch _ _ _ [] => true
  | _ => false
  end.

(** The tree [filterMediaLibraryTaxonomy] returns, as a function of the
    tree it is given. *)
Fixpoint filterNode (filterFunction : FileData -> bool) (t : TaxNode) : TaxNode :=
  match t with
  | EndNode k d b files tg =>
      EndNode k d b
        (fromEntries (filter (fun e => filterFunction (snd e)) files)) tg
  | Branch k d b items =>
      Branch k d b
        (fromEntries
           ((fix each (l : list (string * TaxNode)) : list (string * TaxNode) :=
               match l with
               | [] => []
               | (key, item) :: l' =>
                   if isEmptyNode (filterNode filterFunction item)
                   then each l'
                   else (key, filterNode filterFunction item) :: each l'
               end) items))
  end.

Fixpoint filterEach (filterFunction : FileData -> bool)
  (l : list (string * TaxNode)) : list (string * TaxNode) :=
  match l with
  | [] => []
  | (key, item) :: l' =>
      if isEmptyNode (filterNode filterFunction item)
      then filterEach filterFunction l'
      else (key, filterNode filterFunction item) :: filterEach filterFunction l'
  end.

Definition filterTaxonomy (filterFunction : FileData -> bool)
  (items : obj TaxNode) : obj TaxNode :=
  fromEntries (filterEach filterFunction items).

(** No empty branch and no empty leaf anywhere in a tree. *)
Fixpoint noEmpty (t : TaxNode) : bool :=
  match t with
  | EndNode _ _ _ files _ => negb (Nat.eqb (List.length files) 0)
  | Branch _ _ _ items =>
      negb (Nat.eqb (List.length items) 0) &&
      (fix all (l : list (string * TaxNode)) : bool :=
         match l with
         | [] => true
         | (_, item) :: l' => noEmpty item && all l'
         end) items
  end.

Definition noEmptyItems (items : obj TaxNode) : bool :=
  forallb (fun e => noEmpty (snd e)) items.

(** Number of nested [items] levels. *)
Fixpoint height (t : TaxNode) : nat :=
  match t with
  | EndNode _ _ _ _ _ => 1
  | Branch _ _ _ items =>
      S ((fix most (l : list (string * TaxNode)) : nat :=
            match l with
            | [] => 0
            | (_, item) :: l' => Nat.max (height item) (most l')
            end) items)
  end.

Fixpoint heightItems (items : list (string * TaxNode)) : nat :=
  match items with
  | [] => 0
  | (_, item) :: l' => Nat.max (height item) (heightItems l')
  end.

(** [repNode S h t l]: the item at [l] of heap [h] and what it refers to
    stand for the tree [t], every object involved at a location in [S];
    the properties of an [items] object have distinct names. *)
Inductive repFiles (S : loc -> Prop) (h : heap)
  : list (string * FileData) -> list (string * option loc) -> Prop :=
| repFiles_nil : repFiles S h [] []
| repFiles_cons k f lf files m :
    S lf -> read h lf = Some (CFile f) -> repFiles S h files m ->
    repFiles S h ((k, f) :: files) ((k, Some lf) :: m).

Inductive repNode (S : loc -> Prop) (h : heap) : TaxNode -> loc -> Prop :=
| repNode_end k d b files tg l li m :
    S l -> S li ->
    read h l = Some (CNode (mkNodeObj k d b true li tg)) ->
    read h li = Some (CItems m) ->
    repFiles S h files m ->
    repNode S h (EndNode k d b files tg) l
| repNode_branch k d b items l li m :
    S l -> S li ->
    read h l = Some (CNode (mkNodeObj k d b false li None)) ->
    read h li = Some (CItems m) ->
    NoDup (keys m) ->
    repSlots S h items m ->
    repNode S h (Branch k d b items) l
with repSlots (S : loc -> Prop) (h : heap)
  : list (string * TaxNode) -> list (string * option loc) -> Prop :=
| repSlots_nil : repSlots S h [] []
| repSlots_cons k t l items m :
    repNode S h t l -> repSlots S h items m ->
    repSlots S h ((k, t) :: items) ((k, Some l) :: m).

Scheme repNode_mut := Minimality for repNode Sort Prop
  with repSlots_mut := Minimality for repSlots Sort Prop.

Definition repItems (S : loc -> Prop) (h : heap) (items : obj TaxNode)
  (li : loc) : Prop :=
  S li /\ exists m, read h li = Some (CItems m) /\ NoDup (keys m)
                    /\ repSlots S h items m.

(** [ordNode h t l lo]: the tree [t] is laid out at [l] within the
    locations from [lo] to [l], every object after the objects it refers
    to and the items of one level one after the other. *)
Inductive ordFiles (h : heap)
  : list (string * FileData) -> list (string * option loc) -> loc -> loc
    -> Prop :=
| ordFiles_nil lo hi : lo <= hi -> ordFiles h [] [] lo hi
| ordFiles_cons k f lf files m lo hi :
    lo <= lf -> read h lf = Some (CFile f) ->
    ordFiles h files m (S lf) hi ->
    ordFiles h ((k, f) :: files) ((k, Some lf) :: m) lo hi.

Inductive ordNode (h : heap) : TaxNode -> loc -> loc -> Prop :=
| ordNode_end k d b files tg l li m lo :
    read h l = Some (CNode (mkNodeObj k d b true li tg)) ->
    li < l ->
    read h li = Some (CItems m) ->
    ordFiles h files m lo li ->
    ordNode h (EndNode k d b files tg) l lo
| ordNode_branch k d b items l li m lo :
    read h l = Some (CNode (mkNodeObj k d b false li None)) ->
    li < l ->
    read h li = Some (CItems m) ->
    NoDup (keys m) ->
    ordSlots h items m lo li ->
    ordNode h (Branch k d b items) l lo
with ordSlots (h : heap)
  : list (string * TaxNode) -> list (string * option loc) -> loc -> loc
    -> Prop :=
| ordSlots_nil lo hi : lo <= hi -> ordSlots h [] [] lo hi
| ordSlots_cons k t l items m lo hi :
    ordNode h t l lo -> ordSlots h items m (S l) hi ->
    ordSlots h ((k, t) :: items) ((k, Some l) :: m) lo hi.

Scheme ordNode_mut := Minimality for ordNode Sort Prop
  with ordSlots_mut := Minimality for ordSlots Sort Prop.

(** What the loop of [filterMediaLibraryTaxonomy] leaves in the [items]
    object it runs over: [null] for an item that came out empty, and the
    item, now standing for its filtered tree, otherwise. *)
Inductive loopPost (filterFunction : FileData -> bool) (S : loc -> Prop)
  (h : heap)
  : list (string * TaxNode) -> list (string * option loc) -> Prop :=
| loopPost_nil : loopPost filterFunction S h [] []
| loopPost_drop k t items m :
    isEmptyNode (filterNode filterFunction t) = true ->
    loopPost filterFunction S h items m ->
    loopPost filterFunction S h ((k, t) :: items) ((k, None) :: m)
| loopPost_keep k t l items m :
    isEmptyNode (filterNode filterFunction t) = false ->
    repNode S h (filterNode filterFunction t) l ->
    loopPost filterFunction S h items m ->
    loopPost filterFunction S h ((k, t) :: items) ((k, Some l) :: m).

(** Lays a tree out on the heap, each object after the objects it refers
    to. *)
Fixpoint storeFiles (h : heap) (files : list (string * FileData))
  : heap * obj (option loc) :=
  match files with
  | [] => (h, [])
  | (k, f) :: files' =>
      let (h1, lf) := alloc h (CFile f) in
      let (h2, m) := storeFiles h1 files' in
      (h2, (k, Some lf) :: m)
  end.

Fixpoint storeNode (h : heap) (t : TaxNode) : heap * loc :=
  match t with
  | EndNode k d b files tg =>
      let (h1, m) := storeFiles h files in
      let (h2, li) := alloc h1 (CItems m) in
      alloc h2 (CNode (mkNodeObj k d b true li tg))
  | Branch k d b items =>
      let (h1, m) :=
        (fix slots (h : heap) (l : list (string * TaxNode))
           : heap * obj (option loc) :=
           match l with
           | [] => (h, [])
           | (key, item) :: l' =>
               let (h1, li) := storeNode h item in
               let (h2, m) := slots h1 l' in
               (h2, (key, Some li) :: m)
           end) h items in
      let (h2, li) := alloc h1 (CItems m) in
      alloc h2 (CNode (mkNodeObj k d b false li None))
  end.

Fixpoint storeSlots (h : heap) (l : list (string * TaxNode))
  : heap * obj (option loc) :=
  match l with
  | [] => (h, [])
  | (key, item) :: l' =>
      let (h1, li) := storeNode h item in
      let (h2, m) := storeSlots h1 l' in
      (h2, (key, Some li) :: m)
  end.

Definition storeItems (h : heap) (items : obj TaxNode) : heap * loc :=
  let (h1, m) := storeSlots h items in
  alloc h1 (CItems m).

(** ** [catalogueMediaLibrary] *)

(** [a ?? b] on an own property carried over by a spread. *)
Definition overriding (A : Type) (own base : option A) : option A :=
  match own with Some x => Some x | None => base end.

(** A secondary category (lines 370-380): [null] when no primary category
    has the code it inherits from; otherwise the picked properties of
    [{...baseCategory, ...cat}] and the filtered clone of the base
    items. *)
Definition secondaryCategory (fuel : nat) (primary : list (CategoryEntry loc))
  (h : heap) (cat : Category) : option (heap * option (CategoryEntry loc)) :=
  match find (fun pCat => same_string (ce_code pCat) (cat_inherits cat))
             primary with
  | None => Some (h, None)
  | Some baseCategory =>
      match deriveItems fuel h (ce_items baseCategory) (cat_filter cat) with
      | Some (h', items) =>
          Some (h',
                Some (mkCategoryEntry "secondary"
                        (overriding (cat_name cat) (ce_name baseCategory))
                        (overriding (cat_code cat) (ce_code baseCategory))
                        (cat_inherits cat)
                        (overriding (cat_taxonomy cat)
                                    (ce_taxonomy baseCategory))
                        (overriding (cat_sort cat) (ce_sort baseCategory))
                        items))
      | None => None
      end
  end.

(** [compact(secondaryCategories.map(...))] *)
Fixpoint secondaryCategories (fuel : nat) (primary : list (CategoryEntry loc))
  (h : heap) (cats : list Category)
  : option (heap * list (CategoryEntry loc)) :=
  match cats with
  | [] => Some (h, [])
  | cat :: cats' =>
      match secondaryCategory fuel primary h cat with
      | Some (h1, entry) =>
          match secondaryCategories fuel primary h1 cats' with
          | Some (h2, rest) =>
              Some (h2, match entry with
                        | Some e => e :: rest
                        | None => rest
                        end)
          | None => None
          end
      | None => None
      end
  end.

(** The primary categories with their items laid out on the heap. *)
Fixpoint storeCategories (h : heap)
  (cats : list (CategoryEntry (obj TaxNode)))
  : heap * list (CategoryEntry loc) :=
  match cats with
  | [] => (h, [])
  | c :: cats' =>
      let (h1, items) := storeItems h (ce_items c) in
      let (h2, rest) := storeCategories h1 cats' in
      (h2, mkCategoryEntry (ce_type c) (ce_name c) (ce_code c) (ce_inherits c)
             (ce_taxonomy c) (ce_sort c) items :: rest)
  end.

(** Reorganizes files after their tags have been ascertained: the new
    [state.ml]. A throw comes from the builder; [None] stands for a
    taxonomy deeper than [fuel]. *)
Definition catalogueMediaLibrary (fuel : nat) (categories : list Category)
  (d : obj FileData) (h : heap)
  (ml : option (MediaLibrary (CategoryEntry loc)))
  : result (option (heap * MediaLibrary (CategoryEntry loc))) :=
  let* built := cataloguePrimary categories d in
  let (h1, primaryCategories) := storeCategories h built in
  Ok (match secondaryCategories fuel primaryCategories h1
              (filter (fun cat => negb (has_basedir cat)) categories) with
      | Some (h2, secondary) =>
          Some (h2,
                mkMediaLibrary (Some (primaryCategories ++ secondary))
                  (match ml with
                   | Some m => ml_playlists m
                   | None => None
                   end))
      | None => None
      end).

(* ================================================================== *)
(** * Tag values *)
(* ================================================================== *)

(** The values of the tags the parser and the extractor handle. Numbers
    are rational here: a rating and a gain have a fractional part, and
    the arithmetic done on them ([x / 0.25], rounding, small integer
    products) is exact on doubles. [NaN] and the infinities are not
    values of the type. *)
Inductive tagValue : Type :=
| TUndefined
| TNull
| TBool (b : bool)
| TNum (q : Q)
| TStr (s : string)
| TArr (l : list tagValue)
| TObj (o : list (string * tagValue)).

(* ================================================================== *)
(** * [hacks.js]: the Winamp rating of an M4A file *)
(* ================================================================== *)

(** A [Buffer] is the list of its bytes. *)
Definition Buffer : Type := list Byte.byte.

(** [Buffer.from(s, 'ascii')] *)
Definition Buffer_from (s : string) : Buffer := list_byte_of_string s.

(** [buffer.slice(start, end)] for indices that are not negative: the
    bytes from [start] up to [end], as far as the buffer goes. *)
Definition Buffer_slice (buffer : Buffer) (start end_ : nat) : Buffer :=
  firstn (end_ - start) (skipn start buffer).

(** [a.equals(b)] *)
Fixpoint Buffer_equals (a b : Buffer) : bool :=
  match a, b with
  | [], [] => true
  | x :: a', y :: b' => Byte.eqb x y && Buffer_equals a' b'
  | _, _ => false
  end.

(** [buffer.readUInt8(offset)]: off the buffer it throws the
    [RangeError] of [boundsError], which for an empty buffer is the one
    of an access outside the buffer bounds. *)
Definition Buffer_readUInt8 (buffer : Buffer) (offset : nat) : result nat :=
  match nth_error buffer offset with
  | Some b => Ok (N.to_nat (Byte.to_N b))
  | None =>
      Throw
        (match buffer with
         | [] =>
             NodeError "RangeError" "ERR_BUFFER_OUT_OF_BOUNDS"
               "Attempt to access memory outside buffer bounds"
         | _ :: rest =>
             NodeError "RangeError" "ERR_OUT_OF_RANGE"
               ("The value of " ++ dquote ++ "offset" ++ dquote
                ++ " is out of range. It must be >= 0 and <= "
                ++ string_of_Z (Z.of_nat (List.length rest))
                ++ ". Received " ++ string_of_Z (Z.of_nat offset))
         end)
  end.

(** [buffer.toString('ascii')]: the highest bit of each byte is unset. *)
Definition Buffer_toString_ascii (buffer : Buffer) : string :=
  string_of_list_ascii
    (map (fun b => ascii_of_N (N.land (Byte.to_N b) 127)) buffer).

(** [String.prototype.trim], on code units below 256: the white space and
    line terminators among them are U+0009 to U+000D, U+0020 and
    U+00A0. *)
Definition isWhiteSpace (c : ascii) : bool :=
  let n := N_of_ascii c in
  ((9 <=? n) && (n <=? 13))%N || (n =? 32)%N || (n =? 160)%N.

Fixpoint trimStart (s : string) : string :=
  match s with
  | EmptyString => EmptyString
  | String c s' => if isWhiteSpace c then trimStart s' else s
  end.

Fixpoint trimEnd (s : string) : string :=
  match s with
  | EmptyString => EmptyString
  | String c s' =>
      let r := trimEnd s' in
      if (r =? "") && isWhiteSpace c then EmptyString else String c r
  end.

Definition trim (s : string) : string := trimEnd (trimStart s).

Definition M4A_MAGIC_OFFSET : nat := 4.
Definition M4A_MAGIC_BYTES : Buffer := Buffer_from "ftypM4A".

Definition HACKABLE_EXTS : list string := ["m4a"].

(** Removes all characters under 0x20 from a string. *)
Fixpoint cleanString (str : string) : string :=
  match str with
  | EmptyString => EmptyString
  | String c s' =>
      if (N_of_ascii c <? 32)%N then cleanString s'
      else String c (cleanString s')
  end.

(** Checks whether a file is a valid M4A file. *)
Definition isM4aFile (buffer : Buffer) : bool :=
  let end_ := List.length M4A_MAGIC_BYTES + M4A_MAGIC_OFFSET in
  if (List.length buffer <? end_)%nat then false
  else Buffer_equals (Buffer_slice buffer 4 end_) M4A_MAGIC_BYTES.

(** The [rate] pattern applied by Winamp:
    [Buffer.from('rate\x00\x00\x00', 'ascii')]. *)
Definition rate : Buffer :=
  Buffer_from "rate" ++ [Byte.x00; Byte.x00; Byte.x00].

(** What [findM4aWinampRatingData] returns: nothing, [null], or
    [{offset, value}]. *)
Inductive RatingData : Type :=
| RatingUndefined
| RatingNull
| RatingFound (offset : nat) (value : string).

(** The loop of [findM4aWinampRatingData] from position [n] on, with
    [count] positions left before [buffer.length - rate.length]. *)
Fixpoint rateLoop (buffer : Buffer) (count n : nat) : result RatingData :=
  match count with
  | O => Ok RatingNull
  | S count' =>
      if negb (Buffer_equals
                 (Buffer_slice buffer n (n + List.length rate)) rate)
      then rateLoop buffer count' (S n)
      else
        let* offset := Buffer_readUInt8 buffer (n + List.length rate) in
        if (List.length buffer <? n + offset + 4)%nat
        then rateLoop buffer count' (S n)
        else
          let rateValue :=
            Buffer_slice buffer (n + offset + 1) (n + offset + 4) in
          Ok (RatingFound offset
                (cleanString (Buffer_toString_ascii rateValue)))
  end.

(** Finds and extracts the Winamp rating for an M4A file. *)
Definition findM4aWinampRatingData (buffer : Buffer) : result RatingData :=
  if negb (isM4aFile buffer) then Ok RatingUndefined
  else rateLoop buffer (List.length buffer - List.length rate) 0.

(** Finds and extracts the Winamp rating for an M4A file and cleans it
    before returning it. *)
Definition findM4aWinampRating (buffer : Buffer) : result (obj tagValue) :=
  let* data := findM4aWinampRatingData buffer in
  Ok (match data with
      | RatingFound _ value => [("rating", TArr [TStr (trim value)])]
      | _ => []
      end).

(** Extracts additional data from the files using hackish methods. *)
Definition getMetadataHacks (fs_readFile : string -> result Buffer)
  (ext fn filepath : string) (tags : obj tagValue)
  : result (obj tagValue) :=
  if negb (existsb (String.eqb ext) HACKABLE_EXTS) then Ok []
  else
    let* buffer := fs_readFile filepath in
    let* m4aWinampRating := findM4aWinampRating buffer in
    Ok (spread (Some m4aWinampRating) None).

(* ================================================================== *)
(** * [tags.js]: the attribute extractor *)
(* ================================================================== *)

(** ToBoolean *)
Definition t_truthy (v : tagValue) : bool :=
  match v with
  | TUndefined | TNull => false
  | TBool b => b
  | TNum q => negb (Qeq_bool q 0)
  | TStr s => negb (s =? "")
  | TArr _ | TObj _ => true
  end.

Definition t_isArray (v : tagValue) : bool :=
  match v with TArr _ => true | _ => false end.

(** [o[k]] for a name that is not inherited. *)
Definition t_prop (o : obj tagValue) (k : string) : tagValue :=
  match obj_get k o with Some v => v | None => TUndefined end.

(** [v?.[0]] *)
Definition t_index0 (v : tagValue) : tagValue :=
  match v with
  | TArr (x :: _) => x
  | TStr (String c _) => TStr (String c EmptyString)
  | TObj o => t_prop o "0"
  | _ => TUndefined
  end.

(** [v?.k] for a name that no string, number or array has. *)
Definition t_field (v : tagValue) (k : string) : tagValue :=
  match v with
  | TObj o => t_prop o k
  | _ => TUndefined
  end.

(** [a === b] for a string [b] *)
Definition t_is_string (a : tagValue) (b : string) : bool :=
  match a with TStr s => s =? b | _ => false end.

(** ToNumber, [None] standing for [NaN]. The conversion of a string, an
    array or an object goes through parsing and ToPrimitive and is outside
    the embedding; the parser gives a rating as a number. *)
Definition t_toNumber (v : tagValue) : option Q :=
  match v with
  | TUndefined => None
  | TNull => Some 0%Q
  | TBool b => Some (if b then 1%Q else 0%Q)
  | TNum q => Some q
  | TStr _ | TArr _ | TObj _ => None
  end.

(** [Math.round]: the nearest integer, a tie going up. *)
Definition Math_round (x : Q) : Z := Qfloor (x + (1 # 2))%Q.

(** [pick(object, names)] of lodash for top-level names none of which is
    inherited: the own properties among [names], assigned in that
    order. *)
Definition pick (V : Type) (o : obj V) (names : list string) : obj V :=
  fold_left (fun r k => match obj_get k o with
                        | Some v => obj_set k v r
                        | None => r
                        end) names [].

(** Tags that are always available. *)
Definition COMMON_TAGS : list string :=
  [ "title"; "album"; "artists"; "albumartist"; "genre"; "year"; "rating";
    "track"; "disk"; "replaygain_album_gain"; "replaygain_album_peak";
    "replaygain_track_gain"; "replaygain_track_peak" ].

Definition FORMAT_TAGS : list string :=
  [ "container"; "codec"; "duration"; "sampleRate"; "bitsPerSample";
    "numberOfChannels"; "lossless" ].

(** Returns only the common tags that we need. The function assigns to
    the object it is given: the first component is that object as it is
    left, the second the picked tags. *)
Definition pickCommonTags (common : obj tagValue)
  : obj tagValue * obj tagValue :=
  let common1 :=
    if negb (t_truthy (t_prop common "artists"))
    then obj_set "artists" (TArr [t_prop common "artist"]) common
    else common in
  let common2 :=
    if negb (t_truthy (t_prop common1 "albumartist"))
    then obj_set "albumartist" (t_prop common1 "artist") common1
    else common1 in
  let common3 :=
    if t_isArray (t_prop common2 "albumartist")
    then obj_set "albumartist" (t_index0 (t_prop common2 "albumartist"))
           common2
    else common2 in
  (common3, pick common3 COMMON_TAGS).

(** Returns only the format tags that we need. *)
Definition pickFormatTags (format : option (obj tagValue)) : obj tagValue :=
  pick (match format with Some f => f | None => [] end) FORMAT_TAGS.

(** Converts a Winamp rating value to a string value 0-100. *)
Definition getMp3WinampRating (value : tagValue) : string :=
  match t_toNumber value with
  | Some q =>
      let stars := (Math_round (q / (1 # 4))%Q + 1)%Z in
      string_of_Z (stars * 20)
  | None => "NaN"
  end.

(** Performs various cleaning tasks on the obtained tags. *)
Definition cleanTags (tags : obj tagValue) : obj tagValue :=
  let tags1 :=
    if t_truthy (t_prop tags "rating")
       && negb (t_isArray (t_prop tags "rating"))
    then obj_set "rating" (TArr [t_prop tags "rating"]) tags
    else tags in
  let first := t_index0 (t_prop tags1 "rating") in
  if t_truthy (t_field first "source")
  then
    if t_is_string (t_field first "source") "rating@winamp.com"
    then obj_set "rating" (TArr [TStr (getMp3WinampRating
                                         (t_field first "rating"))]) tags1
    else tags1
  else tags1.

(** What [parseFile] of the tag parser resolves with, as far as the
    extractor reads it. *)
Record ParsedFile : Type := mkParsedFile {
  pf_common : obj tagValue;
  pf_format : option (obj tagValue)
}.

(** The part of a category the extractor reads: [categoryTags], an object
    with a [map] method. *)
Record TagCategory : Type := mkTagCategory {
  categoryTags : option (ParsedFile -> result (obj tagValue))
}.

(** Returns additional tags extracted for specific categories. *)
Definition pickCategoryTags (tags : ParsedFile) (category : option TagCategory)
  : result (obj tagValue) :=
  match category with
  | None => Ok []
  | Some c =>
      match categoryTags c with
      | None => Ok []
      | Some map_ => map_ tags
      end
  end.

(** What [processTags] resolves with. *)
Record TagResult : Type := mkTagResult {
  tr_tags : obj tagValue;
  tr_category : obj tagValue;
  tr_format : obj tagValue
}.

(** [processTags(ext, fn, filepath, category)]. The parsed data handed to
    the category is the object [pickCommonTags] has assigned to. *)
Definition processTags_of (parseFile : string -> result ParsedFile)
  (fs_readFile : string -> result Buffer)
  (ext fn filepath : string) (category : option TagCategory)
  : result TagResult :=
  let* data := parseFile filepath in
  let (common', common) := pickCommonTags (pf_common data) in
  let format := pickFormatTags (pf_format data) in
  let* additional :=
    pickCategoryTags (mkParsedFile common' (pf_format data)) category in
  let* hacks := getMetadataHacks fs_readFile ext fn filepath common in
  let tags := cleanTags (spread (Some common) (Some hacks)) in
  Ok (mkTagResult tags additional format).

(* ================================================================== *)
(** * [playlists.js]: the playlists of the Winamp media library *)
(* ================================================================== *)

(** What [xml2js] gives for [playlists.xml], as far as [findPlaylists]
    reads it: [xmlData.playlists.playlist], an array of elements, each
    with its attributes [$]. [A] is the type of the attribute objects. *)
Record XmlData (A : Type) : Type := mkXmlData {
  xml_playlists : option (option (list A))
}.

(** A playlist as [playlistProfile.map] returns it. *)
Record PlaylistInfo : Type := mkPlaylistInfo {
  pi_filename : string;
  pi_title : string;
  pi_id : string
}.

(** [profile.playlists]: a filter and a map over the attribute objects,
    and the base directory of the Windows paths. *)
Record PlaylistProfile (A : Type) : Type := mkPlaylistProfile {
  pp_filter : A -> bool;
  pp_map : A -> PlaylistInfo;
  pp_win32BaseDir : string
}.

(** The collaborators of [playlists.js]: [path] (with [path.sep] of the
    platform and the [win32] variants), [fs.readFile] with an encoding,
    the XML parser, and the M3U8 parser, of which the segment URIs of the
    manifest are read ([None] when the manifest has no [segments]). *)
Record PlaylistEnv (A : Type) : Type := mkPlaylistEnv {
  ple_join : list string -> string;
  ple_sep : string;
  ple_win32_dir : string -> string;
  ple_win32_base : string -> string;
  ple_win32_relative : string -> string -> string;
  ple_readFile : string -> string -> result string;
  ple_parseXml : string -> result (XmlData A);
  ple_segments : string -> option (list string)
}.

(** A [Promise.all] over computations already started: the results in
    order when every one resolves. Which of several rejections is
    reported depends on their timing; the embedding reports the first in
    the order of the list. *)
Fixpoint Promise_all (X : Type) (l : list (result X)) : result (list X) :=
  match l with
  | [] => Ok []
  | r :: l' =>
      let* x := r in
      let* xs := Promise_all l' in
      Ok (x :: xs)
  end.

Section Playlists.
Variable A : Type.
Variable env : PlaylistEnv A.

(** Returns the raw XML data for a given playlists.xml file. *)
Definition parsePlaylistsXml (plBase : string) : result (XmlData A) :=
  let plXml := ple_join env [plBase; "playlists.xml"] in
  let* xml := ple_readFile env plXml "utf-16le" in
  ple_parseXml env xml.

(** Returns a Win32 path converted to Unix. *)
Definition getTrackPath (uri baseDir : string) : string :=
  let rel := ple_win32_relative env baseDir (ple_win32_dir env uri) in
  let parts := str_split "\" rel in
  String.concat (ple_sep env) (parts ++ [ple_win32_base env uri]).

(** Returns track data. *)
Definition getTrackData (segment_uri baseDir : string) : Track :=
  mkTrack (getTrackPath segment_uri baseDir).

(** Returns the parsed XML data for a playlist file. *)
Definition getPlaylistData (playlist : PlaylistInfo)
  (plBase win32BaseDir : string) : result (Playlist Track) :=
  let* data :=
    ple_readFile env (ple_join env [plBase; pi_filename playlist]) "utf8" in
  let segments := match ple_segments env data with
                  | Some l => l
                  | None => []
                  end in
  let tracks := map (fun segment => getTrackData segment win32BaseDir)
                    segments in
  Ok (mkPlaylist (pi_title playlist) (pi_filename playlist)
                 (pi_id playlist) tracks).

(** Returns all playlists defined in the Winamp Media Library that meets
    our profile. [waPath] is [null] unless the indexer was given one, and
    [path.join] validates that every argument is a string. *)
Definition findPlaylists (waPath : option string)
  (playlistProfile : option (PlaylistProfile A))
  : result (list (Playlist Track)) :=
  let* plBase :=
    match waPath with
    | Some w => Ok (ple_join env [w; "Plugins"; "ml"; "playlists"])
    | None =>
        Throw (TypeError
                 "The path argument must be of type string. Received null")
    end in
  let* xmlData := parsePlaylistsXml plBase in
  let* allPlaylists :=
    match xml_playlists xmlData with
    | Some (Some l) => Ok l
    | Some None =>
        Throw (TypeError "Cannot read properties of undefined (reading 'map')")
    | None =>
        Throw (TypeError
                 "Cannot read properties of undefined (reading 'playlist')")
    end in
  let* profile :=
    match playlistProfile with
    | Some p => Ok p
    | None =>
        Throw (TypeError
                 "Cannot read properties of undefined (reading 'filter')")
    end in
  Promise_all
    (map (fun playlist =>
            getPlaylistData playlist plBase (pp_win32BaseDir profile))
         (map (pp_map profile) (filter (pp_filter profile) allPlaylists))).
End Playlists.

(* ================================================================== *)
(** * The cache files and [indexPath] *)
(* ================================================================== *)

(** The files of the caches: their content by path. *)
Definition Disk : Type := string -> option (list Byte.byte).

(** [fs.readFile(path, null)]: [ENOENT] for a path that has no file. *)
Definition disk_readFile (disk : Disk) (path : string)
  : result (list Byte.byte) :=
  match disk path with
  | Some content => Ok content
  | None =>
      Throw (mkError "Error" (Some "ENOENT") "no such file or directory")
  end.

(** [fs.writeFile(path, content, null)]: the file has the content
    afterwards, unless the write fails, which leaves the files as they
    were. [failing] tells the writes that fail, and with what. *)
Definition disk_writeFile (failing : string -> option JsError)
  (disk : Disk) (path : string) (content : list Byte.byte) : result Disk :=
  match failing path with
  | Some err => Throw err
  | None => Ok (fun p => if p =? path then Some content else disk p)
  end.

(** [gzip] and [gunzip] of [gzip.js] and the two directions of JSON for
    the two things cached: the record set and the media library (which
    is serialized with the objects it refers to). *)
Record Codec : Type := mkCodec {
  gzip : list Byte.byte -> result (list Byte.byte);
  gunzip : list Byte.byte -> result (list Byte.byte);
  stringifyData : obj FileData -> list Byte.byte;
  parseData : list Byte.byte -> result (obj FileData);
  stringifyMl : heap -> MediaLibrary (CategoryEntry loc) -> list Byte.byte
}.

(** Writes data back to the cache, given its JSON text. *)
Definition writeCache (codec : Codec) (failing : string -> option JsError)
  (disk : Disk) (filepath : string) (json : list Byte.byte) : result Disk :=
  let* zipped := gzip codec json in
  disk_writeFile failing disk (filepath ++ ".gz") zipped.

(** The arguments of [MusicIndexer]. *)
Record IndexerPaths : Type := mkIndexerPaths {
  fileCachePath : string;
  mlCachePath : string;
  waPath : option string
}.

(** [profile]: the categories and the playlist profile. *)
Record Profile (A : Type) : Type := mkProfile {
  prof_categories : list Category;
  prof_playlists : option (PlaylistProfile A)
}.

(** The options of [indexPath]. [addPlaylists] is accepted and not
    read. *)
Record IndexOptions (A : Type) : Type := mkIndexOptions {
  io_profile : option (Profile A);
  io_addPlaylists : bool;
  io_onlyProfile : bool;
  io_forceRefresh : bool;
  io_printSpeed : bool
}.

(** [state.ml] with the objects its items refer to. *)
Record Library : Type := mkLibrary {
  lib_heap : heap;
  lib_ml : option (MediaLibrary (CategoryEntry loc))
}.

(** How a run of [indexPath] ends: the files of the caches, the paths
    the extractor was invoked on, and whether it resolved - then with the
    record set and the library left in [state] - or rejected. [None]
    stands for a taxonomy deeper than the bound given. *)
Record Run : Type := mkRun {
  run_disk : Disk;
  run_extracted : list string;
  run_end : option (result (obj FileData * Library))
}.

Section IndexPath.
Variable A : Type.
Variable env : Env.
Variable plenv : PlaylistEnv A.
Variable codec : Codec.
Variable failing : string -> option JsError.
Variable paths : IndexerPaths.
Variable fuel : nat.

(** [profile.categories], which throws when no profile was given. *)
Definition profile_categories (options : IndexOptions A)
  : result (list Category) :=
  match io_profile options with
  | Some p => Ok (prof_categories p)
  | None =>
      Throw (TypeError
               "Cannot read properties of undefined (reading 'categories')")
  end.

(** The steps of [indexPath] after the catalogue: the playlists are
    imported and the library is written to its cache. *)
Definition indexPlaylists (options : IndexOptions A) (disk : Disk)
  (extracted : list string) (d : obj FileData) (h : heap)
  (ml : MediaLibrary (CategoryEntry loc)) : Run :=
  match findPlaylists plenv (waPath paths)
          (match io_profile options with
           | Some p => prof_playlists p
           | None => None
           end) with
  | Throw err => mkRun disk extracted (Some (Throw err))
  | Ok playlists =>
      let ml' := importPlaylists d (Some ml) playlists in
      match writeCache codec failing disk (mlCachePath paths)
              (stringifyMl codec h ml') with
      | Throw err => mkRun disk extracted (Some (Throw err))
      | Ok disk' =>
          mkRun disk' extracted (Some (Ok (d, mkLibrary h (Some ml'))))
      end
  end.

(** The steps of [indexPath] from the catalogue on. *)
Definition indexCatalogue (options : IndexOptions A) (lib : Library)
  (disk : Disk) (extracted : list string) (d : obj FileData) : Run :=
  match profile_categories options with
  | Throw err => mkRun disk extracted (Some (Throw err))
  | Ok categories =>
      match catalogueMediaLibrary fuel categories d (lib_heap lib)
              (lib_ml lib) with
      | Throw err => mkRun disk extracted (Some (Throw err))
      | Ok None => mkRun disk extracted None
      | Ok (Some (h, ml)) => indexPlaylists options disk extracted d h ml
      end
  end.

(** [indexPath(musicPath, options)] on the library the indexer holds and
    the files of the caches. *)
Definition indexPath (musicPath : string) (options : IndexOptions A)
  (lib : Library) (disk : Disk) : Run :=
  match readCache [] (disk_readFile disk) (gunzip codec) (parseData codec)
          (fileCachePath paths) with
  | Throw err => mkRun disk [] (Some (Throw err))
  | Ok cache =>
      if io_onlyProfile options
      then indexCatalogue options lib disk [] cache
      else
        let files := findFiles env musicPath in
        match profile_categories options with
        | Throw err => mkRun disk [] (Some (Throw err))
        | Ok categories =>
            let s := processFiles env musicPath files categories
                       (mkOptions (io_forceRefresh options)
                                  (io_printSpeed options))
                       (mkScanState cache []) in
            match checkFileExistence env musicPath (data s) with
            | Throw err => mkRun disk (extracted s) (Some (Throw err))
            | Ok d =>
                match writeCache codec failing disk (fileCachePath paths)
                        (stringifyData codec d) with
                | Throw err => mkRun disk (extracted s) (Some (Throw err))
                | Ok disk' => indexCatalogue options lib disk' (extracted s) d
                end
            end
        end
  end.
End IndexPath.

(* ================================================================== *)
(** * Notions the properties are stated with *)
(* ================================================================== *)

(** The ranked attribute names of a classification key. *)
Definition keyItems (key : string) : list string := str_split "__or__" key.




(** The text that stands for an error: its name and its message, joined
    by a colon when neither is empty, and for an internal error of Node
    the name, the key in brackets and the message. *)
Inductive reasonOf (err : JsError) : string -> Prop :=
| reason_internal key :
    err_key err = Some key ->
    reasonOf err (err_name err ++ " [" ++ key ++ "]: " ++ err_message err)
| reason_plain :
    err_key err = None -> err_name err <> "" -> err_message err <> "" ->
    reasonOf err (err_name err ++ ": " ++ err_message err)
| reason_name :
    err_key err = None -> err_name err <> "" -> err_message err = "" ->
    reasonOf err (err_name err)
| reason_message :
    err_key err = None -> err_name err = "" ->
    reasonOf err (err_message err).

(** The failures [readCache] recovers from: the file is missing, or the
    text does not parse. *)
Definition recoverable (err : JsError) : Prop :=
  err_code err = Some "ENOENT" \/ err_name err = "SyntaxError".

(** A failure [err] of loading is recovered from when it is recoverable
    and reaches the caller when it is not. *)
Definition recoversOrRethrows (D : Type) (emptyObject : D)
  (load : result D) (err : JsError) : Prop :=
  (recoverable err -> load = Ok emptyObject)
  /\ (~ recoverable err -> load = Throw err).

(** A node occurs in a tree, at any depth. *)
Inductive inTree (n : TaxNode) : list (string * TaxNode) -> Prop :=
| inTree_here k items : In (k, n) items -> inTree n items
| inTree_below k key d b sub items :
    In (k, Branch key d b sub) items -> inTree n sub -> inTree n items.

(** Ascending order of one sort key: numbers by value, strings by code
    units, an absent key after every present one ([null] before
    [undefined]). *)
Inductive keyLt : value -> value -> Prop :=
| keyLt_num a b : (a < b)%Z -> keyLt (VNum a) (VNum b)
| keyLt_str a b : String.compare a b = Lt -> keyLt (VStr a) (VStr b)
| keyLt_num_null a : keyLt (VNum a) VNull
| keyLt_str_null a : keyLt (VStr a) VNull
| keyLt_num_undefined a : keyLt (VNum a) VUndefined
| keyLt_str_undefined a : keyLt (VStr a) VUndefined
| keyLt_null_undefined : keyLt VNull VUndefined.

(** Ascending order of a composite key: the first component that differs
    decides. *)
Inductive compositeLe : list value -> list value -> Prop :=
| compositeLe_nil : compositeLe [] []
| compositeLe_lt x y xs ys : keyLt x y -> compositeLe (x :: xs) (y :: ys)
| compositeLe_eq x xs ys : compositeLe xs ys -> compositeLe (x :: xs) (x :: ys).

(** What the tags of a record hold under a name, and the number of a
    position [{no, of}]; [undefined] where there is none. *)
Definition tagOf (f : FileData) (name : string) : value :=
  match tags f with
  | Some t =>
      match obj_get name t with
      | Some v => v
      | None => VUndefined
      end
  | None => VUndefined
  end.

Definition positionNumber (position : value) : value :=
  match position with
  | VObj o =>
      match obj_get "no" o with
      | Some n => n
      | None => VUndefined
      end
  | _ => VUndefined
  end.

(** The composite key of a leaf member: container index, item index, path,
    display title. *)
Definition containerIndex (f : FileData) : value :=
  positionNumber (tagOf f "disk").
Definition itemIndex (f : FileData) : value :=
  positionNumber (tagOf f "track").
Definition recordPath (f : FileData) : value :=
  match file f with
  | Some path => VStr path
  | None => VUndefined
  end.
Definition displayTitle (f : FileData) : value := tagOf f "title".
Definition leafKey (f : FileData) : list value :=
  [containerIndex f; itemIndex f; recordPath f; displayTitle f].

Definition memberLe (e1 e2 : string * FileData) : Prop :=
  compositeLe (leafKey (snd e1)) (leafKey (snd e2)).

(** The attribute a record has under a name: what the tags of its
    category hold under it, else what its tags hold. *)
Definition attributeOf (f : FileData) (name : string) : option value :=
  match
    match category f with
    | Some c => obj_get name c
    | None => None
    end
  with
  | Some v => Some v
  | None =>
      match tags f with
      | Some t => obj_get name t
      | None => None
      end
  end.

(** The tags and the category tags of a record name every property
    once. *)
Definition distinctNames (f : FileData) : Prop :=
  NoDup (keys (match tags f with Some t => t | None => [] end))
  /\ NoDup (keys (match category f with Some c => c | None => [] end)).

(** The indices of a record are numbers and its title is a string, when
    present: what the tag parser declares for them. *)
Definition numberOrAbsent (v : value) : bool :=
  match v with VNum _ | VNull | VUndefined => true | _ => false end.
Definition stringOrAbsent (v : value) : bool :=
  match v with VStr _ | VNull | VUndefined => true | _ => false end.
Definition sortable (f : FileData) : bool :=
  numberOrAbsent (containerIndex f) && numberOrAbsent (itemIndex f)
  && stringOrAbsent (displayTitle f).

(** A key of the record set is a file path: not empty and, since it ends
    in a file extension, not an array index. *)
Definition isPath (k : string) : bool :=
  negb (k =? "") && negb (is_array_index k).

(** The item-specific fields left out of the tags of an end node. *)
Definition itemFields : list string := ["title"; "track"; "disk"].

(** Two sort keys of one kind: both numbers or absent, or both strings or
    absent. *)
Definition sameKind (x y : value) : bool :=
  (numberOrAbsent x && numberOrAbsent y)
  || (stringOrAbsent x && stringOrAbsent y).

(** [orderBy] leaves [x] before [y]. *)
Definition notAfter (A : Type) (criteria : A -> list value) (x y : A) : Prop :=
  compareMultiple (criteria x) (criteria y) <> Gt.

(** Every group holds at least one entry, under distinct keys, all taken
    from [src]. *)
Definition groupsFrom (src : list (string * FileData)) (items : obj Group)
  : Prop :=
  forall name g, In (name, g) items ->
    NoDup (keys (g_items g)) /\ g_items g <> []
    /\ forall e, In e (g_items g) -> In e src.

(** The record of a path is stored under that path. *)
Definition filedUnderOwnPath (d : obj FileData) : Prop :=
  forall k r p, In (k, r) d -> file r = Some p -> p = k.




(** The entry passes the check of [checkFileExistence]: its record names a
    file and the file exists. *)
Definition kept (env : Env) (musicPath : string) (e : string * FileData)
  : bool :=
  match file (snd e) with
  | Some p =>
      match fileExists env (path_join env musicPath p) with
      | Ok true => true
      | _ => false
      end
  | None => false
  end.

(** The record under [f] is an error record or carries the modification
    time the file has now. *)
Definition scanned (env : Env) (musicPath : string) (d : obj FileData)
  (f : string) : Prop :=
  exists r, obj_get f d = Some r
    /\ (file r = None
        \/ exists m, mtime r = Some m
             /\ stat_mtimeMs env (path_join env musicPath f) = Ok m).

(** Two objects with the same property names in the same order and
    related values. *)
Definition parallel (A B : Type) (R : A -> B -> Prop)
  (o1 : obj A) (o2 : obj B) : Prop :=
  Forall2 (fun a b => fst a = fst b /\ R (snd a) (snd b)) o1 o2.

(** A slot that refers to an item standing for the tree, and a slot that
    refers to the record. *)
Definition slotOf (S : loc -> Prop) (h : heap) (t : TaxNode)
  (s : option loc) : Prop :=
  exists l, s = Some l /\ repNode S h t l.

Definition fileSlotOf (S : loc -> Prop) (h : heap) (f : FileData)
  (s : option loc) : Prop :=
  exists lf, s = Some lf /\ S lf /\ read h lf = Some (CFile f).

(** [h'] holds everything [h] holds at the locations in [S]. *)
Definition preserves (S : loc -> Prop) (h h' : heap) : Prop :=
  forall x c, S x -> read h x = Some c -> read h' x = Some c.

(** What a filter of taxonomy items on the heap has to do, for trees of
    fewer than [bound] levels laid out from [lo] to [li]: it returns, it
    leaves alone what lies outside the layout, and what it returns stands
    for the filtered tree, built from the objects of the layout and from
    new ones. *)
Definition filterSpec (filterFunction : FileData -> bool)
  (run : heap -> loc -> option (heap * loc)) (bound : nat) : Prop :=
  forall h items li m lo,
    read h li = Some (CItems m) -> NoDup (keys m) ->
    ordSlots h items m lo li -> heightItems items < bound ->
    exists h' l',
      run h li = Some (h', l')
      /\ List.length h <= l' /\ l' < List.length h'
      /\ (forall x, x < List.length h -> x < lo \/ li < x ->
                    read h' x = read h x)
      /\ repItems (fun x => (lo <= x /\ x < li) \/ List.length h <= x) h'
           (filterTaxonomy filterFunction items) l'.

(** What a clone of an item has to do, for trees of at most [bound]
    levels: it returns the heap extended by the copy, whose last object is
    the copy of the item. *)
Definition cloneSpec (S : loc -> Prop)
  (run : heap -> loc -> option (heap * loc)) (bound : nat) : Prop :=
  forall h t l,
    repNode S h t l -> height t <= bound ->
    exists ext l',
      run h l = Some (h ++ ext, l')
      /\ Datatypes.S l' = List.length (h ++ ext)
      /\ ordNode (h ++ ext) t l' (List.length h).

(** Ascending order of the keys of two entries. *)
Definition keyBefore (V : Type) (e1 e2 : string * V) : Prop :=
  String.compare (fst e1) (fst e2) = Lt.







(* ================================================================== *)
(** * Notions for the shape and the content of a tree *)
(* ================================================================== *)

(** The files a node holds, at any depth, from left to right. *)
Fixpoint leaves (t : TaxNode) : list (string * FileData) :=
  match t with
  | EndNode _ _ _ files _ => files
  | Branch _ _ _ items =>
      (fix each (l : list (string * TaxNode)) : list (string * FileData) :=
         match l with
         | [] => []
         | (_, item) :: l' => leaves item ++ each l'
         end) items
  end.

Fixpoint leavesOf (items : list (string * TaxNode))
  : list (string * FileData) :=
  match items with
  | [] => []
  | (_, item) :: l' => leaves item ++ leavesOf l'
  end.

(** The files the groups of one level hold. *)
Definition groupedEntries (items : obj Group) : list (string * FileData) :=
  flat_map (fun e => g_items (snd e)) items.

(** The property name a file is grouped under for a taxonomy key. *)
Definition groupName (taxKey : string) (f : FileData) : string :=
  toString (getTaxonomyValue (attributes f) taxKey).

Definition nodeKey (t : TaxNode) : string :=
  match t with Branch k _ _ _ | EndNode k _ _ _ _ => k end.

Definition nodeData (t : TaxNode) : value :=
  match t with Branch _ d _ _ | EndNode _ d _ _ _ => d end.

Definition nodeIsNullCollection (t : TaxNode) : bool :=
  match t with Branch _ _ b _ | EndNode _ _ b _ _ => b end.

Definition nodeIsEndNode (t : TaxNode) : bool :=
  match t with Branch _ _ _ _ => false | EndNode _ _ _ _ _ => true end.

(** A node occurs in a tree under the property [name], [depth] levels
    below the root level. *)
Inductive inTreeAt (name : string) (n : TaxNode)
  : nat -> list (string * TaxNode) -> Prop :=
| inTreeAt_here items : In (name, n) items -> inTreeAt name n 0 items
| inTreeAt_below depth k key d b sub items :
    In (k, Branch key d b sub) items -> inTreeAt name n depth sub ->
    inTreeAt name n (S depth) items.

(** Every [items] object of a node, files included, has distinct keys. *)
Fixpoint uniqueKeys (t : TaxNode) : Prop :=
  match t with
  | EndNode _ _ _ files _ => NoDup (keys files)
  | Branch _ _ _ items =>
      NoDup (keys items)
      /\ (fix all (l : list (string * TaxNode)) : Prop :=
            match l with
            | [] => True
            | (_, item) :: l' => uniqueKeys item /\ all l'
            end) items
  end.

Definition uniqueKeysItems (items : list (string * TaxNode)) : Prop :=
  NoDup (keys items) /\ Forall (fun e => uniqueKeys (snd e)) items.

(** [file.meta?.category === category.code] *)
Definition inCategory (cat : Category) (e : string * FileData) : bool :=
  same_string (match meta (snd e) with
               | Some m => meta_category m
               | None => None
               end)
              (cat_code cat).

(** What the grouping loop keeps true of every group it has made. *)
Definition groupsFiledBy (taxKey : string) (items : obj Group) : Prop :=
  forall name g, In (name, g) items ->
    g_key g = taxKey /\ toString (g_data g) = name
    /\ (g_isNullCollection g = true <-> g_data g = VStr "__NONE__")
    /\ forall e, In e (g_items g) -> groupName taxKey (snd e) = name.

(** Keys in own-property order: distinct, and whatever comes before an
    array index is an array index that is not larger. *)
Definition ownOrder (ks : list string) : Prop :=
  NoDup ks
  /\ forall pre k post n,
       ks = pre ++ k :: post -> array_index k = Some n ->
       forall k', In k' pre ->
         exists n', array_index k' = Some n' /\ (n' <= n)%N.

(** A tree as the builder makes it: no node is empty, and the keys of
    every [items] object are in own-property order. *)
Fixpoint builtNode (t : TaxNode) : Prop :=
  match t with
  | EndNode _ _ _ files _ => files <> [] /\ ownOrder (keys files)
  | Branch _ _ _ items =>
      items <> [] /\ ownOrder (keys items)
      /\ (fix all (l : list (string * TaxNode)) : Prop :=
            match l with
            | [] => True
            | (_, item) :: l' => builtNode item /\ all l'
            end) items
  end.

Definition builtItems (items : list (string * TaxNode)) : Prop :=
  ownOrder (keys items) /\ Forall (fun e => builtNode (snd e)) items.

(* ================================================================== *)
(** * Notions for the rating search *)
(* ================================================================== *)

(** The [rate] pattern occurs at [n], the byte after it is [offset], and
    the value bytes that [offset] points to lie within the buffer. *)
Definition ratingAt (buffer : Buffer) (n offset : nat) : Prop :=
  n + 7 < List.length buffer
  /\ Buffer_slice buffer n (n + 7) = rate
  /\ (exists b, nth_error buffer (n + 7) = Some b
                /\ N.to_nat (Byte.to_N b) = offset)
  /\ n + offset + 4 <= List.length buffer.

(** The cleaned text of the three bytes after position [n + offset]. *)
Definition ratingValue (buffer : Buffer) (n offset : nat) : string :=
  cleanString
    (Buffer_toString_ascii
       (Buffer_slice buffer (n + offset + 1) (n + offset + 4))).

(** What a search over the positions from [n] on, [count] of them, may
    return. *)
Definition searched (buffer : Buffer) (count n : nat) (r : RatingData)
  : Prop :=
  match r with
  | RatingUndefined => False
  | RatingNull =>
      forall n' o, n <= n' < n + count -> ~ ratingAt buffer n' o
  | RatingFound offset value =>
      exists n0, n <= n0 < n + count
        /\ ratingAt buffer n0 offset
        /\ (forall n' o, n <= n' < n0 -> ~ ratingAt buffer n' o)
        /\ value = ratingValue buffer n0 offset
  end.

(* ================================================================== *)
(** * Notions for the playlists *)
(* ================================================================== *)

(** The string with every backslash replaced by [sep]. *)
Fixpoint replaceBackslashes (sep s : string) : string :=
  match s with
  | EmptyString => EmptyString
  | String c s' =>
      if Ascii.eqb c "\" then (sep ++ replaceBackslashes sep s')%string
      else String c (replaceBackslashes sep s')
  end.

(** The accepted playlists of the media library, as the profile maps
    them, in the order of the document. *)
Definition acceptedPlaylists (A : Type) (profile : PlaylistProfile A)
  (allPlaylists : list A) : list PlaylistInfo :=
  map (pp_map profile) (filter (pp_filter profile) allPlaylists).

(* ================================================================== *)
(** * Notions for the scan *)
(* ================================================================== *)

(** The file is not skipped: its modification time can be read, and its
    record is not fresh or a refresh is forced. *)
Definition needsExtraction (env : Env) (musicPath : string)
  (options : Options) (d : obj FileData) (f : string) : bool :=
  match isFresh env d f (path_join env musicPath f) with
  | Ok (fresh, _) => negb (fresh && negb (forceRefresh options))
  | Throw _ => false
  end.

(** The record names a file, and the check whether the file exists
    comes to an answer. *)
Definition checkable (env : Env) (musicPath : string)
  (e : string * FileData) : Prop :=
  exists p b, file (snd e) = Some p
              /\ fileExists env (path_join env musicPath p) = Ok b.

(** No slash occurs in the string. *)
Fixpoint noSlash (s : string) : bool :=
  match s with
  | EmptyString => true
  | String c s' => negb (Ascii.eqb c "/") && noSlash s'
  end.
(* ================================================================== *)
(** * An example codec *)
(* ================================================================== *)

(** The collaborators of the cache files for the examples: zlib writing
    and reading a stream without compression, and JSON on the values of
    the embedding. They stand in for the libraries; no property is
    proved of them. *)

(** ** gzip streams of stored blocks *)

(** The CRC-32 of the gzip trailer. *)
Definition crc32_update (crc : N) (b : Byte.byte) : N :=
  N.iter 8
    (fun c => if N.odd c then N.lxor (N.shiftr c 1) 3988292384
              else N.shiftr c 1)
    (N.lxor crc (Byte.to_N b)).

Definition crc32 (content : list Byte.byte) : N :=
  N.lxor (fold_left crc32_update content 4294967295%N) 4294967295%N.

Definition byte_of_N (n : N) : Byte.byte :=
  match Byte.of_N (n mod 256) with
  | Some b => b
  | None => Byte.x00
  end.

(** [n] in [k] bytes, least significant first, and back. *)
Fixpoint le_bytes (k : nat) (n : N) : list Byte.byte :=
  match k with
  | O => []
  | S k' => byte_of_N n :: le_bytes k' (n / 256)
  end.

Fixpoint le_value (bs : list Byte.byte) : N :=
  match bs with
  | [] => 0
  | b :: bs' => (Byte.to_N b + 256 * le_value bs')%N
  end.

(** The deflate stream of [content] in stored blocks of at most 65535
    bytes, the last one marked final. *)
Fixpoint storedBlocks (fuel : nat) (content : list Byte.byte)
  : list Byte.byte :=
  match fuel with
  | O => []
  | S fuel' =>
      let chunk := firstn (N.to_nat 65535) content in
      let rest := skipn (N.to_nat 65535) content in
      let len := N.of_nat (List.length chunk) in
      (match rest with [] => Byte.x01 | _ => Byte.x00 end)
      :: le_bytes 2 len ++ le_bytes 2 (65535 - len) ++ chunk
      ++ match rest with
         | [] => []
         | _ => storedBlocks fuel' rest
         end
  end.

(** The stream zlib writes for [content] when it does not compress:
    the ten bytes of the header, the stored blocks, the CRC-32 and the
    length. *)
Definition gzipStored (content : list Byte.byte) : result (list Byte.byte) :=
  Ok ([Byte.x1f; Byte.x8b; Byte.x08; Byte.x00; Byte.x00; Byte.x00; Byte.x00;
       Byte.x00; Byte.x04; Byte.x03]
      ++ storedBlocks (S (List.length content)) content
      ++ le_bytes 4 (crc32 content)
      ++ le_bytes 4 (N.of_nat (List.length content) mod 4294967296)).

(** An error of zlib. *)
Definition zlibError (code message : string) : JsError :=
  mkError "Error" (Some code) message.

(** Reads stored blocks up to the final one and checks the trailer. A
    block that is compressed is beyond this reader. *)
Fixpoint inflateStored (fuel : nat) (body acc : list Byte.byte)
  : result (list Byte.byte) :=
  match fuel with
  | O => Throw (zlibError "Z_BUF_ERROR" "unexpected end of file")
  | S fuel' =>
      match body with
      | [] => Throw (zlibError "Z_BUF_ERROR" "unexpected end of file")
      | head :: body1 =>
          let final := N.odd (Byte.to_N head) in
          let type := ((Byte.to_N head / 2) mod 4)%N in
          if (type =? 3)%N
          then Throw (zlibError "Z_DATA_ERROR" "invalid block type")
          else if negb (type =? 0)%N
          then Throw (mkError "Error" None "compressed block")
          else
            match body1 with
            | l0 :: l1 :: n0 :: n1 :: body2 =>
                let len := le_value [l0; l1] in
                if negb (len + le_value [n0; n1] =? 65535)%N
                then Throw (zlibError "Z_DATA_ERROR"
                              "invalid stored block lengths")
                else
                  let chunk := firstn (N.to_nat len) body2 in
                  let body3 := skipn (N.to_nat len) body2 in
                  if (List.length chunk <? N.to_nat len)%nat
                  then Throw (zlibError "Z_BUF_ERROR"
                                "unexpected end of file")
                  else if negb final
                  then inflateStored fuel' body3 (acc ++ chunk)
                  else
                    let content := acc ++ chunk in
                    if (List.length body3 <? 8)%nat
                    then Throw (zlibError "Z_BUF_ERROR"
                                  "unexpected end of file")
                    else if negb (le_value (firstn 4 body3)
                                  =? crc32 content)%N
                    then Throw (zlibError "Z_DATA_ERROR"
                                  "incorrect data check")
                    else if negb (le_value (firstn 4 (skipn 4 body3))
                                  =? N.of_nat (List.length content)
                                     mod 4294967296)%N
                    then Throw (zlibError "Z_DATA_ERROR"
                                  "incorrect length check")
                    else Ok content
            | _ => Throw (zlibError "Z_BUF_ERROR" "unexpected end of file")
            end
      end
  end.

(** [gunzip] on a stream without optional header fields. *)
Definition gunzipStored (raw : list Byte.byte) : result (list Byte.byte) :=
  match raw with
  | Byte.x1f :: Byte.x8b :: rest =>
      match rest with
      | Byte.x08 :: _ :: _ :: _ :: _ :: _ :: _ :: _ :: body =>
          inflateStored (List.length body) body []
      | [] | [Byte.x08] | [Byte.x08; _] | [Byte.x08; _; _]
      | [Byte.x08; _; _; _] | [Byte.x08; _; _; _; _]
      | [Byte.x08; _; _; _; _; _] | [Byte.x08; _; _; _; _; _; _] =>
          Throw (zlibError "Z_BUF_ERROR" "unexpected end of file")
      | _ => Throw (zlibError "Z_DATA_ERROR" "unknown compression method")
      end
  | [] | [Byte.x1f] => Throw (zlibError "Z_BUF_ERROR" "unexpected end of file")
  | _ => Throw (zlibError "Z_DATA_ERROR" "incorrect header check")
  end.

(** ** JSON on the values of the embedding *)

Section Json.
Local Open Scope string_scope.

Definition newline : string := String (Ascii.ascii_of_nat 10) EmptyString.
Definition backslash : string := String (Ascii.ascii_of_nat 92) EmptyString.

Definition hexDigit (n : N) : string :=
  String (ascii_of_N (if (n <? 10)%N then 48 + n else 87 + n)) EmptyString.

(** A code unit inside a JSON string. *)
Definition json_char (c : ascii) : string :=
  let n := N_of_ascii c in
  if (n =? 34)%N then backslash ++ dquote
  else if (n =? 92)%N then backslash ++ backslash
  else if (n =? 8)%N then backslash ++ "b"
  else if (n =? 9)%N then backslash ++ "t"
  else if (n =? 10)%N then backslash ++ "n"
  else if (n =? 12)%N then backslash ++ "f"
  else if (n =? 13)%N then backslash ++ "r"
  else if (n <? 32)%N
  then backslash ++ "u00" ++ hexDigit (n / 16) ++ hexDigit (n mod 16)
  else String c EmptyString.

Definition json_string (s : string) : string :=
  dquote ++ String.concat "" (map json_char (list_ascii_of_string s))
  ++ dquote.

(** The members of an object or the elements of an array between their
    brackets, one to a line. *)
Definition json_block (opening closing indent : string)
  (members : list string) : string :=
  match members with
  | [] => opening ++ closing
  | _ =>
      opening ++ newline ++ String.concat ("," ++ newline) members
      ++ newline ++ indent ++ closing
  end.

(** [JSON.stringify(v, null, 2)] below the indentation [indent]: a
    property that holds [undefined] or a function is left out, and such
    an element of an array is written as [null]. *)
Fixpoint json_value (indent : string) (v : value) {struct v} : string :=
  let inner := indent ++ "  " in
  match v with
  | VUndefined | VNull | VInherited _ => "null"
  | VBool true => "true"
  | VBool false => "false"
  | VNum n => string_of_Z n
  | VStr s => json_string s
  | VArr l =>
      json_block "[" "]" indent
        (map (fun x => inner ++ json_value inner x) l)
  | VObj o =>
      json_block "{" "}" indent
        (flat_map
           (fun kv : string * value =>
              let (k, x) := kv in
              match x with
              | VUndefined | VInherited _ => []
              | _ => [inner ++ json_string k ++ ": " ++ json_value inner x]
              end)
           o)
  end.

Definition JSON_stringify (v : value) : list Byte.byte :=
  list_byte_of_string (json_value "" v).

(** What is left to read: a value, the elements of an array after the
    ones in [acc], or the members of an object after the ones in [acc]. *)
Inductive JsonGoal : Type :=
| AValue
| Elements (acc : list value)
| Members (acc : obj value).

Fixpoint skip_space (s : string) : string :=
  match s with
  | String c s' =>
      let n := N_of_ascii c in
      if (n =? 32)%N || (n =? 9)%N || (n =? 10)%N || (n =? 13)%N
      then skip_space s' else s
  | EmptyString => EmptyString
  end.

Definition hexValue (c : ascii) : option N :=
  let n := N_of_ascii c in
  if ((48 <=? n) && (n <=? 57))%N then Some (n - 48)%N
  else if ((97 <=? n) && (n <=? 102))%N then Some (n - 87)%N
  else if ((65 <=? n) && (n <=? 70))%N then Some (n - 55)%N
  else None.

(** The rest of a string after its opening quote, for code units below
    256. *)
Fixpoint parse_string (s acc : string) : option (string * string) :=
  match s with
  | EmptyString => None
  | String c s' =>
      let n := N_of_ascii c in
      if (n =? 34)%N then Some (acc, s')
      else if (n <? 32)%N then None
      else if (n =? 92)%N
      then
        match s' with
        | String e s'' =>
            let one (x : N) := parse_string s'' (acc ++ String (ascii_of_N x) "") in
            match e with
            | "b"%char => one 8%N
            | "t"%char => one 9%N
            | "n"%char => one 10%N
            | "f"%char => one 12%N
            | "r"%char => one 13%N
            | "/"%char => one 47%N
            | "u"%char =>
                match s'' with
                | String "0" (String "0" (String h (String l s3))) =>
                    match hexValue h, hexValue l with
                    | Some a, Some b =>
                        parse_string s3
                          (acc ++ String (ascii_of_N (16 * a + b)) "")
                    | _, _ => None
                    end
                | _ => None
                end
            | _ =>
                if (N_of_ascii e =? 34)%N || (N_of_ascii e =? 92)%N
                then parse_string s'' (acc ++ String e "")
                else None
            end
        | EmptyString => None
        end
      else parse_string s' (acc ++ String c "")
  end.

(** The digits at the start of [s]. *)
Fixpoint parse_digits (s : string) (acc : option N) : option N * string :=
  match s with
  | String c s' =>
      match digit c with
      | Some d =>
          parse_digits s'
            (Some (10 * match acc with Some a => a | None => 0 end + d)%N)
      | None => (acc, s)
      end
  | EmptyString => (acc, s)
  end.

(** An integer; a number with a fraction or an exponent is not a value
    of the embedding. *)
Definition parse_number (s : string) : option (value * string) :=
  let (negative, s1) :=
    match s with
    | String "-" s' => (true, s')
    | _ => (false, s)
    end in
  match s1 with
  | String "0" (String c _) =>
      match digit c with
      | Some _ => None
      | None =>
          if (c =? ".")%char || (c =? "e")%char || (c =? "E")%char then None
          else Some (VNum 0, match s1 with String _ r => r | _ => s1 end)
      end
  | _ =>
      match parse_digits s1 None with
      | (Some n, rest) =>
          match rest with
          | String c _ =>
              if (c =? ".")%char || (c =? "e")%char || (c =? "E")%char
              then None
              else Some (VNum (if negative then - Z.of_N n else Z.of_N n),
                         rest)
          | EmptyString =>
              Some (VNum (if negative then - Z.of_N n else Z.of_N n), rest)
          end
      | (None, _) => None
      end
  end.

Definition literal (word : string) (v : value) (s : string)
  : option (value * string) :=
  if String.prefix word s
  then Some (v, String.substring (String.length word)
                  (String.length s - String.length word) s)
  else None.

Fixpoint parse_json (fuel : nat) (goal : JsonGoal) (s : string)
  : option (value * string) :=
  match fuel with
  | O => None
  | S fuel' =>
      let s := skip_space s in
      match goal with
      | AValue =>
          match s with
          | String "{" rest =>
              match skip_space rest with
              | String "}" rest' => Some (VObj [], rest')
              | _ => parse_json fuel' (Members []) rest
              end
          | String "[" rest =>
              match skip_space rest with
              | String "]" rest' => Some (VArr [], rest')
              | _ => parse_json fuel' (Elements []) rest
              end
          | String "t" _ => literal "true" (VBool true) s
          | String "f" _ => literal "false" (VBool false) s
          | String "n" _ => literal "null" VNull s
          | String c rest =>
              if (N_of_ascii c =? 34)%N
              then match parse_string rest "" with
                   | Some (str, rest') => Some (VStr str, rest')
                   | None => None
                   end
              else parse_number s
          | EmptyString => None
          end
      | Elements acc =>
          match parse_json fuel' AValue s with
          | Some (v, rest) =>
              match skip_space rest with
              | String "," rest' => parse_json fuel' (Elements (acc ++ [v])%list) rest'
              | String "]" rest' => Some (VArr (acc ++ [v])%list, rest')
              | _ => None
              end
          | None => None
          end
      | Members acc =>
          match s with
          | String q rest =>
              if (N_of_ascii q =? 34)%N
              then
                match parse_string rest "" with
                | Some (k, rest1) =>
                    match skip_space rest1 with
                    | String ":" rest2 =>
                        match parse_json fuel' AValue rest2 with
                        | Some (v, rest3) =>
                            match skip_space rest3 with
                            | String "," rest' =>
                                parse_json fuel' (Members (obj_set k v acc))
                                  rest'
                            | String "}" rest' =>
                                Some (VObj (obj_set k v acc), rest')
                            | _ => None
                            end
                        | None => None
                        end
                    | _ => None
                    end
                | None => None
                end
              else None
          | EmptyString => None
          end
      end
  end.

(** [JSON.parse] of a text. *)
Definition JSON_parse (text : list Byte.byte) : result value :=
  let s := string_of_list_byte text in
  match parse_json (2 * String.length s + 2) AValue s with
  | Some (v, rest) =>
      match skip_space rest with
      | EmptyString => Ok v
      | _ =>
          Throw (mkError "SyntaxError" None
                   "Unexpected non-whitespace character after JSON")
      end
  | None => Throw (mkError "SyntaxError" None "Unexpected end of JSON input")
  end.
End Json.

(** ** The cached structures as JSON values *)

Definition optional (name : string) (v : option value)
  : list (string * value) :=
  match v with
  | Some x => [(name, x)]
  | None => []
  end.

(** A record as the object it is, its properties in the order in which
    [processFile] writes them. *)
Definition recordValue (f : FileData) : value :=
  VObj (optional "tags" (option_map VObj (tags f))
        ++ optional "category" (option_map VObj (category f))
        ++ optional "format" (option_map VObj (format f))
        ++ optional "meta"
             (option_map
                (fun m =>
                   VObj (optional "category"
                           (option_map VStr (meta_category m))))
                (meta f))
        ++ optional "file" (option_map VStr (file f))
        ++ optional "time" (option_map VNum (time f))
        ++ optional "mtime" (option_map VNum (mtime f))
        ++ optional "ext" (option_map VStr (ext f))
        ++ optional "error" (option_map VStr (error f))).

Definition dataValue (d : obj FileData) : value :=
  VObj (map (fun kv => (fst kv, recordValue (snd kv))) d).

(** A property read back: absent or [null], of the expected kind, or of
    another kind, which the record of the embedding cannot hold. *)
Definition readBack (A : Type) (kind : value -> option A) (o : obj value)
  (name : string) : option (option A) :=
  match obj_get name o with
  | None | Some VNull => Some None
  | Some v =>
      match kind v with
      | Some a => Some (Some a)
      | None => None
      end
  end.

Definition asObject (v : value) : option (obj value) :=
  match v with VObj o => Some o | _ => None end.
Definition asString (v : value) : option string :=
  match v with VStr s => Some s | _ => None end.
Definition asNumber (v : value) : option Z :=
  match v with VNum n => Some n | _ => None end.
Definition asMeta (v : value) : option Meta :=
  match v with
  | VObj m =>
      match readBack asString m "category" with
      | Some c => Some (mkMeta c)
      | None => None
      end
  | _ => None
  end.

Definition valueRecord (v : value) : option FileData :=
  match v with
  | VObj o =>
      match readBack asObject o "tags", readBack asObject o "category",
            readBack asObject o "format", readBack asMeta o "meta",
            readBack asString o "file", readBack asNumber o "time",
            readBack asNumber o "mtime", readBack asString o "ext",
            readBack asString o "error" with
      | Some t, Some c, Some f, Some m, Some p, Some tm, Some mt, Some e,
        Some err =>
          Some (mkFileData t c f m p tm mt e err)
      | _, _, _, _, _, _, _, _, _ => None
      end
  | _ => None
  end.

Fixpoint valueRecords (o : list (string * value)) : option (obj FileData) :=
  match o with
  | [] => Some []
  | (k, v) :: o' =>
      match valueRecord v, valueRecords o' with
      | Some f, Some d => Some ((k, f) :: d)
      | _, _ => None
      end
  end.

(** [JSON.parse] for the record cache. A text that parses to something
    other than an object of records is no record set of the embedding
    and is refused. *)
Definition parseRecords (text : list Byte.byte) : result (obj FileData) :=
  let* v := JSON_parse text in
  match v with
  | VObj o =>
      match valueRecords o with
      | Some d => Ok d
      | None => Throw (mkError "Error" None "not a record set")
      end
  | _ => Throw (mkError "Error" None "not a record set")
  end.

(** What a location of the heap refers to, as far as [fuel] levels
    down. *)
Fixpoint heapValue (fuel : nat) (h : heap) (l : loc) : value :=
  match fuel with
  | O => VNull
  | S fuel' =>
      match read h l with
      | Some (CFile f) => recordValue f
      | Some (CNode n) =>
          VObj ([ ("key", VStr (n_key n)); ("data", n_data n);
                  ("isNullCollection", VBool (n_isNullCollection n));
                  ("items", heapValue fuel' h (n_items n)) ]
                ++ (if n_isEndNode n then [("isEndNode", VBool true)] else [])
                ++ optional "tags" (option_map VObj (n_tags n)))
      | Some (CItems m) =>
          VObj (map (fun kv : string * option loc =>
                       (fst kv,
                        match snd kv with
                        | Some l' => heapValue fuel' h l'
                        | None => VNull
                        end))
                    m)
      | None => VNull
      end
  end.

Definition entryValue (h : heap) (e : CategoryEntry loc) : value :=
  VObj ([("type", VStr (ce_type e))]
        ++ optional "name" (option_map VStr (ce_name e))
        ++ optional "code" (option_map VStr (ce_code e))
        ++ optional "inherits" (option_map VStr (ce_inherits e))
        ++ optional "taxonomy"
             (option_map (fun keys => VArr (map VStr keys)) (ce_taxonomy e))
        ++ optional "sort" (ce_sort e)
        ++ [("items", heapValue (S (List.length h)) h (ce_items e))]).

Definition playlistValue (p : Playlist Track) : value :=
  VObj [ ("title", VStr (pl_title p)); ("file", VStr (pl_file p));
         ("id", VStr (pl_id p));
         ("tracks",
          VArr (map (fun t => VObj [("file", VStr (track_file t))])
                    (pl_tracks p))) ].

Definition libraryValue (h : heap) (ml : MediaLibrary (CategoryEntry loc))
  : value :=
  VObj (optional "categories"
          (option_map (fun cs => VArr (map (entryValue h) cs))
                      (ml_categories ml))
        ++ optional "playlists"
             (option_map (fun ps => VArr (map playlistValue ps))
                         (ml_playlists ml))).

(* ================================================================== *)
(** * Example records *)
(* ================================================================== *)

Definition exampleTags (artist album title : string) (disk track : value)
  : obj value :=
  [ ("title", VStr title); ("artist", VStr artist); ("album", VStr album);
    ("track", VObj [("no", track); ("of", VNull)]);
    ("disk", VObj [("no", disk); ("of", VNull)]) ].

(** A record as [processFile] writes it for a file of category [music]. *)
Definition exampleRecord (path artist album : string) (disk track : value)
  : FileData :=
  mkFileData (Some (exampleTags artist album path disk track)) (Some [])
    (Some []) (Some (mkMeta (Some "music"))) (Some path) (Some 0%Z)
    (Some 1%Z) (Some "mp3") None.

(** A record that names the file [path] and has the title [title]. *)
Definition titledRecord (path title : string) : FileData :=
  mkFileData (Some (exampleTags "X" "Y" title VNull VNull)) (Some [])
    (Some []) (Some (mkMeta (Some "music"))) (Some path) (Some 0%Z)
    (Some 1%Z) (Some "mp3") None.

(** The files of one album, in the order in which they were indexed:
    three files with container indices 2, 1, 1 and item indices none, 2,
    1; a file that shares container and item index with another one and
    was indexed before it; and two records without indices that name the
    same file. *)
Definition leafExample : obj FileData :=
  [ ("m/a.mp3", exampleRecord "m/a.mp3" "X" "Y" (VNum 2) VNull);
    ("m/e.mp3", exampleRecord "m/e.mp3" "X" "Y" (VNum 1) (VNum 2));
    ("m/c.mp3", exampleRecord "m/c.mp3" "X" "Y" (VNum 1) (VNum 1));
    ("m/b.mp3", exampleRecord "m/b.mp3" "X" "Y" (VNum 1) (VNum 2));
    ("m/y.mp3", titledRecord "m/x.mp3" "B");
    ("m/z.mp3", titledRecord "m/x.mp3" "A") ].

(** The same files as the end node holds them: by container index, then
    item index, then path, then title. *)
Definition leafExampleMembers : list (string * FileData) :=
  [ ("m/c.mp3", exampleRecord "m/c.mp3" "X" "Y" (VNum 1) (VNum 1));
    ("m/b.mp3", exampleRecord "m/b.mp3" "X" "Y" (VNum 1) (VNum 2));
    ("m/e.mp3", exampleRecord "m/e.mp3" "X" "Y" (VNum 1) (VNum 2));
    ("m/a.mp3", exampleRecord "m/a.mp3" "X" "Y" (VNum 2) VNull);
    ("m/z.mp3", titledRecord "m/x.mp3" "A");
    ("m/y.mp3", titledRecord "m/x.mp3" "B") ].

(** A primary category that groups by artist, then by album. *)
Definition musicCategory : Category :=
  mkCategory (Some "Music") (Some "music") (Some "m")
    (Some ["artist"; "album"]) None None (fun _ => true).

(** Three files in path order; the artist of the first is [b]. *)
Definition rootExample : obj FileData :=
  [ ("m/1.mp3", exampleRecord "m/1.mp3" "b" "Y" VNull VNull);
    ("m/2.mp3", exampleRecord "m/2.mp3" "a" "Z" VNull VNull);
    ("m/3.mp3", exampleRecord "m/3.mp3" "b" "X" VNull VNull) ].

(** A playlist of one track and a record set that holds the track. *)
Definition examplePlaylist : Playlist Track :=
  mkPlaylist "Favourites" "fav.m3u8" "{1}" [mkTrack "m/1.mp3"].

(** A collection of two files; the tag parser rejects the second. *)
Definition failingEnv : Env :=
  mkEnv (fun dir f => (dir ++ "/" ++ f)%string)
        (fun _ => "mp3")
        (fun _ => ["m/1.mp3"; "m/2.mp3"])
        (fun _ => Ok 1700000000000%Z)
        (fun _ => Ok tt)
        (fun _ f _ _ =>
           if f =? "m/2.mp3"
           then Throw (mkError "Error" None "End-Of-Stream")
           else Ok (mkTagData (exampleTags "X" "Y" f VNull VNull) [] []))
        (fun _ => 1700000001000%Z).

(** The same collection with a parser that accepts both files. *)
Definition healthyEnv : Env :=
  mkEnv (path_join failingEnv) (extname failingEnv) (fg failingEnv)
        (stat_mtimeMs failingEnv) (fs_access failingEnv)
        (fun _ f _ _ => Ok (mkTagData (exampleTags "X" "Y" f VNull VNull) [] []))
        (now failingEnv).

Definition defaultOptions : Options := mkOptions false false.

(** A cache file that does not start with the gzip magic number, a
    cache file that is missing, one that cannot be read, and one that is
    the gzip stream of the text of an opening brace. *)
Definition garbageFile (filepath : string) : result (list Byte.byte) :=
  Ok [Byte.x00; Byte.x01; Byte.x02].

Definition missingFile (filepath : string) : result (list Byte.byte) :=
  Throw (mkError "Error" (Some "ENOENT") "no such file or directory").

Definition unreadableFile (filepath : string) : result (list Byte.byte) :=
  Throw (mkError "Error" (Some "EACCES") "permission denied").

Definition truncatedJsonFile (filepath : string) : result (list Byte.byte) :=
  Ok [Byte.x1f; Byte.x8b; Byte.x08; Byte.x00; Byte.x00; Byte.x00; Byte.x00;
      Byte.x00; Byte.x04; Byte.x03; Byte.x01; Byte.x01; Byte.x00; Byte.xfe;
      Byte.xff; Byte.x7b; Byte.x39; Byte.x47; Byte.xd5; Byte.x15; Byte.x01;
      Byte.x00; Byte.x00; Byte.x00].

(** The record cache a first scan of the healthy collection writes. *)
Definition healthyCache : obj FileData :=
  Eval vm_compute in
    persisted [] (scan healthyEnv "music" [musicCategory] defaultOptions []).

(** A primary tree of one album holding one file, laid out on a heap, and
    two leaf filters. *)
Definition deriveExampleTree : obj TaxNode :=
  [ ("Y", EndNode "album" (VStr "Y") false
            [("m/1.mp3", exampleRecord "m/1.mp3" "X" "Y" VNull VNull)]
            (Some [("artist", VStr "X"); ("album", VStr "Y")])) ].

Definition deriveExampleHeap : heap :=
  [ CFile (exampleRecord "m/1.mp3" "X" "Y" VNull VNull);
    CItems [("m/1.mp3", Some 0)];
    CNode (mkNodeObj "album" (VStr "Y") false true 1
             (Some [("artist", VStr "X"); ("album", VStr "Y")]));
    CItems [("Y", Some 2)] ].

Definition rejectAll (f : FileData) : bool := false.

(** The tree the builder returns for [rootExample] grouped by artist, then
    by album, and the albums it holds under the first artist. *)
Definition rootExampleTree : obj TaxNode :=
  Eval vm_compute in
    match collectMediaLibraryTaxonomy rootExample "artist" ["album"] with
    | Ok tree => tree
    | Throw _ => []
    end.

Definition rootExampleAlbums : list (string * TaxNode) :=
  Eval vm_compute in
    match rootExampleTree with
    | (_, Branch _ _ _ sub) :: _ => sub
    | _ => []
    end.

(** A collection from which the second indexed file has been removed. *)
Definition prunedEnv : Env :=
  mkEnv (path_join healthyEnv) (extname healthyEnv)
        (fun _ => ["m/1.mp3"])
        (stat_mtimeMs healthyEnv)
        (fun p => if p =? "music/m/2.mp3"
                  then Throw (mkError "Error" (Some "ENOENT")
                                "no such file or directory")
                  else Ok tt)
        (processTags healthyEnv) (now healthyEnv).

(** Two secondary categories that inherit from [music]. *)
Definition noneCategory : Category :=
  mkCategory (Some "None") (Some "none") None None None (Some "music")
    rejectAll.

Definition allCategory : Category :=
  mkCategory (Some "All") (Some "all") None None None (Some "music")
    (fun _ => true).

Definition musicEntry : CategoryEntry loc :=
  mkCategoryEntry "primary" (Some "Music") (Some "music") None
    (Some ["album"]) None 3.



(** A record whose artist is named like a member every object inherits. *)
Definition inheritedNameExample : obj FileData :=
  [ ("m/1.mp3", exampleRecord "m/1.mp3" "constructor" "Y" VNull VNull) ].

(** Two files of one artist, the second without an album, the tree the
    builder returns for them, and its node of the files without album. *)
Definition ungroupedExample : obj FileData :=
  [ ("m/1.mp3", exampleRecord "m/1.mp3" "a" "Y" VNull VNull);
    ("m/2.mp3", exampleRecord "m/2.mp3" "a" "" VNull VNull) ].

Definition ungroupedExampleTree : obj TaxNode :=
  Eval vm_compute in
    match collectMediaLibraryTaxonomy ungroupedExample "artist" ["album"] with
    | Ok tree => tree
    | Throw _ => []
    end.

Definition ungroupedExampleLeaf : TaxNode :=
  EndNode "album" (VStr "__NONE__") true
    [("m/2.mp3", exampleRecord "m/2.mp3" "a" "" VNull VNull)]
    (Some [("artist", VStr "a"); ("album", VStr "")]).

(** A filter that accepts one file of [rootExample]. *)
Definition onlyFirstFile (f : FileData) : bool :=
  same_string (file f) (Some "m/1.mp3").

(** The codec of the examples: zlib without compression and JSON. *)
Definition exampleCodec : Codec :=
  mkCodec gzipStored gunzipStored
          (fun d => JSON_stringify (dataValue d))
          parseRecords
          (fun h ml => JSON_stringify (libraryValue h ml)).

Definition emptyDisk : Disk := fun _ => None.

Definition neverFailing (path : string) : option JsError := None.

(** The playlists of a media library that has none. *)
Definition examplePlaylistEnv : PlaylistEnv unit :=
  mkPlaylistEnv (String.concat "/") "/" (fun uri => "") (fun uri => uri)
    (fun _ dir => dir) (fun _ _ => Ok "")
    (fun _ => Ok (mkXmlData (Some (Some []))))
    (fun _ => None).

Definition examplePaths : IndexerPaths :=
  mkIndexerPaths "cache" "ml" (Some "winamp").

Definition exampleOptions : IndexOptions unit :=
  mkIndexOptions
    (Some (mkProfile [musicCategory]
             (Some (mkPlaylistProfile (fun _ : unit => true)
                      (fun _ => mkPlaylistInfo "" "" "") ""))))
    true false false false.


(** The first run of an indexer over the healthy collection, with no
    cache file on the disk, the library it leaves in the indexer and
    the file of the record cache it leaves on the disk. *)
Definition healthyRun : Run :=
  indexPath healthyEnv examplePlaylistEnv exampleCodec neverFailing
    examplePaths 5 "music" exampleOptions (mkLibrary [] None) emptyDisk.

Definition healthyLibrary : Library :=
  Eval vm_compute in
    match run_end healthyRun with
    | Some (Ok (_, lib)) => lib
    | _ => mkLibrary [] None
    end.

Definition healthyCacheFile : list Byte.byte :=
  Eval vm_compute in
    match run_disk healthyRun "cache.gz" with
    | Some content => content
    | None => []
    end.



(* ================================================================== *)
(** * Objects *)
(* ================================================================== *)

Section ObjectFacts.
Variable V : Type.
Implicit Types (o : obj V) (k : string) (v : V).

Lemma obj_get_In k v o : obj_get k o = Some v -> In (k, v) o.
Proof.
  induction o as [|[k' v'] o IH]; simpl; [discriminate|].
  destruct (String.eqb_spec k' k) as [->|_].
  - intros [= ->]. now left.
  - intros H. right. now apply IH.
Qed.

Lemma obj_get_None_keys k o : obj_get k o = None <-> ~ In k (keys o).
Proof.
  induction o as [|[k' v'] o IH]; simpl.
  - split; [intros _ []|reflexivity].
  - destruct (String.eqb_spec k' k) as [->|Hne].
    + split; [discriminate|]. intros H. exfalso. apply H. now left.
    + rewrite IH. split.
      * intros H HH. destruct HH as [E|I]; [now apply Hne|now apply H].
      * intros H I. apply H. now right.
Qed.

Lemma obj_get_NoDup k v o :
  NoDup (keys o) -> In (k, v) o -> obj_get k o = Some v.
Proof.
  induction o as [|[k' v'] o IH]; simpl; [intros _ []|].
  intros Hnd [E|I].
  - injection E as -> ->. now rewrite String.eqb_refl.
  - inversion Hnd as [|? ? Hnot Hnd']; subst.
    destruct (String.eqb_spec k' k) as [->|_].
    + exfalso. apply Hnot. change k with (fst (k, v)). now apply in_map.
    + now apply IH.
Qed.

Lemma obj_replace_keys k v o : keys (obj_replace k v o) = keys o.
Proof.
  induction o as [|[k' v'] o IH]; simpl; [reflexivity|].
  destruct (k' =? k); simpl; [reflexivity|now rewrite IH].
Qed.

Lemma obj_replace_In k v o e :
  In e (obj_replace k v o) -> e = (k, v) \/ In e o.
Proof.
  induction o as [|[k' v'] o IH]; simpl; [intros []|].
  destruct (String.eqb_spec k' k) as [->|_]; simpl.
  - intros [<-|I]; [now left|right; now right].
  - intros [<-|I]; [right; now left|].
    destruct (IH I) as [->|I']; [now left|right; now right].
Qed.

Lemma obj_insert_index_In n k v o e :
  In e (obj_insert_index n k v o) <-> e = (k, v) \/ In e o.
Proof.
  induction o as [|[k' v'] o IH]; simpl.
  - intuition congruence.
  - destruct (array_index k') as [n'|]; [destruct (n <? n')%N|]; simpl;
      try rewrite IH; intuition congruence.
Qed.

Lemma obj_set_In k v o e : In e (obj_set k v o) -> e = (k, v) \/ In e o.
Proof.
  unfold obj_set. destruct (obj_has k o).
  - apply obj_replace_In.
  - destruct (array_index k).
    + apply obj_insert_index_In.
    + rewrite in_app_iff. simpl. intros [I|[<-|[]]]; [now right|now left].
Qed.

Lemma obj_set_fresh_plain k v o :
  obj_get k o = None -> array_index k = None -> obj_set k v o = o ++ [(k, v)].
Proof.
  intros Hget Hidx. unfold obj_set, obj_has. now rewrite Hget, Hidx.
Qed.

Lemma obj_get_replace_same k v o :
  obj_has k o = true -> obj_get k (obj_replace k v o) = Some v.
Proof.
  unfold obj_has. induction o as [|[k' v'] o IH]; simpl; [discriminate|].
  destruct (String.eqb_spec k' k) as [->|Hne]; simpl.
  - now rewrite String.eqb_refl.
  - intros H. destruct (String.eqb_spec k' k); [contradiction|now apply IH].
Qed.

Lemma obj_get_replace_other k k' v o :
  k <> k' -> obj_get k (obj_replace k' v o) = obj_get k o.
Proof.
  intros Hne. induction o as [|[k0 v0] o IH]; simpl; [reflexivity|].
  destruct (String.eqb_spec k0 k') as [->|Hne']; simpl.
  - destruct (String.eqb_spec k' k) as [->|_]; [contradiction|reflexivity].
  - now rewrite IH.
Qed.

Lemma obj_get_insert_index n k k' v o :
  obj_get k (obj_insert_index n k' v o) =
  if k' =? k then (if obj_has k o then obj_get k (obj_insert_index n k' v o) else Some v)
  else obj_get k o.
Proof.
  unfold obj_has.
  induction o as [|[k0 v0] o IH]; simpl.
  - destruct (k' =? k); reflexivity.
  - destruct (array_index k0) as [n0|]; [destruct (n <? n0)%N|]; simpl.
    + destruct (String.eqb_spec k' k) as [->|_]; [|reflexivity].
      destruct (k0 =? k); [reflexivity|]. destruct (obj_get k o); reflexivity.
    + destruct (String.eqb_spec k0 k) as [->|_].
      * destruct (k' =? k); reflexivity.
      * exact IH.
    + destruct (String.eqb_spec k' k) as [->|_]; [|reflexivity].
      destruct (k0 =? k); [reflexivity|]. destruct (obj_get k o); reflexivity.
Qed.

Lemma obj_get_app k o o' :
  obj_get k (o ++ o') =
  match obj_get k o with Some v => Some v | None => obj_get k o' end.
Proof.
  induction o as [|[k0 v0] o IH]; simpl; [reflexivity|].
  destruct (k0 =? k); [reflexivity|exact IH].
Qed.

(** Reading back what was stored. *)
Lemma obj_get_set_same k v o : obj_get k (obj_set k v o) = Some v.
Proof.
  unfold obj_set. destruct (obj_has k o) eqn:Hhas.
  - now apply obj_get_replace_same.
  - destruct (array_index k) as [n|].
    + rewrite obj_get_insert_index, String.eqb_refl, Hhas. reflexivity.
    + rewrite obj_get_app. unfold obj_has in Hhas.
      destruct (obj_get k o); [discriminate|]. simpl. now rewrite String.eqb_refl.
Qed.

(** A store under one key leaves the other keys alone. *)
Lemma obj_get_set_other k k' v o :
  k <> k' -> obj_get k (obj_set k' v o) = obj_get k o.
Proof.
  intros Hne. unfold obj_set. destruct (obj_has k' o).
  - now apply obj_get_replace_other.
  - destruct (array_index k') as [n|].
    + rewrite obj_get_insert_index.
      destruct (String.eqb_spec k' k) as [->|_]; [contradiction|reflexivity].
    + rewrite obj_get_app. destruct (obj_get k o); [reflexivity|]. simpl.
      destruct (String.eqb_spec k' k) as [->|_]; [contradiction|reflexivity].
Qed.

Lemma obj_insert_index_keys_perm n k v o :
  Permutation (keys (obj_insert_index n k v o)) (k :: keys o).
Proof.
  induction o as [|[k' v'] o IH]; simpl; [reflexivity|].
  destruct (array_index k') as [n'|]; [destruct (n <? n')%N|]; simpl;
    try reflexivity.
  rewrite IH. apply perm_swap.
Qed.

Lemma obj_set_NoDup k v o : NoDup (keys o) -> NoDup (keys (obj_set k v o)).
Proof.
  intros Hnd. unfold obj_set. destruct (obj_has k o) eqn:Hhas.
  - now rewrite obj_replace_keys.
  - assert (Hnot : ~ In k (keys o)).
    { apply obj_get_None_keys. unfold obj_has in Hhas.
      now destruct (obj_get k o). }
    destruct (array_index k) as [n|].
    + eapply Permutation_NoDup.
      * symmetry. apply obj_insert_index_keys_perm.
      * now constructor.
    + unfold keys. rewrite map_app. simpl.
      eapply Permutation_NoDup; [apply Permutation_cons_append|].
      now constructor.
Qed.

Lemma fold_set_In (l : list (string * V)) o e :
  In e (fold_left (fun o kv => obj_set (fst kv) (snd kv) o) l o) ->
  In e l \/ In e o.
Proof.
  revert o. induction l as [|[k v] l IH]; simpl; intros o H; [now right|].
  destruct (IH _ H) as [I|I]; [left; now right|].
  destruct (obj_set_In _ _ _ _ I) as [->|I']; [left; now left|now right].
Qed.

Lemma fromEntries_In (l : list (string * V)) e :
  In e (fromEntries l) -> In e l.
Proof.
  intros H. destruct (fold_set_In _ _ _ H) as [I|[]]. exact I.
Qed.

Lemma fold_set_NoDup (l : list (string * V)) o :
  NoDup (keys o) ->
  NoDup (keys (fold_left (fun o kv => obj_set (fst kv) (snd kv) o) l o)).
Proof.
  revert o. induction l as [|[k v] l IH]; simpl; intros o H; [exact H|].
  apply IH. now apply obj_set_NoDup.
Qed.

Lemma fromEntries_NoDup (l : list (string * V)) : NoDup (keys (fromEntries l)).
Proof. apply fold_set_NoDup. constructor. Qed.

Lemma fold_set_plain (l : list (string * V)) o :
  NoDup (keys o ++ keys l) ->
  (forall k, In k (keys l) -> array_index k = None) ->
  fold_left (fun o kv => obj_set (fst kv) (snd kv) o) l o = o ++ l.
Proof.
  revert o. induction l as [|[k v] l IH]; simpl; intros o Hnd Hidx.
  - now rewrite app_nil_r.
  - rewrite obj_set_fresh_plain.
    + rewrite IH.
      * now rewrite <- app_assoc.
      * unfold keys in *. rewrite map_app. simpl. rewrite <- app_assoc. exact Hnd.
      * intros k' Hk'. apply Hidx. now right.
    + apply obj_get_None_keys. apply NoDup_remove_2 in Hnd.
      intros I. apply Hnd. apply in_or_app. now left.
    + apply Hidx. now left.
Qed.

(** An object rebuilt from entries with distinct keys, none an array
    index, keeps the order of the entries. *)
Lemma fromEntries_plain (l : list (string * V)) :
  NoDup (keys l) ->
  (forall k, In k (keys l) -> array_index k = None) ->
  fromEntries l = l.
Proof.
  intros Hnd Hidx. unfold fromEntries. now rewrite fold_set_plain.
Qed.

Lemma obj_set_not_nil k v o : obj_set k v o <> [].
Proof.
  intros H. pose proof (obj_get_set_same k v o) as G. rewrite H in G.
  discriminate.
Qed.

Lemma fromEntries_nil_iff (l : list (string * V)) :
  fromEntries l = [] <-> l = [].
Proof.
  split; [|intros ->; reflexivity].
  destruct l as [|[k v] l]; [reflexivity|]. intros H. exfalso.
  assert (G : forall (l : list (string * V)) o,
             o <> [] ->
             fold_left (fun o kv => obj_set (fst kv) (snd kv) o) l o <> []).
  { clear. induction l as [|[k v] l IH]; simpl; intros o Ho; [exact Ho|].
    apply IH. apply obj_set_not_nil. }
  unfold fromEntries in H. simpl in H.
  apply (G l (obj_set k v [])); [apply obj_set_not_nil|exact H].
Qed.

Lemma obj_get_delete_same k o : obj_get k (obj_delete k o) = None.
Proof.
  unfold obj_delete. induction o as [|[k' v'] o IH]; simpl; [reflexivity|].
  destruct (String.eqb_spec k' k) as [->|Hne]; simpl; [exact IH|].
  destruct (String.eqb_spec k' k); [contradiction|exact IH].
Qed.

Lemma obj_get_delete_other k k' o :
  k <> k' -> obj_get k (obj_delete k' o) = obj_get k o.
Proof.
  intros Hne. unfold obj_delete.
  induction o as [|[k0 v0] o IH]; simpl; [reflexivity|].
  destruct (String.eqb_spec k0 k') as [->|Hne']; simpl.
  - destruct (String.eqb_spec k' k) as [->|_]; [contradiction|exact IH].
  - destruct (k0 =? k); [reflexivity|exact IH].
Qed.
End ObjectFacts.

Lemma fold_set_get (V : Type) (l : list (string * V)) (k : string) :
  NoDup (keys l) ->
  forall o,
    obj_get k (fold_left (fun o kv => obj_set (fst kv) (snd kv) o) l o)
    = match obj_get k l with Some v => Some v | None => obj_get k o end.
Proof.
  induction l as [|[k0 v0] l IH]; simpl; intros Hnd o; [reflexivity|].
  inversion Hnd as [|? ? Hnot Hnd']; subst. rewrite (IH Hnd').
  destruct (String.eqb_spec k0 k) as [->|Hne].
  - assert (Hnone : obj_get k l = None) by now apply obj_get_None_keys.
    rewrite Hnone. apply obj_get_set_same.
  - destruct (obj_get k l); [reflexivity|].
    apply obj_get_set_other. congruence.
Qed.

(** [{...a, ...b}]: a property of [b] wins. *)
Lemma spread_get (V : Type) (a b : obj V) (k : string) :
  NoDup (keys a) -> NoDup (keys b) ->
  obj_get k (spread (Some a) (Some b))
  = match obj_get k b with Some v => Some v | None => obj_get k a end.
Proof.
  intros Ha Hb. unfold spread, entries.
  rewrite (@fold_set_get V b k Hb), (@fold_set_get V a k Ha). simpl.
  now destruct (obj_get k b), (obj_get k a).
Qed.

(** [omit(o, names)]: the named properties are gone, the others stay. *)
Lemma omit_get (V : Type) (o : obj V) (names : list string) (k : string) :
  obj_get k (omit o names)
  = if existsb (String.eqb k) names then None else obj_get k o.
Proof.
  unfold omit. induction o as [|[k0 v0] o IH]; simpl.
  - now destruct (existsb (String.eqb k) names).
  - destruct (String.eqb_spec k0 k) as [->|Hne].
    + destruct (existsb (String.eqb k) names) eqn:E; simpl.
      * exact IH.
      * now rewrite String.eqb_refl.
    + destruct (existsb (String.eqb k0) names); simpl; [exact IH|].
      destruct (String.eqb_spec k0 k); [contradiction|exact IH].
Qed.
(* ================================================================== *)
(** * Grouping values *)
(* ================================================================== *)







(* ================================================================== *)
(** * The rating search of [hacks.js] *)
(* ================================================================== *)

Lemma Buffer_equals_eq (a b : Buffer) : Buffer_equals a b = true <-> a = b.
Proof.
  revert b. induction a as [|x a IH]; intros [|y b]; simpl;
    try (split; [discriminate|discriminate]); [tauto|].
  rewrite andb_true_iff, IH. split.
  - intros [Hxy ->]. apply Byte.byte_dec_bl in Hxy. now subst.
  - intros [= -> ->]. split; [now apply Byte.byte_dec_lb|reflexivity].
Qed.

Lemma rate_length : List.length rate = 7.
Proof. reflexivity. Qed.

(** The search examines every position in turn, never reads off the
    buffer, and stops at the first position where the pattern occurs and
    the value fits. *)
Lemma rateLoop_searched (buffer : Buffer) :
  forall count n,
    n + count + 7 <= List.length buffer ->
    exists r, rateLoop buffer count n = Ok r /\ searched buffer count n r.
Proof.
  induction count as [|count IH]; intros n Hlen.
  - exists RatingNull. split; [reflexivity|]. simpl. intros n' o Hn'. lia.
  - cbn [rateLoop]. rewrite rate_length.
    destruct (IH (S n)) as [r [Hr Hs]]; [lia|].
    assert (Hskip : (forall o, ~ ratingAt buffer n o) ->
                    exists r0, rateLoop buffer count (S n) = Ok r0
                               /\ searched buffer (S count) n r0).
    { intros Hno. exists r. split; [exact Hr|].
      destruct r as [| |offset value]; simpl in *; [exact Hs| |].
      - intros n' o Hn'. destruct (Nat.eq_dec n' n) as [->|Hne];
          [apply Hno|apply Hs; lia].
      - destruct Hs as [n0 [Hn0 [Hat [Hfirst Hv]]]].
        exists n0. split; [lia|]. split; [exact Hat|]. split; [|exact Hv].
        intros n' o Hn'. destruct (Nat.eq_dec n' n) as [->|Hne];
          [apply Hno|apply Hfirst; lia]. }
    destruct (Buffer_equals (Buffer_slice buffer n (n + 7)) rate) eqn:Heq;
      simpl.
    + apply Buffer_equals_eq in Heq. unfold Buffer_readUInt8.
      destruct (nth_error buffer (n + 7)) as [b|] eqn:Hb.
      * simpl.
        destruct (Nat.ltb_spec (List.length buffer)
                    (n + N.to_nat (Byte.to_N b) + 4)) as [Hout|Hin].
        -- apply Hskip. intros o [_ [_ [[b' [Hb' Ho]] Hfit]]].
           rewrite Hb in Hb'. injection Hb' as <-. lia.
        -- eexists. split; [reflexivity|]. simpl. exists n.
           split; [lia|]. split; [|split; [intros; lia|reflexivity]].
           split; [lia|]. split; [exact Heq|]. split; [|exact Hin].
           exists b. split; [exact Hb|reflexivity].
      * apply nth_error_None in Hb. lia.
    + apply Hskip. intros o [_ [Hpat _]].
      apply Buffer_equals_eq in Hpat. congruence.
Qed.

Lemma isM4aFile_length (buffer : Buffer) :
  isM4aFile buffer = true -> 11 <= List.length buffer.
Proof.
  unfold isM4aFile.
  change (List.length M4A_MAGIC_BYTES + M4A_MAGIC_OFFSET) with 11.
  cbv zeta.
  destruct (Nat.ltb_spec (List.length buffer) 11); [discriminate|auto].
Qed.

(** X9. [findM4aWinampRatingData] returns for every buffer, without
    reading a byte off the buffer: nothing for a buffer that is no M4A
    file; for an M4A file the offset and the cleaned value at the first
    position where the [rate] pattern occurs, is followed by a byte
    within the buffer, and the three value bytes that byte points to lie
    within the buffer; and [null] when there is no such position. *)
Theorem findM4aWinampRatingData_first_match (buffer : Buffer) :
  exists r,
    findM4aWinampRatingData buffer = Ok r
    /\ match r with
       | RatingUndefined => isM4aFile buffer = false
       | RatingNull =>
           isM4aFile buffer = true /\ forall n o, ~ ratingAt buffer n o
       | RatingFound offset value =>
           isM4aFile buffer = true
           /\ exists n, ratingAt buffer n offset
                /\ (forall n' o, n' < n -> ~ ratingAt buffer n' o)
                /\ value = ratingValue buffer n offset
       end.
Proof.
  unfold findM4aWinampRatingData.
  destruct (isM4aFile buffer) eqn:Hm4a; simpl.
  - pose proof (isM4aFile_length buffer Hm4a) as Hlen.
    destruct (@rateLoop_searched buffer (List.length buffer - 7) 0)
      as [r [Hr Hs]]; [lia|].
    exists r. split; [exact Hr|].
    destruct r as [| |offset value]; simpl in Hs; [contradiction| |].
    + split; [reflexivity|]. intros n o Hat. apply (Hs n o); [|exact Hat].
      destruct Hat as [Hn _]. lia.
    + split; [reflexivity|]. destruct Hs as [n0 [_ [Hat [Hfirst Hv]]]].
      exists n0. split; [exact Hat|]. split; [|exact Hv].
      intros n' o Hn'. apply Hfirst. lia.
  - exists RatingUndefined. split; reflexivity.
Qed.

(** X10. A buffer passes [isM4aFile] exactly when the seven bytes
    [ftypM4A] follow its first four bytes; a buffer of fewer than eleven
    bytes never does. *)
Theorem isM4aFile_iff_magic_at_offset_4 (buffer : Buffer) :
  (isM4aFile buffer = true
   <-> exists pre rest,
         List.length pre = 4 /\ buffer = pre ++ M4A_MAGIC_BYTES ++ rest)
  /\ (isM4aFile buffer = true -> 11 <= List.length buffer).
Proof.
  split; [|apply isM4aFile_length]. split.
  - intros H. pose proof (isM4aFile_length buffer H) as Hlen.
    unfold isM4aFile in H.
    change (List.length M4A_MAGIC_BYTES + M4A_MAGIC_OFFSET) with 11 in H.
    cbv zeta in H.
    destruct (Nat.ltb_spec (List.length buffer) 11); [discriminate|].
    apply Buffer_equals_eq in H. unfold Buffer_slice in H.
    change (11 - 4) with 7 in H.
    exists (firstn 4 buffer), (skipn 7 (skipn 4 buffer)).
    split; [rewrite length_firstn; lia|].
    rewrite <- H, firstn_skipn, firstn_skipn. reflexivity.
  - intros [pre [rest [Hpre ->]]]. unfold isM4aFile.
    change (List.length M4A_MAGIC_BYTES + M4A_MAGIC_OFFSET) with 11.
    cbv zeta.
    destruct (Nat.ltb_spec (List.length (pre ++ M4A_MAGIC_BYTES ++ rest)) 11)
      as [Hlt|_].
    + rewrite !length_app in Hlt.
      change (List.length M4A_MAGIC_BYTES) with 7 in Hlt. lia.
    + apply Buffer_equals_eq. unfold Buffer_slice.
      change (11 - 4) with 7.
      rewrite skipn_app, Hpre, Nat.sub_diag.
      rewrite (skipn_all2 pre) by lia. simpl skipn.
      reflexivity.
Qed.

Lemma cleanString_chars (s : string) (c : ascii) :
  In c (list_ascii_of_string (cleanString s)) ->
  In c (list_ascii_of_string s) /\ (32 <= N_of_ascii c)%N.
Proof.
  induction s as [|c0 s IH]; simpl; [intros []|].
  destruct (N.ltb_spec (N_of_ascii c0) 32) as [Hlt|Hge]; simpl.
  - intros H. destruct (IH H). tauto.
  - intros [<-|H]; [tauto|]. destruct (IH H). tauto.
Qed.

Lemma cleanString_length (s : string) :
  String.length (cleanString s) <= String.length s.
Proof.
  induction s as [|c0 s IH]; simpl; [lia|].
  destruct (N_of_ascii c0 <? 32)%N; simpl; lia.
Qed.

Lemma string_of_list_ascii_length (l : list ascii) :
  String.length (string_of_list_ascii l) = List.length l.
Proof. induction l as [|c l IH]; simpl; [reflexivity|now rewrite IH]. Qed.

Lemma Buffer_toString_ascii_length (b : Buffer) :
  String.length (Buffer_toString_ascii b) = List.length b.
Proof.
  unfold Buffer_toString_ascii.
  now rewrite string_of_list_ascii_length, length_map.
Qed.

Lemma Buffer_toString_ascii_chars (b : Buffer) (c : ascii) :
  In c (list_ascii_of_string (Buffer_toString_ascii b)) ->
  (N_of_ascii c <= 127)%N.
Proof.
  unfold Buffer_toString_ascii.
  rewrite list_ascii_of_string_of_list_ascii. intros H.
  apply in_map_iff in H. destruct H as [x [<- _]].
  pose proof (N.land_le_r (Byte.to_N x) 127) as Hle.
  rewrite N_ascii_embedding; [exact Hle|]. lia.
Qed.

Lemma Buffer_slice_length (b : Buffer) (start end_ : nat) :
  List.length (Buffer_slice b start end_) <= end_ - start.
Proof. unfold Buffer_slice. rewrite length_firstn. lia. Qed.

Lemma trimStart_chars (s : string) (c : ascii) :
  In c (list_ascii_of_string (trimStart s)) -> In c (list_ascii_of_string s).
Proof.
  induction s as [|c0 s IH]; simpl; [intros []|].
  destruct (isWhiteSpace c0); simpl; [|tauto]. intros H. right. now apply IH.
Qed.

Lemma trimEnd_chars (s : string) (c : ascii) :
  In c (list_ascii_of_string (trimEnd s)) -> In c (list_ascii_of_string s).
Proof.
  induction s as [|c0 s IH]; simpl; [intros []|].
  destruct ((trimEnd s =? "") && isWhiteSpace c0); simpl; [intros []|].
  intros [<-|H]; [now left|right; now apply IH].
Qed.

Lemma trimStart_length (s : string) :
  String.length (trimStart s) <= String.length s.
Proof.
  induction s as [|c0 s IH]; simpl; [lia|].
  destruct (isWhiteSpace c0); simpl; lia.
Qed.

Lemma trimEnd_length (s : string) :
  String.length (trimEnd s) <= String.length s.
Proof.
  induction s as [|c0 s IH]; simpl; [lia|].
  destruct ((trimEnd s =? "") && isWhiteSpace c0); simpl; lia.
Qed.

Lemma trimEnd_idempotent (s : string) : trimEnd (trimEnd s) = trimEnd s.
Proof.
  induction s as [|c0 s IH]; simpl; [reflexivity|].
  destruct ((trimEnd s =? "") && isWhiteSpace c0) eqn:E; simpl;
    [reflexivity|].
  now rewrite IH, E.
Qed.

Lemma trimStart_trimmed (s : string) :
  match s with
  | EmptyString => True
  | String c _ => isWhiteSpace c = false
  end -> trimStart s = s.
Proof. destruct s as [|c s]; simpl; [reflexivity|]. now intros ->. Qed.

Lemma trimStart_head (s : string) :
  match trimStart s with
  | EmptyString => True
  | String c _ => isWhiteSpace c = false
  end.
Proof.
  induction s as [|c0 s IH]; simpl; [exact I|].
  destruct (isWhiteSpace c0) eqn:E; [exact IH|exact E].
Qed.

Lemma trimEnd_head (s : string) :
  match s with
  | EmptyString => True
  | String c _ => isWhiteSpace c = false
  end ->
  match trimEnd s with
  | EmptyString => True
  | String c _ => isWhiteSpace c = false
  end.
Proof.
  destruct s as [|c s]; simpl; [trivial|]. intros H.
  rewrite H, andb_false_r. exact H.
Qed.

(** A trimmed string has no white space left to trim. *)
Lemma trim_idempotent (s : string) : trim (trim s) = trim s.
Proof.
  unfold trim.
  rewrite (trimStart_trimmed (trimEnd (trimStart s))).
  - apply trimEnd_idempotent.
  - apply trimEnd_head. apply trimStart_head.
Qed.

(** X11. [findM4aWinampRating] returns for every buffer, either no
    property or a [rating] that is an array of one string: at most three
    characters, all of them between U+0020 and U+007F, with no white
    space at either end. *)
Theorem findM4aWinampRating_shape (buffer : Buffer) :
  exists hacks,
    findM4aWinampRating buffer = Ok hacks
    /\ (hacks = []
        \/ exists s,
             hacks = [("rating", TArr [TStr s])]
             /\ String.length s <= 3
             /\ trim s = s
             /\ forall c, In c (list_ascii_of_string s) ->
                          (32 <= N_of_ascii c <= 127)%N).
Proof.
  unfold findM4aWinampRating, findM4aWinampRatingData.
  destruct (isM4aFile buffer) eqn:Hm4a; simpl;
    [|eexists; split; [reflexivity|now left]].
  pose proof (isM4aFile_length buffer Hm4a) as Hlen.
  destruct (@rateLoop_searched buffer (List.length buffer - 7) 0)
    as [r [Hr Hs]]; [lia|].
  change (List.length rate) with 7. rewrite Hr.
  simpl. eexists. split; [reflexivity|].
  destruct r as [| |offset value]; [now left|now left|right].
  destruct Hs as [n [_ [_ [_ ->]]]].
  eexists. split; [reflexivity|]. unfold ratingValue.
  set (raw := Buffer_slice buffer (n + offset + 1) (n + offset + 4)).
  split.
  - etransitivity; [apply trimEnd_length|].
    etransitivity; [apply trimStart_length|].
    etransitivity; [apply cleanString_length|].
    rewrite Buffer_toString_ascii_length.
    etransitivity; [apply Buffer_slice_length|]. lia.
  - split; [apply trim_idempotent|]. intros c Hc.
    apply trimEnd_chars, trimStart_chars, cleanString_chars in Hc.
    destruct Hc as [Hc Hlow]. apply Buffer_toString_ascii_chars in Hc.
    split; assumption.
Qed.

(* ================================================================== *)
(** * Ordering *)
(* ================================================================== *)

Lemma string_compare_OT (a b : string) :
  String.compare a b = String_as_OT.compare a b.
Proof.
  revert b. induction a as [|c a IH]; destruct b as [|c' b]; reflexivity.
Qed.

Lemma string_compare_lt_trans (a b c : string) :
  String.compare a b = Lt -> String.compare b c = Lt ->
  String.compare a c = Lt.
Proof.
  rewrite !string_compare_OT. intros H1 H2.
  exact (StrictOrder_Transitive (R := String_as_OT.lt) a b c H1 H2).
Qed.

Lemma compareAscending_antisym (x y : value) :
  compareAscending x y = CompOpp (compareAscending y x).
Proof.
  destruct x, y; simpl; try reflexivity.
  - apply Z.compare_antisym.
  - apply String.compare_antisym.
Qed.

Lemma compareMultiple_antisym (c1 c2 : list value) :
  compareMultiple c1 c2 = CompOpp (compareMultiple c2 c1).
Proof.
  revert c2. induction c1 as [|x c1 IH]; destruct c2 as [|y c2]; simpl;
    try reflexivity.
  rewrite (compareAscending_antisym x y).
  destruct (compareAscending y x); simpl; auto.
Qed.

Section SortFacts.
Variable A : Type.
Variable criteria : A -> list value.

Lemma notAfter_total (x y : A) :
  notAfter criteria x y \/ notAfter criteria y x.
Proof.
  unfold notAfter.
  rewrite (compareMultiple_antisym (criteria y) (criteria x)).
  destruct (compareMultiple (criteria x) (criteria y)); simpl;
    [left|left|right]; discriminate.
Qed.

Lemma sort_insert_perm (x : A) (l : list A) :
  Permutation (sort_insert criteria x l) (x :: l).
Proof.
  induction l as [|y l IH]; simpl; [reflexivity|].
  destruct (compareMultiple (criteria x) (criteria y)); try reflexivity.
  rewrite IH. apply perm_swap.
Qed.

Lemma orderBy_perm (l : list A) : Permutation (orderBy criteria l) l.
Proof.
  induction l as [|x l IH]; simpl; [reflexivity|].
  rewrite sort_insert_perm. now constructor.
Qed.

Lemma sort_insert_hd (x y : A) (l : list A) :
  notAfter criteria y x -> HdRel (notAfter criteria) y l ->
  HdRel (notAfter criteria) y (sort_insert criteria x l).
Proof.
  intros Hyx Hhd. destruct l as [|z l]; simpl; [now constructor|].
  destruct (compareMultiple (criteria x) (criteria z)); constructor;
    try assumption; now inversion Hhd.
Qed.

Lemma sort_insert_sorted (x : A) (l : list A) :
  Sorted (notAfter criteria) l ->
  Sorted (notAfter criteria) (sort_insert criteria x l).
Proof.
  induction 1 as [|y l Hs IH Hhd]; simpl.
  - repeat constructor.
  - destruct (compareMultiple (criteria x) (criteria y)) eqn:Hc.
    + constructor; [now constructor|]. constructor. unfold notAfter.
      rewrite Hc. discriminate.
    + constructor; [now constructor|]. constructor. unfold notAfter.
      rewrite Hc. discriminate.
    + constructor; [exact IH|]. apply sort_insert_hd; [|exact Hhd].
      unfold notAfter. rewrite compareMultiple_antisym, Hc. discriminate.
Qed.

(** [orderBy] returns its argument rearranged so that no element comes
    after one it compares smaller than. *)
Lemma orderBy_sorted (l : list A) :
  Sorted (notAfter criteria) (orderBy criteria l).
Proof.
  induction l as [|x l IH]; simpl; [constructor|].
  now apply sort_insert_sorted.
Qed.

Lemma orderBy_In (l : list A) (x : A) : In x (orderBy criteria l) <-> In x l.
Proof.
  split; apply Permutation_in; [|symmetry]; apply orderBy_perm.
Qed.
End SortFacts.

(** ** The comparer and the ascending order of keys *)

Lemma keyLt_trans (x y z : value) : keyLt x y -> keyLt y z -> keyLt x z.
Proof.
  intros H1 H2. inversion H1; subst; inversion H2; subst;
    constructor;
    solve [ eapply Z.lt_trans; eassumption
          | eapply string_compare_lt_trans; eassumption ].
Qed.

Lemma compositeLe_trans (a b c : list value) :
  compositeLe a b -> compositeLe b c -> compositeLe a c.
Proof.
  intros H1. revert c. induction H1 as [|x y xs ys Hlt|x xs ys Hle IH];
    intros c H2.
  - exact H2.
  - inversion H2; subst.
    + apply compositeLe_lt. eapply keyLt_trans; eassumption.
    + now apply compositeLe_lt.
  - inversion H2; subst.
    + now apply compositeLe_lt.
    + apply compositeLe_eq. now apply IH.
Qed.

Lemma compareAscending_keyLt (x y : value) :
  sameKind x y = true ->
  match compareAscending x y with
  | Lt => keyLt x y
  | Eq => x = y
  | Gt => keyLt y x
  end.
Proof.
  destruct x, y; simpl; try discriminate; intros _; try constructor.
  - destruct (Z.compare_spec n n0); subst; [reflexivity| |];
      now constructor.
  - destruct (String.compare s s0) eqn:Hc.
    + f_equal. now apply String.compare_eq_iff.
    + now constructor.
    + constructor. rewrite String.compare_antisym, Hc. reflexivity.
Qed.

Lemma compareMultiple_compositeLe (c1 c2 : list value) :
  Forall2 (fun x y => sameKind x y = true) c1 c2 ->
  compareMultiple c1 c2 <> Gt -> compositeLe c1 c2.
Proof.
  induction 1 as [|x y c1 c2 Hk Hrest IH]; simpl; intros Hc.
  - constructor.
  - pose proof (compareAscending_keyLt x y Hk) as Hxy.
    destruct (compareAscending x y).
    + subst y. apply compositeLe_eq. now apply IH.
    + now apply compositeLe_lt.
    + now contradiction Hc.
Qed.

Lemma leafKey_sameKind (f1 f2 : FileData) :
  sortable f1 = true -> sortable f2 = true ->
  Forall2 (fun x y => sameKind x y = true) (leafKey f1) (leafKey f2).
Proof.
  unfold sortable, leafKey. intros H1 H2.
  apply andb_prop in H1 as [H1 Ht1]. apply andb_prop in H1 as [Hc1 Hi1].
  apply andb_prop in H2 as [H2 Ht2]. apply andb_prop in H2 as [Hc2 Hi2].
  repeat constructor; unfold sameKind.
  - now rewrite Hc1, Hc2.
  - now rewrite Hi1, Hi2.
  - unfold recordPath. destruct (file f1), (file f2); reflexivity.
  - rewrite Ht1, Ht2. simpl. apply orb_true_r.
Qed.

(** The criteria of [sortAlbumFiles] are the composite key. *)
Lemma albumCriteria_leafKey (e : string * FileData) :
  albumCriteria e = leafKey (snd e).
Proof.
  destruct e as [k f].
  unfold albumCriteria, leafKey, containerIndex, itemIndex, displayTitle,
    recordPath, fileValue, tagsValue, tagOf, positionNumber. simpl.
  destruct (tags f) as [t|]; [|reflexivity]. simpl. unfold prop.
  assert (Hno : forall v, field v "no" = positionNumber v).
  { intros [| |b|n|s|l|o|m]; reflexivity. }
  unfold positionNumber in Hno.
  change (inherited "disk") with false. change (inherited "track") with false.
  change (inherited "title") with false.
  rewrite !Hno.
  now destruct (obj_get "disk" t), (obj_get "track" t), (obj_get "title" t).
Qed.

Lemma memberLe_trans : Transitive memberLe.
Proof. intros a b c. unfold memberLe. apply compositeLe_trans. Qed.

Lemma StronglySorted_weaken (A : Type) (R R' : A -> A -> Prop) (l : list A) :
  (forall x y, In x l -> In y l -> R x y -> R' x y) ->
  StronglySorted R l -> StronglySorted R' l.
Proof.
  intros Himp Hs. induction Hs as [|x l Hs IH Hall]; constructor.
  - apply IH. intros a b Ha Hb. apply Himp; now right.
  - rewrite Forall_forall in *. intros y Hy. apply Himp;
      [now left|now right|now apply Hall].
Qed.

Lemma Sorted_weaken (A : Type) (R R' : A -> A -> Prop) (l : list A) :
  (forall x y, In x l -> In y l -> R x y -> R' x y) ->
  Sorted R l -> Sorted R' l.
Proof.
  intros Himp Hs. induction Hs as [|x l Hs IH Hhd]; constructor.
  - apply IH. intros a b Ha Hb. apply Himp; now right.
  - destruct Hhd as [|y l Hxy]; constructor.
    apply Himp; [now left|right; now left|exact Hxy].
Qed.

(** The files of an album come out in ascending order of the composite
    key, and as the same entries. *)
Lemma sortAlbumFiles_ordered (dataFiles : obj FileData) :
  NoDup (keys dataFiles) ->
  (forall k f, In (k, f) dataFiles -> isPath k = true /\ sortable f = true) ->
  StronglySorted memberLe (sortAlbumFiles dataFiles)
  /\ Permutation (sortAlbumFiles dataFiles) dataFiles.
Proof.
  intros Hnd Hok. unfold sortAlbumFiles, entries.
  pose proof (orderBy_perm albumCriteria dataFiles) as Hperm.
  rewrite fromEntries_plain.
  - split; [|exact Hperm].
    apply Sorted_StronglySorted; [exact memberLe_trans|].
    eapply Sorted_weaken; [|apply orderBy_sorted].
    intros [k1 f1] [k2 f2] H1 H2 Hc. unfold memberLe. simpl.
    unfold notAfter in Hc. rewrite !albumCriteria_leafKey in Hc.
    simpl in Hc.
    apply compareMultiple_compositeLe; [|exact Hc].
    apply leafKey_sameKind.
    + apply (Hok k1). eapply Permutation_in; eassumption.
    + apply (Hok k2). eapply Permutation_in; eassumption.
  - eapply Permutation_NoDup; [|exact Hnd].
    unfold keys. apply Permutation_map. now symmetry.
  - intros k Hk. unfold keys in Hk. apply in_map_iff in Hk as [[k' f] [<- Hin]].
    simpl. destruct (Hok k' f) as [Hp _].
    { eapply Permutation_in; eassumption. }
    unfold isPath in Hp. apply andb_prop in Hp as [_ Hp].
    unfold is_array_index in Hp. now destruct (array_index k').
Qed.

(* ================================================================== *)
(** * Taxonomy builder *)
(* ================================================================== *)

Lemma forEntries_In (A B : Type) (f : string -> A -> result B) (o : obj A)
  (r : obj B) :
  forEntries f o = Ok r ->
  forall k b, In (k, b) r -> exists a, In (k, a) o /\ f k a = Ok b.
Proof.
  revert r. induction o as [|[k0 a0] o IH]; simpl; intros r H k b Hin.
  - injection H as <-. destruct Hin.
  - destruct (f k0 a0) as [b0|e] eqn:Hf; simpl in H; [|discriminate].
    destruct (forEntries f o) as [rest|e] eqn:Hrest; simpl in H;
      [|discriminate].
    injection H as <-. destruct Hin as [E|Hin].
    + injection E as <- <-. exists a0. split; [now left|exact Hf].
    + destruct (IH rest eq_refl k b Hin) as [a [Ha Hfa]].
      exists a. split; [now right|exact Hfa].
Qed.

Lemma groupStep_groupsFrom (src : list (string * FileData)) (taxKey : string)
  (items items' : obj Group) (e : string * FileData) :
  groupsFrom src items -> In e src ->
  groupStep taxKey items e = Ok items' -> groupsFrom src items'.
Proof.
  intros Hinv He. destruct e as [key f]. unfold groupStep.
  set (name := toString (getTaxonomyValue (attributes f) taxKey)).
  destruct (obj_get name items) as [g|] eqn:Hget.
  - intros [= <-] name' g' Hin.
    apply obj_set_In in Hin as [E|Hin]; [|exact (Hinv name' g' Hin)].
    injection E as -> ->. simpl.
    destruct (Hinv name g (obj_get_In _ _ Hget)) as [Hnd [_ Hsrc]].
    split; [now apply obj_set_NoDup|]. split; [apply obj_set_not_nil|].
    intros e Hin. apply obj_set_In in Hin as [->|Hin]; [exact He|now apply Hsrc].
  - destruct (inherited name); [discriminate|].
    intros [= <-] name' g' Hin.
    apply obj_set_In in Hin as [E|Hin]; [|exact (Hinv name' g' Hin)].
    injection E as -> ->. simpl.
    split; [apply obj_set_NoDup; constructor|].
    split; [apply obj_set_not_nil|].
    intros e Hin. apply obj_set_In in Hin as [->|[]]. exact He.
Qed.

Lemma groupFiles_groupsFrom (src : list (string * FileData)) (taxKey : string)
  (es : list (string * FileData)) (items items' : obj Group) :
  groupsFrom src items -> (forall e, In e es -> In e src) ->
  groupFiles taxKey items es = Ok items' -> groupsFrom src items'.
Proof.
  revert items. induction es as [|e es IH]; simpl; intros items Hinv Hes H.
  - now injection H as <-.
  - destruct (groupStep taxKey items e) as [items1|err] eqn:Hstep; simpl in H;
      [|discriminate].
    apply (IH items1); [|intros e' He'; apply Hes; now right|exact H].
    eapply groupStep_groupsFrom; [exact Hinv| |exact Hstep].
    apply Hes. now left.
Qed.

Lemma inTree_incl (n : TaxNode) (l l' : list (string * TaxNode)) :
  (forall e, In e l -> In e l') -> inTree n l -> inTree n l'.
Proof.
  intros Hincl H. destruct H as [k items Hin|k key d b sub items Hin Hsub].
  - eapply inTree_here. apply Hincl. exact Hin.
  - eapply inTree_below; [apply Hincl; exact Hin|exact Hsub].
Qed.

Lemma sortTaxonomyItems_In (V : Type) (o : obj V) (e : string * V) :
  In e (sortTaxonomyItems o) -> In e o.
Proof.
  intros H. unfold sortTaxonomyItems, entries in H.
  apply fromEntries_In in H. now apply orderBy_In in H.
Qed.

Lemma attributes_get (f : FileData) (name : string) :
  distinctNames f -> obj_get name (attributes f) = attributeOf f name.
Proof.
  unfold distinctNames, attributes, attributeOf, spread, entries.
  intros [Ht Hc].
  destruct (tags f) as [t|], (category f) as [c|]; simpl;
    rewrite ?fold_set_get by assumption; simpl.
  - now destruct (obj_get name c), (obj_get name t).
  - now destruct (obj_get name t).
  - now destruct (obj_get name c).
  - reflexivity.
Qed.

Lemma endNode_members (g : Group) :
  NoDup (keys (g_items g)) -> g_items g <> [] ->
  (forall k f, In (k, f) (g_items g) ->
               isPath k = true /\ sortable f = true /\ distinctNames f) ->
  exists members tg,
    endNode g = EndNode (g_key g) (g_data g) (g_isNullCollection g) members tg
    /\ StronglySorted memberLe members
    /\ Permutation members (g_items g)
    /\ exists first rest representative,
         members = first :: rest
         /\ tg = Some representative
         /\ representative = omit (attributes (snd first)) itemFields
         /\ forall name,
              obj_get name representative
              = if existsb (String.eqb name) itemFields then None
                else attributeOf (snd first) name.
Proof.
  intros Hnd Hne Hok.
  assert (Hok' : forall k f, In (k, f) (g_items g) ->
                             isPath k = true /\ sortable f = true).
  { intros k f Hin. destruct (Hok k f Hin) as [H1 [H2 _]]. now split. }
  destruct (sortAlbumFiles_ordered (g_items g) Hnd Hok') as [Hsorted Hperm].
  unfold endNode. exists (sortAlbumFiles (g_items g)).
  exists (endNodeTags (sortAlbumFiles (g_items g))).
  split; [reflexivity|]. split; [exact Hsorted|]. split; [exact Hperm|].
  destruct (sortAlbumFiles (g_items g)) as [|[k f] rest] eqn:Hs.
  - apply Permutation_nil in Hperm. contradiction.
  - exists (k, f), rest, (omit (attributes f) itemFields).
    split; [reflexivity|].
    destruct (Hok k f) as [Hp [_ Hdistinct]].
    { eapply Permutation_in; [exact Hperm|now left]. }
    split; [|split; [reflexivity|]].
    + unfold endNodeTags. simpl.
      unfold isPath in Hp. apply andb_prop in Hp as [Hp _].
      destruct (k =? "") eqn:Hk; [discriminate|].
      now rewrite String.eqb_refl.
    + intros name. simpl. rewrite omit_get.
      now rewrite attributes_get.
Qed.

(** C5. In every end node the builder produces, at any depth, the members
    stand in ascending order of the composite key (container index, item
    index, path, display title), they are entries of the record set, and
    the tags of the node are the attributes of the first member in that
    order without title, track and disk: under every other name what
    that one member has under it. The keys of the record set are file
    paths, the indices and titles of the records are numbers and strings
    where present, and their tags name every property once. *)
Theorem leaf_members_ordered_and_represented :
  forall (remainingTaxKeys : list string) (dataFiles : obj FileData)
         (taxKey : string) (tree : obj TaxNode),
    (forall k f, In (k, f) dataFiles ->
                 isPath k = true /\ sortable f = true /\ distinctNames f) ->
    collectMediaLibraryTaxonomy dataFiles taxKey remainingTaxKeys = Ok tree ->
    forall key d b members tg,
      inTree (EndNode key d b members tg) tree ->
      StronglySorted memberLe members
      /\ (forall e, In e members -> In e dataFiles)
      /\ exists first rest representative,
           members = first :: rest
           /\ tg = Some representative
           /\ representative = omit (attributes (snd first)) itemFields
           /\ forall name,
                obj_get name representative
                = if existsb (String.eqb name) itemFields then None
                  else attributeOf (snd first) name.
Proof.
  induction remainingTaxKeys as [|next rest IH];
    intros dataFiles taxKey tree Hok Hrun key d b members tg Hin.
  - simpl in Hrun.
    destruct (groupFiles taxKey [] (entries dataFiles)) as [items|err] eqn:Hg;
      simpl in Hrun; [|discriminate].
    assert (Hinv : groupsFrom dataFiles items).
    { eapply groupFiles_groupsFrom; [|intros e He; exact He|exact Hg].
      intros name g []. }
    destruct Hin as [k items0 Hin|k key' d' b' sub items0 Hin _].
    + destruct (forEntries_In _ _ Hrun _ _ Hin) as [g [Hgin Hend]].
      destruct (Hinv k g Hgin) as [Hnd [Hne Hsrc]].
      destruct (@endNode_members g Hnd Hne) as
        [members' [tg' [Heq [Hsorted [Hperm Hfirst]]]]].
      { intros k' f' Hk'. apply Hok. now apply Hsrc. }
      rewrite Heq in Hend. injection Hend as <- <- <- <- <-.
      split; [exact Hsorted|]. split; [|exact Hfirst].
      intros e He. apply Hsrc. eapply Permutation_in; eassumption.
    + destruct (forEntries_In _ _ Hrun _ _ Hin) as [g [_ Hend]].
      discriminate.
  - simpl in Hrun.
    destruct (groupFiles taxKey [] (entries dataFiles)) as [items|err] eqn:Hg;
      simpl in Hrun; [|discriminate].
    assert (Hinv : groupsFrom dataFiles items).
    { eapply groupFiles_groupsFrom; [|intros e He; exact He|exact Hg].
      intros name g []. }
    destruct Hin as [k items0 Hin|k key' d' b' sub items0 Hin Hsub].
    + destruct (forEntries_In _ _ Hrun _ _ Hin) as [g [_ Hbr]].
      destruct (collectMediaLibraryTaxonomy (g_items g) next rest);
        discriminate.
    + destruct (forEntries_In _ _ Hrun _ _ Hin) as [g [Hgin Hbr]].
      destruct (collectMediaLibraryTaxonomy (g_items g) next rest)
        as [sub0|err] eqn:Hsub0; simpl in Hbr; [|discriminate].
      injection Hbr as <- <- <- <-.
      destruct (Hinv k g Hgin) as [_ [_ Hsrc]].
      assert (Hsub' : inTree (EndNode key d b members tg) sub0).
      { eapply inTree_incl; [|exact Hsub].
        intros e. apply sortTaxonomyItems_In. }
      assert (Hok' : forall k' f', In (k', f') (g_items g) ->
                       isPath k' = true /\ sortable f' = true
                       /\ distinctNames f').
      { intros k' f' Hk'. apply Hok. now apply Hsrc. }
      destruct (IH (g_items g) next sub0 Hok' Hsub0 key d b members tg Hsub')
        as [Hsorted [Hmem Hfirst]].
      split; [exact Hsorted|]. split; [|exact Hfirst].
      intros e He. apply Hsrc. now apply Hmem.
Qed.

Lemma leaf_members_ordered_witness :
  StronglySorted memberLe leafExampleMembers
  /\ (forall e, In e leafExampleMembers -> In e leafExample)
  /\ exists first rest representative,
       leafExampleMembers = first :: rest
       /\ Some [("artist", VStr "X"); ("album", VStr "Y")]
          = Some representative
       /\ representative = omit (attributes (snd first)) itemFields
       /\ forall name,
            obj_get name representative
            = if existsb (String.eqb name) itemFields then None
              else attributeOf (snd first) name.
Proof.
  refine (@leaf_members_ordered_and_represented [] leafExample "album"
            [("Y", EndNode "album" (VStr "Y") false leafExampleMembers
                     (Some [("artist", VStr "X"); ("album", VStr "Y")]))]
            _ _ "album" (VStr "Y") false leafExampleMembers
            (Some [("artist", VStr "X"); ("album", VStr "Y")]) _).
  - intros k f Hin. simpl in Hin.
    destruct Hin as [E|[E|[E|[E|[E|[E|[]]]]]]]; injection E as <- <-;
      (split; [reflexivity|]); (split; [reflexivity|]);
      (split; repeat constructor; simpl; intuition discriminate).
  - reflexivity.
  - apply inTree_here with (k := "Y"). left. reflexivity.
Defined.

(* ================================================================== *)
(** * Nested levels *)
(* ================================================================== *)

Lemma obj_insert_index_perm (V : Type) (n : N) (k : string) (v : V)
  (o : obj V) :
  Permutation (obj_insert_index n k v o) ((k, v) :: o).
Proof.
  induction o as [|[k' v'] o IH]; simpl; [reflexivity|].
  destruct (array_index k') as [n'|]; [destruct (n <? n')%N|]; simpl;
    try reflexivity.
  rewrite IH. apply perm_swap.
Qed.

Lemma obj_set_fresh_perm (V : Type) (k : string) (v : V) (o : obj V) :
  ~ In k (keys o) -> Permutation (obj_set k v o) (o ++ [(k, v)]).
Proof.
  intros Hnot. apply obj_get_None_keys in Hnot.
  unfold obj_set, obj_has. rewrite Hnot.
  destruct (array_index k).
  - rewrite obj_insert_index_perm. apply Permutation_cons_append.
  - reflexivity.
Qed.

Lemma fold_set_perm (V : Type) (l : list (string * V)) (o : obj V) :
  NoDup (keys o ++ keys l) ->
  Permutation (fold_left (fun o kv => obj_set (fst kv) (snd kv) o) l o)
              (o ++ l).
Proof.
  revert o. induction l as [|[k v] l IH]; simpl; intros o Hnd.
  - now rewrite app_nil_r.
  - assert (Hnot : ~ In k (keys o)).
    { apply NoDup_remove_2 in Hnd. intros I. apply Hnd.
      apply in_or_app. now left. }
    pose proof (@obj_set_fresh_perm V k v o Hnot) as Hp.
    rewrite IH.
    + rewrite Hp, <- app_assoc. reflexivity.
    + eapply Permutation_NoDup; [|exact Hnd].
      unfold keys. apply Permutation_map with (f := fst) in Hp.
      rewrite map_app in Hp. simpl in Hp.
      rewrite Hp, <- app_assoc. simpl. reflexivity.
Qed.

(** An object rebuilt from entries with distinct keys holds the same
    entries. *)
Lemma fromEntries_perm (V : Type) (l : list (string * V)) :
  NoDup (keys l) -> Permutation (fromEntries l) l.
Proof. intros H. unfold fromEntries. now rewrite fold_set_perm. Qed.

Lemma forEntries_keys (A B : Type) (f : string -> A -> result B) (o : obj A)
  (r : obj B) :
  forEntries f o = Ok r -> keys r = keys o.
Proof.
  revert r. induction o as [|[k a] o IH]; simpl; intros r H.
  - now injection H as <-.
  - destruct (f k a) as [b|e]; simpl in H; [|discriminate].
    destruct (forEntries f o) as [rest|e]; simpl in H; [|discriminate].
    injection H as <-. simpl. now rewrite (IH rest eq_refl).
Qed.

Lemma groupFiles_NoDup (taxKey : string) (es : list (string * FileData))
  (items items' : obj Group) :
  NoDup (keys items) -> groupFiles taxKey items es = Ok items' ->
  NoDup (keys items').
Proof.
  revert items. induction es as [|e0 es IH]; simpl; intros items Hnd H.
  - now injection H as <-.
  - destruct (groupStep taxKey items e0) as [items1|e] eqn:Hstep;
      simpl in H; [|discriminate].
    apply (IH items1); [|exact H].
    destruct e0 as [key f]. unfold groupStep in Hstep.
    destruct (obj_get (toString (getTaxonomyValue (attributes f) taxKey))
                items).
    + injection Hstep as <-. now apply obj_set_NoDup.
    + destruct (inherited (toString (getTaxonomyValue (attributes f) taxKey)));
        [discriminate|].
      injection Hstep as <-. now apply obj_set_NoDup.
Qed.

Lemma collect_NoDup (remainingTaxKeys : list string)
  (dataFiles : obj FileData) (taxKey : string) (tree : obj TaxNode) :
  collectMediaLibraryTaxonomy dataFiles taxKey remainingTaxKeys = Ok tree ->
  NoDup (keys tree).
Proof.
  intros H.
  assert (G : exists items,
             groupFiles taxKey [] (entries dataFiles) = Ok items
             /\ keys tree = keys items).
  { destruct remainingTaxKeys as [|next rest]; simpl in H;
      destruct (groupFiles taxKey [] (entries dataFiles)) as [items|e];
      simpl in H; try discriminate;
      exists items; (split; [reflexivity|]);
      eapply forEntries_keys; exact H. }
  destruct G as [items [Hg ->]].
  eapply groupFiles_NoDup; [|exact Hg]. constructor.
Qed.

(** Items sorted by [sortTaxonomyItems] whose keys are no array indices
    are in ascending order of their keys. *)
Lemma sortTaxonomyItems_sorted (V : Type) (o : obj V) :
  NoDup (keys o) ->
  (forall k, In k (keys (sortTaxonomyItems o)) -> array_index k = None) ->
  StronglySorted (@keyBefore V) (sortTaxonomyItems o).
Proof.
  intros Hnd Hidx. unfold sortTaxonomyItems, entries in *.
  pose proof (orderBy_perm (@keyCriteria V) o) as Hperm.
  assert (Hnd' : NoDup (keys (orderBy (@keyCriteria V) o))).
  { eapply Permutation_NoDup; [|exact Hnd].
    unfold keys. apply Permutation_map. now symmetry. }
  assert (Hplain : fromEntries (orderBy (@keyCriteria V) o)
                   = orderBy (@keyCriteria V) o).
  { apply fromEntries_plain; [exact Hnd'|].
    intros k Hk. apply Hidx.
    eapply Permutation_in; [|exact Hk].
    unfold keys. apply Permutation_map. symmetry.
    now apply fromEntries_perm. }
  rewrite Hplain. clear Hplain Hidx.
  apply Sorted_StronglySorted.
  - intros a b c. unfold keyBefore. apply string_compare_lt_trans.
  - assert (Hs : Sorted (notAfter (@keyCriteria V))
                   (orderBy (@keyCriteria V) o)) by apply orderBy_sorted.
    revert Hnd' Hs. generalize (orderBy (@keyCriteria V) o) as l.
    induction l as [|[k v] l IH]; intros Hnd' Hs; constructor.
    + apply IH; [now inversion Hnd'|now inversion Hs].
    + inversion Hs as [|? ? _ Hhd]; subst.
      destruct Hhd as [|[k' v'] l Hrel]; constructor.
      unfold notAfter, keyCriteria, keyBefore in *. simpl in *.
      destruct (String.compare k k') eqn:Hc; [|reflexivity|].
      * apply String.compare_eq_iff in Hc. subst k'.
        inversion Hnd' as [|? ? Hnot _]; subst.
        exfalso. apply Hnot. now left.
      * exfalso. apply Hrel. reflexivity.
Qed.

(** X1. Below the root level the builder returns every level sorted: the
    items of every branch, at any depth, are in ascending order of their
    keys, when no key of that level is an array index. *)
Lemma nested_levels_sorted :
  forall (remainingTaxKeys : list string) (dataFiles : obj FileData)
         (taxKey : string) (tree : obj TaxNode),
    collectMediaLibraryTaxonomy dataFiles taxKey remainingTaxKeys = Ok tree ->
    forall key d b sub,
      inTree (Branch key d b sub) tree ->
      (forall k, In k (keys sub) -> array_index k = None) ->
      StronglySorted (@keyBefore TaxNode) sub.
Proof.
  induction remainingTaxKeys as [|next rest IH];
    intros dataFiles taxKey tree Hrun key d b sub Hin Hidx.
  - simpl in Hrun.
    destruct (groupFiles taxKey [] (entries dataFiles)) as [items|err];
      simpl in Hrun; [|discriminate].
    destruct Hin as [k items0 Hin|k key' d' b' sub' items0 Hin _];
      destruct (forEntries_In _ _ Hrun _ _ Hin) as [g [_ Hend]];
      discriminate.
  - simpl in Hrun.
    destruct (groupFiles taxKey [] (entries dataFiles)) as [items|err];
      simpl in Hrun; [|discriminate].
    destruct Hin as [k items0 Hin|k key' d' b' sub' items0 Hin Hsub].
    + destruct (forEntries_In _ _ Hrun _ _ Hin) as [g [_ Hbr]].
      destruct (collectMediaLibraryTaxonomy (g_items g) next rest)
        as [sub0|err] eqn:Hsub0; simpl in Hbr; [|discriminate].
      injection Hbr as <- <- <- <-.
      apply sortTaxonomyItems_sorted; [|exact Hidx].
      eapply collect_NoDup; exact Hsub0.
    + destruct (forEntries_In _ _ Hrun _ _ Hin) as [g [_ Hbr]].
      destruct (collectMediaLibraryTaxonomy (g_items g) next rest)
        as [sub0|err] eqn:Hsub0; simpl in Hbr; [|discriminate].
      injection Hbr as <- <- <- <-.
      eapply (IH (g_items g) next sub0 Hsub0); [|exact Hidx].
      eapply inTree_incl; [|exact Hsub].
      intros e. apply sortTaxonomyItems_In.
Qed.

Lemma nested_levels_sorted_witness :
  StronglySorted (@keyBefore TaxNode) rootExampleAlbums.
Proof.
  refine (@nested_levels_sorted ["album"] rootExample "artist"
            rootExampleTree _ "artist" (VStr "b") false rootExampleAlbums
            _ _).
  - reflexivity.
  - apply inTree_here with (k := "b"). left. reflexivity.
  - intros k [<-|[<-|[]]]; reflexivity.
Defined.

(* ================================================================== *)
(** * What the builder keeps of a record set *)
(* ================================================================== *)

Lemma leaves_branch (k : string) (d : value) (b : bool)
  (items : list (string * TaxNode)) :
  leaves (Branch k d b items) = leavesOf items.
Proof.
  simpl. induction items as [|[k' t] items IH]; simpl;
    [reflexivity|now rewrite IH].
Qed.

Lemma leavesOf_flat_map (items : list (string * TaxNode)) :
  leavesOf items = flat_map (fun e => leaves (snd e)) items.
Proof.
  induction items as [|[k t] items IH]; simpl; [reflexivity|now rewrite IH].
Qed.

Lemma leavesOf_perm (items items' : list (string * TaxNode)) :
  Permutation items items' -> Permutation (leavesOf items) (leavesOf items').
Proof.
  intros H. rewrite !leavesOf_flat_map. now apply Permutation_flat_map.
Qed.

Lemma keys_perm (V : Type) (l l' : list (string * V)) :
  Permutation l l' -> Permutation (keys l) (keys l').
Proof. intros H. unfold keys. now apply Permutation_map. Qed.

Lemma obj_set_nil (V : Type) (k : string) (v : V) : obj_set k v [] = [(k, v)].
Proof. unfold obj_set. simpl. now destruct (array_index k). Qed.

Lemma obj_set_perm_fresh (V : Type) (k : string) (v : V) (o : obj V) :
  ~ In k (keys o) -> Permutation (obj_set k v o) ((k, v) :: o).
Proof.
  intros H. rewrite (@obj_set_fresh_perm V k v o H). symmetry.
  apply Permutation_cons_append.
Qed.

Lemma sortAlbumFiles_perm (o : obj FileData) :
  NoDup (keys o) -> Permutation (sortAlbumFiles o) o.
Proof.
  intros Hnd. unfold sortAlbumFiles, entries.
  pose proof (orderBy_perm albumCriteria o) as Hp.
  rewrite fromEntries_perm; [exact Hp|].
  eapply Permutation_NoDup; [|exact Hnd]. apply keys_perm. now symmetry.
Qed.

Lemma sortTaxonomyItems_perm (V : Type) (o : obj V) :
  NoDup (keys o) -> Permutation (sortTaxonomyItems o) o.
Proof.
  intros Hnd. unfold sortTaxonomyItems, entries.
  pose proof (orderBy_perm (@keyCriteria V) o) as Hp.
  rewrite fromEntries_perm; [exact Hp|].
  eapply Permutation_NoDup; [|exact Hnd]. apply keys_perm. now symmetry.
Qed.

Lemma groupedEntries_In (items : obj Group) (name : string) (g : Group)
  (e : string * FileData) :
  In (name, g) items -> In e (g_items g) -> In e (groupedEntries items).
Proof.
  intros Hg He. unfold groupedEntries. apply in_flat_map.
  exists (name, g). split; [exact Hg|exact He].
Qed.

Lemma groupedEntries_replace (items : obj Group) (name : string)
  (g g' : Group) (x : string * FileData) :
  obj_get name items = Some g ->
  Permutation (g_items g') (x :: g_items g) ->
  Permutation (groupedEntries (obj_replace name g' items))
              (x :: groupedEntries items).
Proof.
  intros Hget Hp. induction items as [|[k v] items IH]; simpl in *;
    [discriminate|].
  destruct (String.eqb_spec k name) as [->|Hne].
  - injection Hget as ->. simpl. rewrite Hp. reflexivity.
  - simpl. rewrite (IH Hget). symmetry. apply Permutation_middle.
Qed.

(** One turn of the grouping loop files the entry in one group and leaves
    the others as they were. *)
Lemma groupStep_perm (taxKey : string) (items items' : obj Group)
  (k : string) (f : FileData) :
  ~ In k (keys (groupedEntries items)) ->
  groupStep taxKey items (k, f) = Ok items' ->
  Permutation (groupedEntries items') ((k, f) :: groupedEntries items).
Proof.
  intros Hfresh. unfold groupStep.
  set (name := toString (getTaxonomyValue (attributes f) taxKey)).
  destruct (obj_get name items) as [g|] eqn:Hget.
  - intros [= <-]. unfold obj_set, obj_has. rewrite Hget.
    apply groupedEntries_replace with (g := g); [exact Hget|]. simpl.
    apply obj_set_perm_fresh. intros Hin. apply Hfresh.
    unfold keys in *. apply in_map_iff in Hin. destruct Hin as [e [<- He]].
    apply in_map. eapply groupedEntries_In; [|exact He].
    eapply obj_get_In. exact Hget.
  - destruct (inherited name); [discriminate|]. intros [= <-].
    assert (Hnot : ~ In name (keys items)) by now apply obj_get_None_keys.
    unfold groupedEntries.
    rewrite (Permutation_flat_map _ (@obj_set_perm_fresh Group name _ items Hnot)).
    simpl. rewrite obj_set_nil. reflexivity.
Qed.

Lemma groupFiles_perm (taxKey : string) (es : list (string * FileData)) :
  forall items items',
    NoDup (keys es ++ keys (groupedEntries items)) ->
    groupFiles taxKey items es = Ok items' ->
    Permutation (groupedEntries items') (es ++ groupedEntries items).
Proof.
  induction es as [|e0 es IH]; simpl; intros items items' Hnd H.
  - injection H as <-. reflexivity.
  - destruct (groupStep taxKey items e0) as [items1|e] eqn:Hstep;
      simpl in H; [|discriminate].
    destruct e0 as [k f]. simpl in Hnd.
    inversion Hnd as [|? ? Hnot Hnd']; subst.
    assert (Hp : Permutation (groupedEntries items1)
                   ((k, f) :: groupedEntries items)).
    { eapply groupStep_perm; [|exact Hstep].
      intros Hin. apply Hnot. apply in_or_app. now right. }
    rewrite (IH items1 items'); [| |exact H].
    + rewrite Hp. symmetry. apply Permutation_middle.
    + eapply Permutation_NoDup; [|exact Hnd].
      change (k :: keys es ++ keys (groupedEntries items))
        with ((k :: keys es) ++ keys (groupedEntries items)).
      rewrite (keys_perm Hp). simpl.
      apply Permutation_middle.
Qed.

Lemma forEntries_leaves (f : string -> Group -> result TaxNode)
  (items : obj Group) (tree : obj TaxNode) :
  forEntries f items = Ok tree ->
  (forall k g n, In (k, g) items -> f k g = Ok n ->
                 Permutation (leaves n) (g_items g)) ->
  Permutation (leavesOf tree) (groupedEntries items).
Proof.
  revert tree. induction items as [|[k g] items IH]; simpl; intros tree H Hf.
  - injection H as <-. reflexivity.
  - destruct (f k g) as [n|e] eqn:Hn; simpl in H; [|discriminate].
    destruct (forEntries f items) as [rest|e]; simpl in H; [|discriminate].
    injection H as <-. simpl. apply Permutation_app.
    + apply (Hf k g n); [now left|exact Hn].
    + apply IH; [reflexivity|].
      intros k' g' n' Hin. apply Hf. now right.
Qed.

Lemma groupsFrom_nil (src : list (string * FileData)) : groupsFrom src [].
Proof. intros name g []. Qed.

(** The tree the builder returns holds every entry of the record set it
    was given, once. *)
Lemma collect_leaves_perm :
  forall (remainingTaxKeys : list string) (dataFiles : obj FileData)
         (taxKey : string) (tree : obj TaxNode),
    NoDup (keys dataFiles) ->
    collectMediaLibraryTaxonomy dataFiles taxKey remainingTaxKeys = Ok tree ->
    Permutation (leavesOf tree) dataFiles.
Proof.
  induction remainingTaxKeys as [|next rest IH];
    intros dataFiles taxKey tree Hnd Hrun; simpl in Hrun;
    destruct (groupFiles taxKey [] (entries dataFiles)) as [items|err]
      eqn:Hgroup; simpl in Hrun; try discriminate;
    pose proof (@groupFiles_groupsFrom (entries dataFiles) taxKey
                  (entries dataFiles) [] items
                  (groupsFrom_nil _) (fun e H => H) Hgroup) as Hfrom;
    assert (Hp : Permutation (groupedEntries items) dataFiles)
      by (pose proof (@groupFiles_perm taxKey (entries dataFiles) [] items)
            as Hp0; simpl in Hp0; rewrite !app_nil_r in Hp0;
          exact (Hp0 Hnd Hgroup));
    rewrite <- Hp; eapply forEntries_leaves; try exact Hrun;
    intros k g n Hin Hn; destruct (Hfrom k g Hin) as [Hndg _].
  - injection Hn as <-. unfold endNode. simpl.
    now apply sortAlbumFiles_perm.
  - cbv beta in Hn.
    destruct (collectMediaLibraryTaxonomy (g_items g) next rest)
      as [sub|err] eqn:Hsub; simpl in Hn; [|discriminate].
    injection Hn as <-. rewrite leaves_branch.
    rewrite (leavesOf_perm (@sortTaxonomyItems_perm TaxNode sub (collect_NoDup _ _ _ Hsub))).
    now apply (IH (g_items g) next sub).
Qed.

Lemma filter_keys_NoDup (V : Type) (p : string * V -> bool) (o : obj V) :
  NoDup (keys o) -> NoDup (keys (filter p o)).
Proof.
  induction o as [|[k v] o IH]; simpl; intros H; [constructor|].
  inversion H as [|? ? Hnot Hnd]; subst.
  destruct (p (k, v)); [|now apply IH]. simpl. constructor; [|now apply IH].
  intros Hin. apply Hnot. unfold keys in *. apply in_map_iff in Hin.
  destruct Hin as [e [<- He]]. apply in_map. apply filter_In in He. tauto.
Qed.

Lemma getCategoryFiles_perm (cat : Category) (d : obj FileData) :
  NoDup (keys d) -> Permutation (getCategoryFiles cat d) (filter (inCategory cat) d).
Proof.
  intros Hnd. unfold getCategoryFiles, entries.
  apply fromEntries_perm. now apply filter_keys_NoDup.
Qed.

(** X5. The tree built for a primary category holds exactly the records
    of the record set whose [meta.category] is the category's code, each
    of them once, whatever the taxonomy keys: the builder loses no file
    and files none twice. *)
Theorem primary_tree_holds_category_records (cat : Category)
  (d : obj FileData) (taxKey : string) (remainingTaxKeys : list string)
  (tree : obj TaxNode) :
  NoDup (keys d) ->
  collectMediaLibraryTaxonomy (getCategoryFiles cat d) taxKey remainingTaxKeys
  = Ok tree ->
  Permutation (leavesOf tree) (filter (inCategory cat) d).
Proof.
  intros Hnd Hrun.
  rewrite <- (@getCategoryFiles_perm cat d Hnd).
  eapply collect_leaves_perm; [|exact Hrun].
  unfold getCategoryFiles. apply fromEntries_NoDup.
Qed.

Lemma primary_tree_holds_witness :
  Permutation (leavesOf rootExampleTree) (filter (inCategory musicCategory) rootExample).
Proof.
  apply (@primary_tree_holds_category_records musicCategory rootExample
           "artist" ["album"] rootExampleTree).
  - repeat constructor; simpl; intuition discriminate.
  - reflexivity.
Defined.

(* ================================================================== *)
(** * When the builder returns, and where it files a record *)
(* ================================================================== *)

Lemma obj_set_keys_In (V : Type) (k n : string) (v : V) (o : obj V) :
  In n (keys (obj_set k v o)) -> n = k \/ In n (keys o).
Proof.
  unfold keys. intros H. apply in_map_iff in H. destruct H as [e [<- He]].
  apply obj_set_In in He. destruct He as [->|He]; [now left|].
  right. now apply in_map.
Qed.

Lemma groupStep_returns (taxKey : string) (items : obj Group)
  (e : string * FileData) :
  inherited (groupName taxKey (snd e)) = false ->
  exists items', groupStep taxKey items e = Ok items'.
Proof.
  destruct e as [k f]. unfold groupStep, groupName. simpl. intros H.
  destruct (obj_get _ items); [eexists; reflexivity|].
  rewrite H. eexists. reflexivity.
Qed.

Lemma groupFiles_returns (taxKey : string) (es : list (string * FileData)) :
  forall items,
    (forall e, In e es -> inherited (groupName taxKey (snd e)) = false) ->
    exists items', groupFiles taxKey items es = Ok items'.
Proof.
  induction es as [|e0 es IH]; simpl; intros items H.
  - eexists. reflexivity.
  - destruct (@groupStep_returns taxKey items e0 (H e0 (or_introl eq_refl)))
      as [items1 ->]. simpl. apply IH. intros e He. apply H. now right.
Qed.

Lemma forEntries_returns (A B : Type) (f : string -> A -> result B)
  (o : obj A) :
  (forall k a, In (k, a) o -> exists b, f k a = Ok b) ->
  exists r, forEntries f o = Ok r.
Proof.
  induction o as [|[k a] o IH]; simpl; intros H.
  - eexists. reflexivity.
  - destruct (H k a (or_introl eq_refl)) as [b ->]. simpl.
    destruct IH as [r ->]; [intros k' a' Hin; apply H; now right|].
    simpl. eexists. reflexivity.
Qed.

Lemma forEntries_each (A B : Type) (f : string -> A -> result B) (o : obj A)
  (r : obj B) :
  forEntries f o = Ok r ->
  forall k a, In (k, a) o -> exists b, f k a = Ok b.
Proof.
  revert r. induction o as [|[k0 a0] o IH]; simpl; intros r H k a Hin;
    [destruct Hin|].
  destruct (f k0 a0) as [b0|e] eqn:Hf; simpl in H; [|discriminate].
  destruct (forEntries f o) as [rest|e] eqn:Hrest; simpl in H;
    [|discriminate].
  destruct Hin as [E|Hin].
  - injection E as <- <-. exists b0. exact Hf.
  - eapply IH; [reflexivity|exact Hin].
Qed.

Lemma forEntries_throw (A B : Type) (f : string -> A -> result B) (o : obj A)
  (err : JsError) :
  forEntries f o = Throw err ->
  exists k a, In (k, a) o /\ f k a = Throw err.
Proof.
  induction o as [|[k0 a0] o IH]; simpl; intros H; [discriminate|].
  destruct (f k0 a0) as [b0|e] eqn:Hf; simpl in H.
  - destruct (forEntries f o) as [rest|e] eqn:Hrest; simpl in H;
      [discriminate|].
    destruct (IH H) as [k [a [Hin Hk]]].
    exists k, a. split; [now right|exact Hk].
  - injection H as ->. exists k0, a0. split; [now left|exact Hf].
Qed.

Lemma groupStep_names (taxKey : string) (items items' : obj Group)
  (e : string * FileData) :
  (forall n, In n (keys items) -> inherited n = false) ->
  groupStep taxKey items e = Ok items' ->
  inherited (groupName taxKey (snd e)) = false
  /\ forall n, In n (keys items') -> inherited n = false.
Proof.
  destruct e as [k f]. unfold groupStep, groupName. simpl.
  set (name := toString (getTaxonomyValue (attributes f) taxKey)).
  intros Hinv H.
  assert (Hname : inherited name = false).
  { destruct (obj_get name items) as [g|] eqn:Hget.
    - apply Hinv. apply obj_get_In in Hget. unfold keys.
      change name with (fst (name, g)). now apply in_map.
    - destruct (inherited name); [discriminate|reflexivity]. }
  split; [exact Hname|]. intros n Hn.
  destruct (obj_get name items) as [g|].
  - injection H as <-. apply obj_set_keys_In in Hn.
    destruct Hn as [->|Hn]; [exact Hname|now apply Hinv].
  - rewrite Hname in H. injection H as <-. apply obj_set_keys_In in Hn.
    destruct Hn as [->|Hn]; [exact Hname|now apply Hinv].
Qed.

Lemma groupFiles_names (taxKey : string) (es : list (string * FileData)) :
  forall items items',
    (forall n, In n (keys items) -> inherited n = false) ->
    groupFiles taxKey items es = Ok items' ->
    forall e, In e es -> inherited (groupName taxKey (snd e)) = false.
Proof.
  induction es as [|e0 es IH]; simpl; intros items items' Hinv H e He;
    [destruct He|].
  destruct (groupStep taxKey items e0) as [items1|err] eqn:Hstep;
    simpl in H; [|discriminate].
  destruct (@groupStep_names taxKey items items1 e0 Hinv Hstep) as [H0 Hinv1].
  destruct He as [<-|He]; [exact H0|].
  eapply (IH items1 items' Hinv1 H). exact He.
Qed.

Lemma groupStep_throw (taxKey : string) (items : obj Group)
  (e : string * FileData) (err : JsError) :
  groupStep taxKey items e = Throw err -> err_name err = "TypeError".
Proof.
  destruct e as [k f]. unfold groupStep.
  destruct (obj_get _ items); [discriminate|].
  destruct (inherited _); [|discriminate]. now intros [= <-].
Qed.

Lemma groupFiles_throw (taxKey : string) (es : list (string * FileData)) :
  forall items err,
    groupFiles taxKey items es = Throw err -> err_name err = "TypeError".
Proof.
  induction es as [|e0 es IH]; simpl; intros items err H; [discriminate|].
  destruct (groupStep taxKey items e0) as [items1|err1] eqn:Hstep;
    simpl in H.
  - eapply IH. exact H.
  - injection H as ->. eapply groupStep_throw. exact Hstep.
Qed.

Lemma collect_returns :
  forall (remainingTaxKeys : list string) (dataFiles : obj FileData)
         (taxKey : string),
    (forall key, In key (taxKey :: remainingTaxKeys) ->
       forall k f, In (k, f) dataFiles -> inherited (groupName key f) = false) ->
    exists tree,
      collectMediaLibraryTaxonomy dataFiles taxKey remainingTaxKeys = Ok tree.
Proof.
  induction remainingTaxKeys as [|next rest IH]; intros dataFiles taxKey H;
    simpl;
    destruct (@groupFiles_returns taxKey (entries dataFiles) [])
      as [items Hitems];
    try (intros [k f] He; apply (H taxKey (or_introl eq_refl) k f He));
    rewrite Hitems; simpl; apply forEntries_returns; intros k g Hin.
  - eexists. reflexivity.
  - pose proof (@groupFiles_groupsFrom (entries dataFiles) taxKey
                  (entries dataFiles) [] items
                  (groupsFrom_nil _) (fun e H => H) Hitems) as Hfrom.
    destruct (Hfrom k g Hin) as [_ [_ Hsrc]].
    destruct (IH (g_items g) next) as [sub ->].
    + intros key Hkey k' f' Hin'. apply (H key (or_intror Hkey) k' f').
      now apply Hsrc.
    + simpl. eexists. reflexivity.
Qed.

Lemma collect_groupable :
  forall (remainingTaxKeys : list string) (dataFiles : obj FileData)
         (taxKey : string) (tree : obj TaxNode),
    NoDup (keys dataFiles) ->
    collectMediaLibraryTaxonomy dataFiles taxKey remainingTaxKeys = Ok tree ->
    forall key, In key (taxKey :: remainingTaxKeys) ->
      forall k f, In (k, f) dataFiles -> inherited (groupName key f) = false.
Proof.
  induction remainingTaxKeys as [|next rest IH];
    intros dataFiles taxKey tree Hnd Hrun key Hkey k f Hin; simpl in Hrun;
    destruct (groupFiles taxKey [] (entries dataFiles)) as [items|err]
      eqn:Hgroup; simpl in Hrun; try discriminate;
    pose proof (@groupFiles_names taxKey (entries dataFiles) [] items
                  (fun n (H : In n []) => match H with end) Hgroup (k, f) Hin)
      as Hfirst.
  - destruct Hkey as [<-|[]]. exact Hfirst.
  - destruct Hkey as [<-|Hkey]; [exact Hfirst|].
    pose proof (@groupFiles_groupsFrom (entries dataFiles) taxKey
                  (entries dataFiles) [] items
                  (groupsFrom_nil _) (fun e H => H) Hgroup) as Hfrom.
    assert (Hp : Permutation (groupedEntries items) dataFiles).
    { pose proof (@groupFiles_perm taxKey (entries dataFiles) [] items)
        as Hp0. simpl in Hp0. rewrite !app_nil_r in Hp0.
      exact (Hp0 Hnd Hgroup). }
    assert (Hg : In (k, f) (groupedEntries items))
      by (eapply Permutation_in; [symmetry; exact Hp|exact Hin]).
    unfold groupedEntries in Hg. apply in_flat_map in Hg.
    destruct Hg as [[name g] [Hg He]]. simpl in He.
    destruct (forEntries_each _ _ Hrun _ _ Hg) as [n Hn]. cbv beta in Hn.
    destruct (collectMediaLibraryTaxonomy (g_items g) next rest)
      as [sub|err] eqn:Hsub; simpl in Hn; [|discriminate].
    destruct (Hfrom name g Hg) as [Hndg _].
    exact (IH (g_items g) next sub Hndg Hsub key Hkey k f He).
Qed.

Lemma collect_throw :
  forall (remainingTaxKeys : list string) (dataFiles : obj FileData)
         (taxKey : string) (err : JsError),
    collectMediaLibraryTaxonomy dataFiles taxKey remainingTaxKeys = Throw err ->
    err_name err = "TypeError".
Proof.
  induction remainingTaxKeys as [|next rest IH];
    intros dataFiles taxKey err Hrun; simpl in Hrun;
    destruct (groupFiles taxKey [] (entries dataFiles)) as [items|err0]
      eqn:Hgroup; simpl in Hrun;
    try (injection Hrun as ->; eapply groupFiles_throw; exact Hgroup);
    apply forEntries_throw in Hrun; destruct Hrun as [k [g [_ Hn]]].
  - discriminate.
  - cbv beta in Hn.
    destruct (collectMediaLibraryTaxonomy (g_items g) next rest)
      as [sub|err1] eqn:Hsub; simpl in Hn; [discriminate|].
    injection Hn as ->. eapply IH. exact Hsub.
Qed.

(** X6. The builder returns exactly when no file is grouped, for any of
    the taxonomy keys, under a name every object inherits ([constructor],
    [toString], [__proto__], ...); otherwise it throws a [TypeError]: the
    group of such a name is never created, and the assignment to the
    items of the inherited member fails. *)
Theorem builder_returns_iff_no_inherited_group_name
  (remainingTaxKeys : list string) (dataFiles : obj FileData)
  (taxKey : string) :
  NoDup (keys dataFiles) ->
  ((exists tree,
      collectMediaLibraryTaxonomy dataFiles taxKey remainingTaxKeys = Ok tree)
   <-> (forall key, In key (taxKey :: remainingTaxKeys) ->
          forall k f, In (k, f) dataFiles ->
                      inherited (groupName key f) = false))
  /\ (forall err,
        collectMediaLibraryTaxonomy dataFiles taxKey remainingTaxKeys
        = Throw err ->
        err_name err = "TypeError").
Proof.
  intros Hnd. split; [split|].
  - intros [tree Hrun]. eapply collect_groupable; eassumption.
  - apply collect_returns.
  - intros err. apply collect_throw.
Qed.

Lemma builder_returns_iff_witness :
  ((exists tree,
      collectMediaLibraryTaxonomy inheritedNameExample "artist" ["album"]
      = Ok tree)
   <-> (forall key, In key ["artist"; "album"] ->
          forall k f, In (k, f) inheritedNameExample ->
                      inherited (groupName key f) = false))
  /\ (forall err,
        collectMediaLibraryTaxonomy inheritedNameExample "artist" ["album"]
        = Throw err ->
        err_name err = "TypeError").
Proof.
  apply (@builder_returns_iff_no_inherited_group_name ["album"]
           inheritedNameExample "artist").
  repeat constructor; simpl; intuition.
Defined.

Lemma isNONE_sentinel (v : value) :
  isNONE v = true <-> v = VStr "__NONE__".
Proof.
  destruct v as [| |b|n|s|l|o|m]; simpl; try (split; discriminate).
  split.
  - intros H. apply String.eqb_eq in H. now subst s.
  - intros [= ->]. reflexivity.
Qed.

Lemma groupStep_filedBy (taxKey : string) (items items' : obj Group)
  (e : string * FileData) :
  groupsFiledBy taxKey items ->
  groupStep taxKey items e = Ok items' -> groupsFiledBy taxKey items'.
Proof.
  destruct e as [k f]. unfold groupStep.
  set (name := toString (getTaxonomyValue (attributes f) taxKey)).
  intros Hinv H name' g' Hin.
  destruct (obj_get name items) as [g|] eqn:Hget.
  - injection H as <-. apply obj_set_In in Hin.
    destruct Hin as [E|Hin]; [|exact (Hinv name' g' Hin)].
    injection E as -> ->. simpl.
    destruct (Hinv name g (obj_get_In _ _ Hget)) as [H1 [H2 [H3 H4]]].
    repeat (split; [assumption|]).
    intros e He. apply obj_set_In in He.
    destruct He as [->|He]; [reflexivity|now apply H4].
  - destruct (inherited name); [discriminate|]. injection H as <-.
    apply obj_set_In in Hin.
    destruct Hin as [E|Hin]; [|exact (Hinv name' g' Hin)].
    injection E as -> ->. simpl. repeat (split; [reflexivity|]).
    split; [apply isNONE_sentinel|].
    intros e He. apply obj_set_In in He.
    destruct He as [->|[]]. reflexivity.
Qed.

Lemma groupFiles_filedBy (taxKey : string) (es : list (string * FileData)) :
  forall items items',
    groupsFiledBy taxKey items ->
    groupFiles taxKey items es = Ok items' -> groupsFiledBy taxKey items'.
Proof.
  induction es as [|e0 es IH]; simpl; intros items items' Hinv H.
  - now injection H as <-.
  - destruct (groupStep taxKey items e0) as [items1|err] eqn:Hstep;
      simpl in H; [|discriminate].
    eapply IH; [|exact H]. eapply groupStep_filedBy; eassumption.
Qed.

Lemma inTreeAt_incl (name : string) (n : TaxNode) (depth : nat)
  (l l' : list (string * TaxNode)) :
  (forall e, In e l -> In e l') -> inTreeAt name n depth l ->
  inTreeAt name n depth l'.
Proof.
  intros Hincl H.
  destruct H as [items Hin|depth k key d b sub items Hin Hsub].
  - apply inTreeAt_here. now apply Hincl.
  - eapply inTreeAt_below; [apply Hincl; exact Hin|exact Hsub].
Qed.

(** What the builder makes of one group: a node that holds the files of
    the group. *)
Lemma node_leaves_perm (next : option (string * list string)) (g : Group)
  (n : TaxNode) :
  NoDup (keys (g_items g)) ->
  match next with
  | Some (key, rest) =>
      let* sub := collectMediaLibraryTaxonomy (g_items g) key rest in
      Ok (Branch (g_key g) (g_data g) (g_isNullCollection g)
                 (sortTaxonomyItems sub))
  | None => Ok (endNode g)
  end = Ok n ->
  Permutation (leaves n) (g_items g).
Proof.
  intros Hnd H. destruct next as [[key rest]|].
  - destruct (collectMediaLibraryTaxonomy (g_items g) key rest)
      as [sub|err] eqn:Hsub; simpl in H; [|discriminate].
    injection H as <-. rewrite leaves_branch.
    rewrite (leavesOf_perm
               (@sortTaxonomyItems_perm TaxNode sub (collect_NoDup _ _ _ Hsub))).
    eapply collect_leaves_perm; eassumption.
  - injection H as <-. unfold endNode. simpl.
    now apply sortAlbumFiles_perm.
Qed.

(** X7. Every node of the tree the builder returns follows the taxonomy
    list: a node [depth] levels below the root level carries the key of
    that position of the list and is an end node exactly at the last
    position; it is stored under the string form of its [data]; it is
    marked as null collection exactly when its data is the sentinel; it
    holds a file; and every file below it is of the record set and has
    that grouping name for the node's key. *)
Theorem tree_nodes_follow_taxonomy :
  forall (remainingTaxKeys : list string) (dataFiles : obj FileData)
         (taxKey : string) (tree : obj TaxNode),
    collectMediaLibraryTaxonomy dataFiles taxKey remainingTaxKeys = Ok tree ->
    forall depth name n,
      inTreeAt name n depth tree ->
      depth <= List.length remainingTaxKeys
      /\ nodeKey n = nth depth (taxKey :: remainingTaxKeys) ""
      /\ nodeIsEndNode n = Nat.eqb depth (List.length remainingTaxKeys)
      /\ toString (nodeData n) = name
      /\ (nodeIsNullCollection n = true <-> nodeData n = VStr "__NONE__")
      /\ leaves n <> []
      /\ forall e, In e (leaves n) ->
           In e dataFiles /\ groupName (nodeKey n) (snd e) = name.
Proof.
  induction remainingTaxKeys as [|next rest IH];
    intros dataFiles taxKey tree Hrun depth name n Hat; simpl in Hrun;
    destruct (groupFiles taxKey [] (entries dataFiles)) as [items|err]
      eqn:Hgroup; simpl in Hrun; try discriminate;
    pose proof (@groupFiles_groupsFrom (entries dataFiles) taxKey
                  (entries dataFiles) [] items
                  (groupsFrom_nil _) (fun e H => H) Hgroup) as Hfrom;
    pose proof (@groupFiles_filedBy taxKey (entries dataFiles) [] items
                  (fun name g (H : In (name, g) []) => match H with end)
                  Hgroup) as Hfiled;
    destruct Hat as [tree Hin|depth k key d b sub tree Hin Hsub];
    destruct (forEntries_In _ _ Hrun _ _ Hin) as [g [Hg Hn]];
    cbv beta in Hn; try discriminate.
  - destruct (Hfrom name g Hg) as [Hndg [Hne Hsrc]].
    destruct (Hfiled name g Hg) as [H1 [H2 [H3 H4]]].
    pose proof (@node_leaves_perm None g n Hndg Hn) as Hp.
    injection Hn as <-. simpl.
    split; [apply le_n|]. repeat (split; [first [assumption|reflexivity]|]).
    split.
    + intros E. simpl in Hp. rewrite E in Hp.
      apply Permutation_nil in Hp. now apply Hne.
    + intros e He. assert (He' : In e (g_items g))
        by (eapply Permutation_in; [exact Hp|exact He]).
      split; [now apply Hsrc|]. rewrite H1. now apply H4.
  - destruct (Hfrom name g Hg) as [Hndg [Hne Hsrc]].
    destruct (Hfiled name g Hg) as [H1 [H2 [H3 H4]]].
    pose proof (@node_leaves_perm (Some (next, rest)) g n Hndg Hn) as Hp.
    destruct (collectMediaLibraryTaxonomy (g_items g) next rest)
      as [sub0|err] eqn:Hsub0; simpl in Hn; [|discriminate].
    injection Hn as <-. simpl nodeKey. simpl nodeData.
    simpl nodeIsNullCollection. simpl nodeIsEndNode.
    split; [apply Nat.le_0_l|]. repeat (split; [first [assumption|reflexivity]|]).
    split.
    + intros E. rewrite E in Hp.
      apply Permutation_nil in Hp. now apply Hne.
    + intros e He. assert (He' : In e (g_items g))
        by (eapply Permutation_in; [exact Hp|exact He]).
      split; [now apply Hsrc|]. rewrite H1. now apply H4.
  - destruct (Hfrom k g Hg) as [Hndg [Hne Hsrc]].
    destruct (collectMediaLibraryTaxonomy (g_items g) next rest)
      as [sub0|err] eqn:Hsub0; simpl in Hn; [|discriminate].
    injection Hn as <- <- <- <-.
    assert (Hat0 : inTreeAt name n depth sub0).
    { eapply inTreeAt_incl; [|exact Hsub].
      intros e. apply sortTaxonomyItems_In. }
    destruct (IH (g_items g) next sub0 Hsub0 depth name n Hat0)
      as [Hd [Hk [He [Hs [Hnull [Hne' Hall]]]]]].
    split; [simpl; now apply le_n_S|]. split; [exact Hk|].
    split; [exact He|]. repeat (split; [first [assumption|reflexivity]|]).
    intros e Hin'. destruct (Hall e Hin') as [Hm Hname].
    split; [now apply Hsrc|exact Hname].
Qed.

Lemma tree_nodes_follow_taxonomy_witness :
  1 <= 1
  /\ nodeKey ungroupedExampleLeaf = "album"
  /\ nodeIsEndNode ungroupedExampleLeaf = true
  /\ toString (nodeData ungroupedExampleLeaf) = "__NONE__"
  /\ (nodeIsNullCollection ungroupedExampleLeaf = true
      <-> nodeData ungroupedExampleLeaf = VStr "__NONE__")
  /\ leaves ungroupedExampleLeaf <> []
  /\ forall e, In e (leaves ungroupedExampleLeaf) ->
       In e ungroupedExample
       /\ groupName (nodeKey ungroupedExampleLeaf) (snd e) = "__NONE__".
Proof.
  apply (@tree_nodes_follow_taxonomy ["album"] ungroupedExample "artist"
           ungroupedExampleTree eq_refl 1 "__NONE__" ungroupedExampleLeaf).
  eapply inTreeAt_below with (k := "a"); [left; reflexivity|].
  apply inTreeAt_here. right. left. reflexivity.
Defined.

(* ================================================================== *)
(** * Root level of a primary category *)
(* ================================================================== *)

(** C3. The items of a primary category are returned as
    [collectMediaLibraryTaxonomy] leaves them, in the order in which the
    record set first shows each group: for records of artists b, a, b the
    root level is b, a, although a sorts before b, while the albums X and
    Y under b, first seen as Y, X, are in ascending order. *)
Theorem root_level_in_first_seen_order :
  exists bItems aItems,
    cataloguePrimary [musicCategory] rootExample
    = Ok [ mkCategoryEntry "primary" (Some "Music") (Some "music") None
             (Some ["artist"; "album"]) None
             [ ("b", Branch "artist" (VStr "b") false bItems);
               ("a", Branch "artist" (VStr "a") false aItems) ] ]
    /\ keys bItems = ["X"; "Y"]
    /\ keys aItems = ["Z"]
    /\ compareMultiple (keyCriteria ("b", bItems)) (keyCriteria ("a", aItems))
       = Gt.
Proof.
  eexists. eexists. split; [vm_compute; reflexivity|].
  repeat split; reflexivity.
Qed.

(* ================================================================== *)
(** * Playlists *)
(* ================================================================== *)

Lemma importPlaylists_stores_playlists (C : Type) (d : obj FileData)
  (ml : option (MediaLibrary C)) (playlists : list (Playlist Track)) :
  ml_playlists (importPlaylists d ml playlists) = Some playlists.
Proof. reflexivity. Qed.

(** C2. [importPlaylists] leaves in [state.ml] the playlists as
    [findPlaylists] returned them, whatever the record set holds: for a
    playlist whose one track is catalogued, the stored track is the bare
    reference, and the record found for it is only in the list the
    function computes and drops. *)
Theorem importPlaylists_stores_unresolved_tracks :
  forall (info : FileData),
    let d := [("m/1.mp3", info)] in
    let ml := importPlaylists (C := unit) d None [examplePlaylist] in
    option_map (map (@pl_tracks Track)) (ml_playlists ml)
    = Some [[mkTrack "m/1.mp3"]]
    /\ map (@pl_tracks (option FileData)) (resolvedPlaylists d [examplePlaylist])
       = [[Some info]].
Proof.
  intros info d ml. split; reflexivity.
Qed.

(* ================================================================== *)
(** * The attribute extractor of [tags.js] *)
(* ================================================================== *)

Lemma Math_round_quarters (q : Q) :
  (0 <= q <= 1)%Q ->
  (0 <= Math_round (q / (1 # 4)) <= 4)%Z
  /\ (inject_Z (Math_round (q / (1 # 4))) - (1 # 2) <= 4 * q)%Q
  /\ (4 * q < inject_Z (Math_round (q / (1 # 4))) + (1 # 2))%Q.
Proof.
  intros [H0 H1]. unfold Math_round.
  assert (E : (q / (1 # 4) + (1 # 2) == 4 * q + (1 # 2))%Q).
  { unfold Qdiv. change (/ (1 # 4))%Q with (4 # 1)%Q. lra. }
  rewrite (Qfloor_comp _ _ E).
  set (x := (4 * q + (1 # 2))%Q).
  pose proof (Qfloor_le x) as Hle. pose proof (Qlt_floor x) as Hlt.
  assert (Hlo : (Qfloor (1 # 2) <= Qfloor x)%Z)
    by (apply Qfloor_resp_le; unfold x; lra).
  assert (Hhi : (Qfloor x <= Qfloor (9 # 2))%Z)
    by (apply Qfloor_resp_le; unfold x; lra).
  change (Qfloor (1 # 2)) with 0%Z in Hlo.
  change (Qfloor (9 # 2)) with 4%Z in Hhi.
  split; [lia|].
  rewrite inject_Z_plus in Hlt. change (inject_Z 1) with 1%Q in Hlt.
  unfold x in *. split; lra.
Qed.

(** X12. For a rating between 0 and 1, [getMp3WinampRating] yields one of
    the strings 20, 40, 60, 80 and 100: twenty times the number of stars,
    which is one more than the rating in quarters rounded to the nearest
    integer, a tie going up. It never yields 0: a rating of 0 gives 20. *)
Theorem getMp3WinampRating_of_unit_rating (q : Q) :
  (0 <= q <= 1)%Q ->
  exists stars : Z,
    (1 <= stars <= 5)%Z
    /\ getMp3WinampRating (TNum q) = string_of_Z (stars * 20)
    /\ In (getMp3WinampRating (TNum q)) ["20"; "40"; "60"; "80"; "100"]
    /\ (inject_Z stars - (3 # 2) <= 4 * q)%Q
    /\ (4 * q < inject_Z stars - (1 # 2))%Q.
Proof.
  intros Hq. destruct (Math_round_quarters Hq) as [Hr [Hlo Hhi]].
  exists (Math_round (q / (1 # 4)) + 1)%Z.
  split; [lia|]. unfold getMp3WinampRating. simpl t_toNumber. cbv zeta.
  split; [reflexivity|]. split.
  - assert (Hcases : Math_round (q / (1 # 4)) = 0%Z
                     \/ Math_round (q / (1 # 4)) = 1%Z
                     \/ Math_round (q / (1 # 4)) = 2%Z
                     \/ Math_round (q / (1 # 4)) = 3%Z
                     \/ Math_round (q / (1 # 4)) = 4%Z) by lia.
    destruct Hcases as [E|[E|[E|[E|E]]]]; rewrite E; simpl; tauto.
  - rewrite inject_Z_plus. change (inject_Z 1) with 1%Q. split; lra.
Qed.

Lemma getMp3WinampRating_witness :
  exists stars : Z,
    (1 <= stars <= 5)%Z
    /\ getMp3WinampRating (TNum (3 # 4)) = string_of_Z (stars * 20)
    /\ In (getMp3WinampRating (TNum (3 # 4)))
          ["20"; "40"; "60"; "80"; "100"]
    /\ (inject_Z stars - (3 # 2) <= 4 * (3 # 4))%Q
    /\ (4 * (3 # 4) < inject_Z stars - (1 # 2))%Q.
Proof.
  apply (@getMp3WinampRating_of_unit_rating (3 # 4)).
  split; unfold Qle; simpl; lia.
Defined.

Lemma pick_fold_get (V : Type) (o : obj V) (k : string) (names : list string) :
  forall r,
    obj_get k
      (fold_left (fun r k => match obj_get k o with
                             | Some v => obj_set k v r
                             | None => r
                             end) names r)
    = match (if existsb (String.eqb k) names then obj_get k o else None) with
      | Some v => Some v
      | None => obj_get k r
      end.
Proof.
  induction names as [|n names IH]; intros r; simpl; [reflexivity|].
  rewrite IH. destruct (String.eqb_spec k n) as [<-|Hne]; simpl.
  - destruct (obj_get k o) as [v|] eqn:Hk.
    + rewrite obj_get_set_same. now destruct (existsb (String.eqb k) names).
    + now destruct (existsb (String.eqb k) names).
  - destruct (obj_get n o) as [v|]; [|reflexivity].
    rewrite obj_get_set_other by exact Hne. reflexivity.
Qed.

(** A picked object has the picked names the source has, with the values
    of the source. *)
Lemma pick_get (V : Type) (o : obj V) (names : list string) (k : string) :
  obj_get k (pick o names)
  = if existsb (String.eqb k) names then obj_get k o else None.
Proof.
  unfold pick. rewrite pick_fold_get. simpl.
  now destruct (if existsb (String.eqb k) names then obj_get k o else None).
Qed.

Lemma pick_fold_keys (V : Type) (o : obj V) (names : list string) :
  forall r,
    NoDup (keys r ++ names) ->
    (forall k, In k names -> array_index k = None) ->
    keys (fold_left (fun r k => match obj_get k o with
                                | Some v => obj_set k v r
                                | None => r
                                end) names r)
    = keys r ++ filter (fun k => obj_has k o) names.
Proof.
  induction names as [|n names IH]; intros r Hnd Hidx; simpl.
  - now rewrite app_nil_r.
  - assert (Hnot : ~ In n (keys r)).
    { apply NoDup_remove_2 in Hnd. intros Hin. apply Hnd.
      apply in_or_app. now left. }
    assert (Hnd' : NoDup (keys r ++ names))
      by (now apply NoDup_remove_1 in Hnd).
    unfold obj_has at 1. destruct (obj_get n o) as [v|].
    + rewrite IH.
      * rewrite obj_set_fresh_plain;
          [|now apply obj_get_None_keys|apply Hidx; now left].
        unfold keys. rewrite map_app, <- app_assoc. reflexivity.
      * rewrite obj_set_fresh_plain;
          [|now apply obj_get_None_keys|apply Hidx; now left].
        unfold keys. rewrite map_app, <- app_assoc. simpl. exact Hnd.
      * intros k Hk. apply Hidx. now right.
    + apply IH; [exact Hnd'|]. intros k Hk. apply Hidx. now right.
Qed.

(** The picked names come in the order of the list they are picked by. *)
Lemma pick_keys (V : Type) (o : obj V) (names : list string) :
  NoDup names -> (forall k, In k names -> array_index k = None) ->
  keys (pick o names) = filter (fun k => obj_has k o) names.
Proof.
  intros Hnd Hidx. unfold pick. now rewrite pick_fold_keys.
Qed.

Lemma COMMON_TAGS_plain :
  NoDup COMMON_TAGS /\ forall k, In k COMMON_TAGS -> array_index k = None.
Proof.
  split.
  - repeat constructor; simpl; intuition discriminate.
  - intros k Hk. simpl in Hk.
    repeat (destruct Hk as [<-|Hk]; [reflexivity|]). destruct Hk.
Qed.

Lemma t_prop_set_same (o : obj tagValue) (k : string) (v : tagValue) :
  t_prop (obj_set k v o) k = v.
Proof. unfold t_prop. now rewrite obj_get_set_same. Qed.

Lemma t_prop_set_other (o : obj tagValue) (k k' : string) (v : tagValue) :
  k <> k' -> t_prop (obj_set k' v o) k = t_prop o k.
Proof. intros H. unfold t_prop. now rewrite obj_get_set_other. Qed.

(** X13. [pickCommonTags] returns the common tags of the parsed data, in
    the order of the list of common tags and nothing else, and among them
    always [artists] and [albumartist]: [artists] falls back to the
    one-element array of [artist], [albumartist] falls back to [artist]
    and is replaced by its first element when it is an array; every other
    common tag is as parsed. *)
Theorem pickCommonTags_fills_artists (common : obj tagValue) :
  let assigned := fst (pickCommonTags common) in
  let picked := snd (pickCommonTags common) in
  let albumartist :=
    if t_truthy (t_prop common "albumartist")
    then t_prop common "albumartist" else t_prop common "artist" in
  keys picked = filter (fun k => obj_has k assigned) COMMON_TAGS
  /\ obj_get "artists" picked
     = Some (if t_truthy (t_prop common "artists")
             then t_prop common "artists"
             else TArr [t_prop common "artist"])
  /\ obj_get "albumartist" picked
     = (if t_isArray albumartist then Some (t_index0 albumartist)
        else if t_truthy (t_prop common "albumartist")
             then obj_get "albumartist" common
             else Some albumartist)
  /\ (forall k, In k COMMON_TAGS -> k <> "artists" -> k <> "albumartist" ->
                obj_get k picked = obj_get k common)
  /\ (forall k, ~ In k COMMON_TAGS -> obj_get k picked = None).
Proof.
  unfold pickCommonTags. cbv zeta. cbn [fst snd].
  set (common1 := if negb (t_truthy (t_prop common "artists"))
                  then obj_set "artists" (TArr [t_prop common "artist"]) common
                  else common).
  set (common2 := if negb (t_truthy (t_prop common1 "albumartist"))
                  then obj_set "albumartist" (t_prop common1 "artist") common1
                  else common1).
  set (common3 := if t_isArray (t_prop common2 "albumartist")
                  then obj_set "albumartist"
                         (t_index0 (t_prop common2 "albumartist")) common2
                  else common2).
  assert (H1 : forall k, k <> "artists" ->
                         obj_get k common1 = obj_get k common).
  { intros k Hk. unfold common1.
    destruct (negb (t_truthy (t_prop common "artists"))); [|reflexivity].
    now apply obj_get_set_other. }
  assert (H2 : forall k, k <> "albumartist" ->
                         obj_get k common2 = obj_get k common1).
  { intros k Hk. unfold common2.
    destruct (negb (t_truthy (t_prop common1 "albumartist")));
      [|reflexivity].
    now apply obj_get_set_other. }
  assert (H3 : forall k, k <> "albumartist" ->
                         obj_get k common3 = obj_get k common2).
  { intros k Hk. unfold common3.
    destruct (t_isArray (t_prop common2 "albumartist")); [|reflexivity].
    now apply obj_get_set_other. }
  assert (Hp1 : forall k, k <> "artists" -> t_prop common1 k = t_prop common k)
    by (intros k Hk; unfold t_prop; now rewrite H1).
  split; [apply pick_keys; apply COMMON_TAGS_plain|].
  split; [|split; [|split]].
  - rewrite pick_get. simpl existsb.
    rewrite H3, H2 by discriminate. unfold common1.
    destruct (t_truthy (t_prop common "artists")) eqn:E; simpl.
    + unfold t_prop in *. destruct (obj_get "artists" common);
        [reflexivity|discriminate].
    + apply obj_get_set_same.
  - rewrite pick_get. simpl existsb.
    assert (E2 : t_prop common2 "albumartist"
                 = if t_truthy (t_prop common "albumartist")
                   then t_prop common "albumartist"
                   else t_prop common "artist").
    { unfold common2. rewrite (Hp1 "albumartist") by discriminate.
      destruct (t_truthy (t_prop common "albumartist")); simpl.
      - apply Hp1. discriminate.
      - rewrite t_prop_set_same. apply Hp1. discriminate. }
    unfold common3. rewrite E2.
    destruct (t_isArray (if t_truthy (t_prop common "albumartist")
                         then t_prop common "albumartist"
                         else t_prop common "artist")) eqn:Harr.
    + apply obj_get_set_same.
    + unfold common2. rewrite (Hp1 "albumartist") by discriminate.
      destruct (t_truthy (t_prop common "albumartist")); simpl.
      * apply H1. discriminate.
      * rewrite obj_get_set_same. f_equal. apply Hp1. discriminate.
  - intros k Hin Ha Hb. rewrite pick_get.
    assert (E : existsb (String.eqb k) COMMON_TAGS = true).
    { apply existsb_exists. exists k. split;
        [exact Hin|apply String.eqb_refl]. }
    rewrite E, H3, H2, H1 by assumption. reflexivity.
  - intros k Hnot. rewrite pick_get.
    destruct (existsb (String.eqb k) COMMON_TAGS) eqn:E; [|reflexivity].
    apply existsb_exists in E. destruct E as [k' [Hin Hk]].
    apply String.eqb_eq in Hk. subst k'. contradiction.
Qed.

Lemma cleanTags_fixed (tags : obj tagValue) :
  (t_truthy (t_prop tags "rating") = true ->
   t_isArray (t_prop tags "rating") = true) ->
  (t_truthy (t_field (t_index0 (t_prop tags "rating")) "source") = true ->
   t_is_string (t_field (t_index0 (t_prop tags "rating")) "source")
     "rating@winamp.com" = false) ->
  cleanTags tags = tags.
Proof.
  intros Harr Hsrc. unfold cleanTags.
  destruct (t_truthy (t_prop tags "rating")) eqn:Ht; simpl.
  - rewrite (Harr eq_refl). simpl.
    destruct (t_truthy (t_field (t_index0 (t_prop tags "rating")) "source"));
      [|reflexivity].
    now rewrite (Hsrc eq_refl).
  - destruct (t_truthy (t_field (t_index0 (t_prop tags "rating")) "source"));
      [|reflexivity].
    now rewrite (Hsrc eq_refl).
Qed.

(** X14. [cleanTags] changes [rating] only: a rating that is not empty
    comes out as an array, and cleaning cleaned tags changes nothing (a
    rating converted from Winamp's scale is a string, which has no
    source, and is not converted again). *)
Theorem cleanTags_normalises_rating (tags : obj tagValue) :
  cleanTags (cleanTags tags) = cleanTags tags
  /\ (t_truthy (t_prop (cleanTags tags) "rating") = true ->
      t_isArray (t_prop (cleanTags tags) "rating") = true)
  /\ (forall k, k <> "rating" ->
                obj_get k (cleanTags tags) = obj_get k tags).
Proof.
  set (tags1 := if t_truthy (t_prop tags "rating")
                   && negb (t_isArray (t_prop tags "rating"))
                then obj_set "rating" (TArr [t_prop tags "rating"]) tags
                else tags).
  assert (Harr1 : t_truthy (t_prop tags1 "rating") = true ->
                  t_isArray (t_prop tags1 "rating") = true).
  { unfold tags1. destruct (t_truthy (t_prop tags "rating")) eqn:Ht; simpl.
    - destruct (t_isArray (t_prop tags "rating")) eqn:Ha; simpl;
        [now rewrite Ha|now rewrite t_prop_set_same].
    - now rewrite Ht. }
  assert (Hother1 : forall k, k <> "rating" ->
                              obj_get k tags1 = obj_get k tags).
  { intros k Hk. unfold tags1.
    destruct (t_truthy (t_prop tags "rating")
              && negb (t_isArray (t_prop tags "rating"))); [|reflexivity].
    now apply obj_get_set_other. }
  assert (E : cleanTags tags
              = let first := t_index0 (t_prop tags1 "rating") in
                if t_truthy (t_field first "source")
                then if t_is_string (t_field first "source")
                          "rating@winamp.com"
                     then obj_set "rating"
                            (TArr [TStr (getMp3WinampRating
                                           (t_field first "rating"))]) tags1
                     else tags1
                else tags1) by reflexivity.
  rewrite E. cbv zeta.
  destruct (t_truthy (t_field (t_index0 (t_prop tags1 "rating")) "source"))
    eqn:Hsrc;
    [destruct (t_is_string (t_field (t_index0 (t_prop tags1 "rating"))
                              "source") "rating@winamp.com") eqn:Hwin|].
  - split; [|split].
    + apply cleanTags_fixed; rewrite t_prop_set_same; simpl; auto.
    + now rewrite t_prop_set_same.
    + intros k Hk. rewrite obj_get_set_other by exact Hk.
      now apply Hother1.
  - split; [|split; [exact Harr1|exact Hother1]].
    apply cleanTags_fixed; [exact Harr1|]. intros _. exact Hwin.
  - split; [|split; [exact Harr1|exact Hother1]].
    apply cleanTags_fixed; [exact Harr1|]. rewrite Hsrc. discriminate.
Qed.

Lemma spread_keys (V : Type) (a b : obj V) (k : string) :
  In k (keys (spread (Some a) (Some b))) -> In k (keys a) \/ In k (keys b).
Proof.
  unfold spread, entries, keys. intros H. apply in_map_iff in H.
  destruct H as [e [<- He]].
  apply fold_set_In in He. destruct He as [He|He].
  - right. now apply in_map.
  - apply fold_set_In in He. destruct He as [He|[]]. left. now apply in_map.
Qed.

Lemma pick_keys_In (V : Type) (o : obj V) (names : list string) (k : string) :
  In k (keys (pick o names)) -> In k names.
Proof.
  intros H. destruct (existsb (String.eqb k) names) eqn:E.
  - apply existsb_exists in E. destruct E as [k' [Hin Hk]].
    apply String.eqb_eq in Hk. now subst.
  - pose proof (pick_get o names k) as Hg. rewrite E in Hg.
    apply obj_get_None_keys in Hg. contradiction.
Qed.

Lemma findM4aWinampRating_cases (buffer : Buffer) :
  exists hacks,
    findM4aWinampRating buffer = Ok hacks
    /\ (hacks = [] \/ exists s, hacks = [("rating", TArr [TStr s])]).
Proof.
  unfold findM4aWinampRating, findM4aWinampRatingData.
  destruct (isM4aFile buffer) eqn:Hm4a; simpl;
    [|eexists; split; [reflexivity|now left]].
  pose proof (isM4aFile_length buffer Hm4a) as Hlen.
  destruct (@rateLoop_searched buffer (List.length buffer - 7) 0)
    as [r [Hr _]]; [lia|].
  change (List.length rate) with 7. rewrite Hr. simpl.
  eexists. split; [reflexivity|].
  destruct r; [now left|now left|right; eexists; reflexivity].
Qed.

(** What the extraction of the hacks comes to: nothing for an extension
    other than [m4a], with no file read; otherwise the failure of the
    read, or the rating found in the bytes read. *)
Lemma getMetadataHacks_cases (fs_readFile : string -> result Buffer)
  (ext fn filepath : string) (tags : obj tagValue) :
  match getMetadataHacks fs_readFile ext fn filepath tags with
  | Ok hacks =>
      (hacks = [] \/ exists s, hacks = [("rating", TArr [TStr s])])
      /\ (ext <> "m4a" -> hacks = [])
      /\ (ext = "m4a" -> exists buffer, fs_readFile filepath = Ok buffer)
  | Throw err => ext = "m4a" /\ fs_readFile filepath = Throw err
  end.
Proof.
  unfold getMetadataHacks. simpl. rewrite orb_false_r.
  destruct (String.eqb_spec ext "m4a") as [->|Hne]; simpl.
  - destruct (fs_readFile filepath) as [buffer|err]; simpl; [|now split].
    destruct (findM4aWinampRating_cases buffer) as [hacks [-> Hcases]].
    simpl. split; [|split; [congruence|eexists; reflexivity]].
    destruct Hcases as [->|[s ->]]; [now left|right].
    exists s. unfold spread. simpl. now rewrite obj_set_nil.
  - split; [now left|]. split; [reflexivity|contradiction].
Qed.

Lemma cleanTags_other (tags : obj tagValue) (k : string) :
  k <> "rating" -> obj_get k (cleanTags tags) = obj_get k tags.
Proof.
  intros Hk. unfold cleanTags. cbv zeta.
  repeat match goal with
         | |- context [if ?c then _ else _] => destruct c
         end;
    rewrite ?obj_get_set_other by exact Hk; reflexivity.
Qed.

Lemma cleanTags_keys (tags : obj tagValue) (k : string) :
  In k (keys (cleanTags tags)) -> k = "rating" \/ In k (keys tags).
Proof.
  unfold cleanTags. cbv zeta.
  repeat match goal with
         | |- context [if ?c then _ else _] => destruct c
         end;
    intros H; repeat (apply obj_set_keys_In in H; destruct H as [->|H]);
    auto.
Qed.

Lemma cleanTags_string_rating (tags : obj tagValue) (s : string) :
  obj_get "rating" tags = Some (TArr [TStr s]) ->
  obj_get "rating" (cleanTags tags) = Some (TArr [TStr s]).
Proof.
  intros H. unfold cleanTags, t_prop. rewrite H. simpl. rewrite H. simpl.
  exact H.
Qed.

Lemma pickCommonTags_has (common : obj tagValue) :
  obj_has "artists" (snd (pickCommonTags common)) = true
  /\ obj_has "albumartist" (snd (pickCommonTags common)) = true.
Proof.
  unfold pickCommonTags. cbv zeta. cbn [snd]. unfold obj_has.
  rewrite !pick_get. simpl existsb.
  set (common1 := if negb (t_truthy (t_prop common "artists"))
                  then obj_set "artists" (TArr [t_prop common "artist"]) common
                  else common).
  set (common2 := if negb (t_truthy (t_prop common1 "albumartist"))
                  then obj_set "albumartist" (t_prop common1 "artist") common1
                  else common1).
  assert (H1 : exists v, obj_get "artists" common1 = Some v).
  { unfold common1. destruct (t_truthy (t_prop common "artists")) eqn:E;
      simpl.
    - unfold t_prop in E. destruct (obj_get "artists" common) as [v|];
        [now exists v|discriminate].
    - eexists. apply obj_get_set_same. }
  assert (H2 : exists v, obj_get "albumartist" common2 = Some v).
  { unfold common2.
    destruct (t_truthy (t_prop common1 "albumartist")) eqn:E; simpl.
    - unfold t_prop in E. destruct (obj_get "albumartist" common1) as [v|];
        [now exists v|discriminate].
    - eexists. apply obj_get_set_same. }
  destruct H1 as [v1 H1]. destruct H2 as [v2 H2].
  destruct (t_isArray (t_prop common2 "albumartist")).
  - rewrite obj_get_set_same, obj_get_set_other by discriminate.
    unfold common2.
    destruct (negb (t_truthy (t_prop common1 "albumartist")));
      rewrite ?obj_get_set_other by discriminate; now rewrite H1.
  - rewrite H2. unfold common2.
    destruct (negb (t_truthy (t_prop common1 "albumartist")));
      rewrite ?obj_get_set_other by discriminate; now rewrite H1.
Qed.

Lemma pick_plain (V : Type) (o : obj V) (names : list string) :
  NoDup names -> (forall k, In k names -> array_index k = None) ->
  NoDup (keys (pick o names))
  /\ forall k, In k (keys (pick o names)) -> array_index k = None.
Proof.
  intros Hnd Hidx. split.
  - rewrite pick_keys by assumption. now apply NoDup_filter.
  - intros k Hk. apply Hidx. eapply pick_keys_In. exact Hk.
Qed.

(** X15. What [processTags] comes to. It rejects only when the parser
    rejects, when the category's tag mapper throws, or, for an [m4a]
    file, when reading the file fails. Otherwise the tags it resolves
    with are common tags only, [artists] and [albumartist] among them,
    with a rating that is an array when it is not empty; the format tags
    are format tags only; for an extension other than [m4a] the tags are
    the cleaned common tags and no file is read; and a rating found in
    the bytes of an [m4a] file replaces the parsed rating. *)
Theorem processTags_result (parseFile : string -> result ParsedFile)
  (fs_readFile : string -> result Buffer) (ext fn filepath : string)
  (category : option TagCategory) :
  match processTags_of parseFile fs_readFile ext fn filepath category with
  | Throw err =>
      parseFile filepath = Throw err
      \/ exists data,
           parseFile filepath = Ok data
           /\ (pickCategoryTags
                 (mkParsedFile (fst (pickCommonTags (pf_common data)))
                               (pf_format data)) category = Throw err
               \/ (ext = "m4a" /\ fs_readFile filepath = Throw err))
  | Ok r =>
      exists data,
        parseFile filepath = Ok data
        /\ obj_has "artists" (tr_tags r) = true
        /\ obj_has "albumartist" (tr_tags r) = true
        /\ (forall k, In k (keys (tr_tags r)) -> In k COMMON_TAGS)
        /\ (forall k, In k (keys (tr_format r)) -> In k FORMAT_TAGS)
        /\ (ext <> "m4a" ->
            tr_tags r = cleanTags (snd (pickCommonTags (pf_common data))))
        /\ (forall buffer s,
              ext = "m4a" -> fs_readFile filepath = Ok buffer ->
              findM4aWinampRating buffer = Ok [("rating", TArr [TStr s])] ->
              obj_get "rating" (tr_tags r) = Some (TArr [TStr s]))
  end.
Proof.
  unfold processTags_of.
  destruct (parseFile filepath) as [data|err] eqn:Hparse; cbn [bind];
    [|now left].
  pose proof (pickCommonTags_has (pf_common data)) as Hhas.
  destruct (pickCommonTags (pf_common data)) as [common' common] eqn:Hpick.
  cbn [fst snd] in *.
  assert (Hplain : NoDup (keys common)
                   /\ forall k, In k (keys common) -> array_index k = None).
  { assert (E : common = pick common' COMMON_TAGS)
      by (unfold pickCommonTags in Hpick; now injection Hpick as <- <-).
    rewrite E. apply pick_plain; apply COMMON_TAGS_plain. }
  assert (Hcommon : forall k, In k (keys common) -> In k COMMON_TAGS).
  { assert (E : common = pick common' COMMON_TAGS)
      by (unfold pickCommonTags in Hpick; now injection Hpick as <- <-).
    rewrite E. intros k. apply pick_keys_In. }
  destruct (pickCategoryTags (mkParsedFile common' (pf_format data)) category)
    as [additional|err] eqn:Hcat; cbn [bind];
    [|right; exists data; rewrite Hpick; split; [reflexivity|now left]].
  pose proof (getMetadataHacks_cases fs_readFile ext fn filepath common)
    as Hhacks.
  destruct (getMetadataHacks fs_readFile ext fn filepath common)
    as [hacks|err] eqn:Hh; cbn [bind tr_tags tr_format];
    [|right; exists data; rewrite Hpick; split; [reflexivity|now right]].
  destruct Hhacks as [Hshape [Hother Hm4a]].
  exists data. rewrite Hpick. cbn [fst snd]. split; [reflexivity|].
  assert (Hnd : NoDup (keys hacks)).
  { destruct Hshape as [->|[s ->]]; repeat constructor. simpl. tauto. }
  assert (Hget : forall k, k <> "rating" ->
                  obj_get k (cleanTags (spread (Some common) (Some hacks)))
                  = obj_get k common).
  { intros k Hk. rewrite cleanTags_other by exact Hk.
    rewrite spread_get by tauto.
    destruct Hshape as [->|[s ->]]; cbn [obj_get]; [reflexivity|].
    destruct (String.eqb_spec "rating" k) as [E|_]; [congruence|reflexivity]. }
  unfold obj_has in *.
  split; [rewrite Hget by discriminate; tauto|].
  split; [rewrite Hget by discriminate; tauto|].
  split.
  { intros k Hk. apply cleanTags_keys in Hk.
    destruct Hk as [->|Hk]; [simpl; tauto|].
    apply spread_keys in Hk. destruct Hk as [Hk|Hk]; [now apply Hcommon|].
    destruct Hshape as [->|[s ->]]; simpl in Hk; [destruct Hk|].
    destruct Hk as [<-|[]]. simpl. tauto. }
  split; [intros k; unfold pickFormatTags; apply pick_keys_In|].
  split.
  - intros Hne. rewrite (Hother Hne). f_equal.
    unfold spread, entries. simpl. apply fromEntries_plain; tauto.
  - intros buffer s -> Hread Hfound. apply cleanTags_string_rating.
    rewrite spread_get by tauto.
    unfold getMetadataHacks in Hh. simpl in Hh. rewrite Hread in Hh.
    simpl in Hh. rewrite Hfound in Hh. simpl in Hh.
    rewrite obj_set_nil in Hh. injection Hh as <-. reflexivity.
Qed.

(* ================================================================== *)
(** * The playlists of [playlists.js] *)
(* ================================================================== *)

Lemma string_append_assoc (a b c : string) :
  ((a ++ b) ++ c)%string = (a ++ b ++ c)%string.
Proof. induction a as [|x a IH]; simpl; [reflexivity|now rewrite IH]. Qed.

Lemma concat_cons_app (sep x y : string) (l : list string) :
  String.concat sep (x :: l ++ [y])
  = (x ++ sep ++ String.concat sep (l ++ [y]))%string.
Proof. destruct l; reflexivity. Qed.

(** Splitting at the backslashes and joining with [sep] replaces each
    backslash by [sep]. *)
Lemma split_join_backslash (sep base : string) (s : string) :
  forall cur,
    String.concat sep (split_from "\" 0 cur s ++ [base])
    = (cur ++ replaceBackslashes sep s ++ sep ++ base)%string.
Proof.
  induction s as [|c s IH]; intros cur.
  - reflexivity.
  - cbn [split_from String.prefix replaceBackslashes].
    destruct (ascii_dec "\" c) as [<-|Hne].
    + change (Ascii.eqb "\" "\") with true. cbv iota.
      change (String.length "\" - 1) with 0.
      assert (E : String.prefix "" s = true) by (now destruct s).
      rewrite E. rewrite <- app_comm_cons, concat_cons_app, IH. simpl.
      now rewrite string_append_assoc.
    + destruct (Ascii.eqb_spec c "\") as [->|_]; [contradiction|].
      rewrite IH, string_append_assoc. reflexivity.
Qed.

(** X19. [getTrackPath] gives the directory of the track relative to the
    base directory with every backslash replaced by the separator of the
    platform, followed by a separator and the base name; for a track that
    lies in the base directory itself, whose relative directory is empty,
    the path therefore starts with a separator. *)
Theorem getTrackPath_replaces_separators (A : Type) (env : PlaylistEnv A)
  (uri baseDir : string) :
  let rel := ple_win32_relative env baseDir (ple_win32_dir env uri) in
  getTrackPath env uri baseDir
  = (replaceBackslashes (ple_sep env) rel ++ ple_sep env
     ++ ple_win32_base env uri)%string
  /\ (rel = "" ->
      getTrackPath env uri baseDir
      = (ple_sep env ++ ple_win32_base env uri)%string).
Proof.
  intros rel. unfold getTrackPath, str_split. fold rel.
  rewrite split_join_backslash. simpl. split; [reflexivity|].
  now intros ->.
Qed.

Lemma Promise_all_map (X Y : Type) (f : X -> result Y) (l : list X)
  (r : list Y) :
  Promise_all (map f l) = Ok r <-> Forall2 (fun x y => f x = Ok y) l r.
Proof.
  revert r. induction l as [|x l IH]; intros r; simpl.
  - split; [intros [= <-]; constructor|intros H; now inversion H].
  - destruct (f x) as [y|err] eqn:Hx; simpl.
    + destruct (Promise_all (map f l)) as [ys|err] eqn:Hl; simpl.
      * split.
        -- intros [= <-]. constructor; [exact Hx|]. now apply IH.
        -- intros H. inversion H as [|? y' ? r' Hy Hr]; subst.
           apply IH in Hr. congruence.
      * split; [discriminate|].
        intros H. inversion H as [|? y' ? r' Hy Hr]; subst.
        apply IH in Hr. discriminate.
    + split; [discriminate|].
      intros H. inversion H as [|? y' ? r' Hy Hr]; subst. congruence.
Qed.

(** X20. [findPlaylists] resolves exactly when the Winamp path and the
    playlist profile are given, the playlist document is read and parsed
    and holds a list of playlists, and the file of every accepted
    playlist is read: it then gives one playlist for each entry of the
    document that the filter of the profile accepts, in the order of the
    document, with the title, file name and id the map of the profile
    gives and the tracks of the file; one unreadable playlist file makes
    it reject. *)
Theorem findPlaylists_resolves_iff (A : Type) (env : PlaylistEnv A)
  (waPath : option string) (playlistProfile : option (PlaylistProfile A))
  (playlists : list (Playlist Track)) :
  findPlaylists env waPath playlistProfile = Ok playlists
  <-> exists w profile allPlaylists,
        waPath = Some w
        /\ playlistProfile = Some profile
        /\ (exists xml,
              ple_readFile env
                (ple_join env [ple_join env [w; "Plugins"; "ml"; "playlists"];
                               "playlists.xml"]) "utf-16le" = Ok xml
              /\ ple_parseXml env xml
                 = Ok (mkXmlData (Some (Some allPlaylists))))
        /\ Forall2
             (fun info playlist =>
                exists text,
                  ple_readFile env
                    (ple_join env
                       [ple_join env [w; "Plugins"; "ml"; "playlists"];
                        pi_filename info]) "utf8" = Ok text
                  /\ playlist
                     = mkPlaylist (pi_title info) (pi_filename info)
                         (pi_id info)
                         (map (fun uri =>
                                 mkTrack (getTrackPath env uri
                                            (pp_win32BaseDir profile)))
                              (match ple_segments env text with
                               | Some l => l
                               | None => []
                               end)))
             (acceptedPlaylists profile allPlaylists) playlists.
Proof.
  unfold findPlaylists, parsePlaylistsXml, acceptedPlaylists.
  assert (Hdata : forall plBase base info playlist,
             getPlaylistData env info plBase base = Ok playlist
             <-> exists text,
                   ple_readFile env (ple_join env [plBase; pi_filename info])
                     "utf8" = Ok text
                   /\ playlist
                      = mkPlaylist (pi_title info) (pi_filename info)
                          (pi_id info)
                          (map (fun uri => mkTrack (getTrackPath env uri base))
                               (match ple_segments env text with
                                | Some l => l
                                | None => []
                                end))).
  { intros plBase base info playlist. unfold getPlaylistData, getTrackData.
    destruct (ple_readFile env (ple_join env [plBase; pi_filename info])
                "utf8") as [text|err]; simpl.
    - split.
      + intros [= <-]. exists text. split; reflexivity.
      + intros [text' [[= <-] ->]]. reflexivity.
    - split; [discriminate|]. intros [text' [H _]]. discriminate. }
  split.
  - destruct waPath as [w|]; simpl; [|discriminate].
    destruct (ple_readFile env _ "utf-16le") as [xml|err] eqn:Hread; simpl;
      [|discriminate].
    destruct (ple_parseXml env xml) as [[[[allPlaylists|]|]]|err] eqn:Hxml;
      simpl; try discriminate.
    destruct playlistProfile as [profile|]; simpl; [|discriminate].
    intros Hall. apply Promise_all_map in Hall.
    exists w, profile, allPlaylists. repeat (split; [reflexivity|]).
    split; [exists xml; split; [exact Hread|exact Hxml]|].
    eapply Forall2_impl; [|exact Hall].
    intros info playlist. apply Hdata.
  - intros [w [profile [allPlaylists [-> [-> [[xml [Hread Hxml]] Hall]]]]]].
    simpl. rewrite Hread. simpl. rewrite Hxml. simpl.
    apply Promise_all_map.
    eapply Forall2_impl; [|exact Hall].
    intros info playlist. apply Hdata.
Qed.
(* ================================================================== *)
(** * The cache file *)
(* ================================================================== *)

Lemma readCache_catch (D : Type) (emptyObject : D) (err : JsError) :
  recoversOrRethrows emptyObject
    (if same_string (err_code err) (Some "ENOENT") then Ok emptyObject
     else if err_name err =? "SyntaxError" then Ok emptyObject
     else Throw err)
    err.
Proof.
  unfold recoversOrRethrows, recoverable, same_string.
  destruct (err_code err) as [code|].
  - destruct (String.eqb_spec code "ENOENT") as [->|Hcode].
    + split; [reflexivity|]. intros H. contradiction H. now left.
    + destruct (String.eqb_spec (err_name err) "SyntaxError") as [Hn|Hn].
      * split; [reflexivity|]. intros H. contradiction H. now right.
      * split; [|reflexivity].
        intros [H|H]; [injection H as H|]; contradiction.
  - destruct (String.eqb_spec (err_name err) "SyntaxError") as [Hn|Hn].
    + split; [reflexivity|]. intros H. contradiction H. now right.
    + split; [|reflexivity]. intros [H|H]; [discriminate|contradiction].
Qed.

(** C6, as amended. [readCache] returns what the content of the file
    parses to when reading, unzipping and parsing succeed. When one of
    the three fails, it returns the empty object if the failure is a
    missing file ([ENOENT]) or a text that does not parse
    ([SyntaxError]), and it rethrows every other failure: a file that
    cannot be read, a content that is not a gzip stream, any other error
    of the parser. *)
Theorem readCache_recovers_missing_and_unparsable :
  forall (D : Type) (emptyObject : D)
         (fs_readFile : string -> result (list Byte.byte))
         (gunzip : list Byte.byte -> result (list Byte.byte))
         (JSON_parse : list Byte.byte -> result D) (filepath : string),
    let load := readCache emptyObject fs_readFile gunzip JSON_parse filepath in
    (forall raw unzipped d,
        fs_readFile (filepath ++ ".gz")%string = Ok raw ->
        gunzip raw = Ok unzipped ->
        JSON_parse unzipped = Ok d -> load = Ok d)
    /\ (forall err,
           fs_readFile (filepath ++ ".gz")%string = Throw err ->
           recoversOrRethrows emptyObject load err)
    /\ (forall raw err,
           fs_readFile (filepath ++ ".gz")%string = Ok raw ->
           gunzip raw = Throw err ->
           recoversOrRethrows emptyObject load err)
    /\ (forall raw unzipped err,
           fs_readFile (filepath ++ ".gz")%string = Ok raw ->
           gunzip raw = Ok unzipped ->
           JSON_parse unzipped = Throw err ->
           recoversOrRethrows emptyObject load err).
Proof.
  intros D emptyObject fs_readFile gunzip JSON_parse filepath load.
  unfold load, readCache. split; [|split; [|split]].
  - intros raw unzipped d Hread Hzip Hparse.
    rewrite Hread. simpl. rewrite Hzip. simpl. now rewrite Hparse.
  - intros err Hread. rewrite Hread. simpl. apply readCache_catch.
  - intros raw err Hread Hzip. rewrite Hread. simpl. rewrite Hzip. simpl.
    apply readCache_catch.
  - intros raw unzipped err Hread Hzip Hparse.
    rewrite Hread. simpl. rewrite Hzip. simpl. rewrite Hparse.
    apply readCache_catch.
Qed.

Lemma readCache_recovers_witness :
  readCache [] missingFile gunzipStored parseRecords "cache" = Ok []
  /\ readCache [] truncatedJsonFile gunzipStored parseRecords "cache" = Ok []
  /\ readCache [] unreadableFile gunzipStored parseRecords "cache"
     = Throw (mkError "Error" (Some "EACCES") "permission denied").
Proof.
  split; [|split].
  - refine (proj1 (proj1 (proj2 (readCache_recovers_missing_and_unparsable
              [] missingFile gunzipStored parseRecords "cache"))
              (mkError "Error" (Some "ENOENT") "no such file or directory")
              eq_refl) _).
    left. reflexivity.
  - refine (proj1 (proj2 (proj2 (proj2
              (readCache_recovers_missing_and_unparsable
                 [] truncatedJsonFile gunzipStored parseRecords "cache")))
              _ [Byte.x7b]
              (mkError "SyntaxError" None "Unexpected end of JSON input")
              eq_refl eq_refl eq_refl) _).
    right. reflexivity.
  - refine (proj2 (proj1 (proj2 (readCache_recovers_missing_and_unparsable
              [] unreadableFile gunzipStored parseRecords "cache"))
              (mkError "Error" (Some "EACCES") "permission denied")
              eq_refl) _).
    intros [H|H]; discriminate.
Defined.

(** C6, the claim as stated fails: a cache file whose content is not a
    gzip stream makes [readCache] throw the error of zlib. *)
Lemma readCache_corrupt_gzip_throws :
  readCache ([] : obj FileData) garbageFile gunzipStored parseRecords "cache"
  = Throw (mkError "Error" (Some "Z_DATA_ERROR") "incorrect header check").
Proof. reflexivity. Qed.

(* ================================================================== *)
(** * The scan *)
(* ================================================================== *)

Section ScanFacts.
Variable env : Env.
Variable musicPath : string.
Variable categories : list Category.
Variable options : Options.

Lemma processFile_other (s : ScanState) (file k : string) :
  k <> file ->
  obj_get k (data (fst (processFile env musicPath file categories options s)))
  = obj_get k (data s).
Proof.
  intros Hne. unfold processFile.
  destruct (isFresh env (data s) file (path_join env musicPath file))
    as [[fresh m]|e]; [|reflexivity].
  destruct (fresh && negb (forceRefresh options)); [reflexivity|].
  destruct (processTags env (extname env file) file
              (path_join env musicPath file) (getCategory file categories));
    simpl; [|reflexivity].
  now apply obj_get_set_other.
Qed.

Lemma processFilesStep_other (s : ScanState) (file k : string) :
  k <> file ->
  obj_get k (data (processFilesStep env musicPath categories options s file))
  = obj_get k (data s).
Proof.
  intros Hne. unfold processFilesStep.
  pose proof (@processFile_other s file k Hne) as H.
  destruct (processFile env musicPath file categories options s) as [s1 [b|e]];
    simpl in *; [exact H|].
  rewrite obj_get_set_other; [exact H|exact Hne].
Qed.

Lemma processFiles_other (files : list string) (s : ScanState) (k : string) :
  ~ In k files ->
  obj_get k (data (processFiles env musicPath files categories options s))
  = obj_get k (data s).
Proof.
  revert s. induction files as [|f files IH]; simpl; intros s Hk;
    [reflexivity|].
  rewrite IH; [|intros I; apply Hk; now right].
  apply processFilesStep_other. intros ->. apply Hk. now left.
Qed.

Lemma isFresh_local (d d' : obj FileData) (file filepath : string) :
  obj_get file d' = obj_get file d ->
  isFresh env d' file filepath = isFresh env d file filepath.
Proof. intros H. unfold isFresh. now rewrite H. Qed.

(** What a turn of the loop leaves under the path of its file depends on
    the record under that path alone. *)
Lemma processFilesStep_local (s s' : ScanState) (file : string) :
  obj_get file (data s') = obj_get file (data s) ->
  obj_get file (data (processFilesStep env musicPath categories options s' file))
  = obj_get file (data (processFilesStep env musicPath categories options s file)).
Proof.
  intros H. unfold processFilesStep, processFile.
  erewrite isFresh_local; [|exact H].
  destruct (isFresh env (data s) file (path_join env musicPath file))
    as [[fresh m]|e]; simpl.
  - destruct (fresh && negb (forceRefresh options)); [exact H|].
    destruct (processTags env (extname env file) file
                (path_join env musicPath file) (getCategory file categories));
      simpl; now rewrite !obj_get_set_same.
  - now rewrite !obj_get_set_same.
Qed.

Lemma processFilesStep_throw (s : ScanState) (file : string) (err : JsError) :
  snd (processFile env musicPath file categories options s) = Throw err ->
  obj_get file (data (processFilesStep env musicPath categories options s file))
  = Some (errorRecord (String_of_error err)).
Proof.
  unfold processFilesStep.
  destruct (processFile env musicPath file categories options s) as [s1 [b|e]];
    simpl; [discriminate|].
  intros [= ->]. apply obj_get_set_same.
Qed.

Lemma processFiles_each (files : list string) (s : ScanState) :
  NoDup files ->
  forall file, In file files ->
    obj_get file (data (processFiles env musicPath files categories options s))
    = obj_get file
        (data (processFilesStep env musicPath categories options s file)).
Proof.
  revert s. induction files as [|f files IH]; simpl; intros s Hnd file Hin;
    [destruct Hin|].
  inversion Hnd as [|? ? Hnot Hnd']; subst.
  destruct Hin as [->|Hin].
  - now apply processFiles_other.
  - rewrite (IH _ Hnd' file Hin).
    apply processFilesStep_local. apply processFilesStep_other.
    intros ->. contradiction.
Qed.
End ScanFacts.


Lemma String_of_error_reason (err : JsError) :
  reasonOf err (String_of_error err).
Proof.
  unfold String_of_error.
  destruct (err_key err) as [key|] eqn:Hkey; [now apply reason_internal|].
  destruct (String.eqb_spec (err_name err) "") as [Hname|Hname].
  - now apply reason_message.
  - destruct (String.eqb_spec (err_message err) "") as [Hmsg|Hmsg].
    + now apply reason_name.
    + now apply reason_plain.
Qed.

(** C7. [processFiles] returns for every batch: a throw of [processFile]
    is caught inside the loop. Over a duplicate-free batch, a file whose
    processing throws is left with a record that holds the text of the
    error as [error] and nothing else; every other file of the batch is
    left with what processing it leaves, whatever happened to the files
    before it; and no record of a path outside the batch is touched. *)
Theorem processFiles_isolates_failures :
  forall (env : Env) (musicPath : string) (categories : list Category)
         (options : Options) (files : list string) (s : ScanState),
    NoDup files ->
    let after := data (processFiles env musicPath files categories options s) in
    (forall file s1 err, In file files ->
        processFile env musicPath file categories options s
        = (s1, Throw err) ->
        exists reason,
          reasonOf err reason
          /\ obj_get file after
             = Some (mkFileData None None None None None None None None
                       (Some reason)))
    /\ (forall file s1 skipped, In file files ->
          processFile env musicPath file categories options s
          = (s1, Ok skipped) ->
          obj_get file after = obj_get file (data s1))
    /\ (forall k, ~ In k files -> obj_get k after = obj_get k (data s)).
Proof.
  intros env musicPath categories options files s Hnd after. unfold after.
  split; [|split].
  - intros file s1 err Hin Hthrow. rewrite processFiles_each by assumption.
    exists (String_of_error err). split; [apply String_of_error_reason|].
    apply processFilesStep_throw. now rewrite Hthrow.
  - intros file s1 skipped Hin Hok. rewrite processFiles_each by assumption.
    unfold processFilesStep. now rewrite Hok.
  - intros k Hk. now apply processFiles_other.
Qed.

Lemma processFiles_isolates_failures_witness :
  let after :=
    data (processFiles failingEnv "music" ["m/2.mp3"; "m/1.mp3"]
            [musicCategory] defaultOptions (mkScanState [] [])) in
  (exists reason,
      reasonOf (mkError "Error" None "End-Of-Stream") reason
      /\ obj_get "m/2.mp3" after
         = Some (mkFileData None None None None None None None None
                   (Some reason)))
  /\ obj_get "m/2.mp3" after
     = Some (mkFileData None None None None None None None None
               (Some "Error: End-Of-Stream"))
  /\ obj_get "m/1.mp3" after
     = Some (mkFileData (Some (exampleTags "X" "Y" "m/1.mp3" VNull VNull))
               (Some []) (Some []) (Some (mkMeta (Some "music")))
               (Some "m/1.mp3") (Some 1700000001000%Z)
               (Some 1700000000000%Z) (Some "mp3") None)
  /\ obj_get "m/3.mp3" after = None.
Proof.
  intros after.
  destruct (@processFiles_isolates_failures failingEnv "music"
              [musicCategory] defaultOptions ["m/2.mp3"; "m/1.mp3"]
              (mkScanState [] []))
    as [Hthrow [Hok Hother]].
  { repeat constructor; simpl; intuition discriminate. }
  split; [|split; [|split]].
  - eapply (Hthrow "m/2.mp3"); [left; reflexivity|reflexivity].
  - reflexivity.
  - etransitivity; [eapply (Hok "m/1.mp3"); [right; left|]; reflexivity|].
    reflexivity.
  - etransitivity; [apply (Hother "m/3.mp3")|reflexivity].
    simpl. intuition discriminate.
Defined.

(* ================================================================== *)
(** * Pruning and re-scanning *)
(* ================================================================== *)

Section PruneFacts.
Variable env : Env.
Variable musicPath : string.

Lemma checkEntries_error_record (es : list (string * FileData))
  (d : obj FileData) (key : string) (r : FileData) :
  In (key, r) es -> file r = None ->
  exists e, checkEntries env musicPath es d = Throw e.
Proof.
  revert d. induction es as [|[k v] es IH]; simpl; intros d Hin Hfile;
    [destruct Hin|].
  destruct Hin as [E|Hin].
  - injection E as -> ->. rewrite Hfile. simpl. eexists. reflexivity.
  - destruct (join_checked env musicPath (file v)) as [p|e]; simpl;
      [|eexists; reflexivity].
    destruct (fileExists env p) as [[|]|e]; simpl;
      [now apply IH|now apply IH|eexists; reflexivity].
Qed.

(** A pass that completes kept only entries that passed the check. *)
Lemma checkEntries_kept (es : list (string * FileData)) (d d' : obj FileData) :
  checkEntries env musicPath es d = Ok d' ->
  (forall e, In e d' -> In e d)
  /\ (forall e, In e es -> In e d' -> kept env musicPath e = true)
  /\ (forall e, In e d ->
        (forall e0, In e0 es -> fst e0 = fst e -> kept env musicPath e0 = true) ->
        In e d').
Proof.
  revert d. induction es as [|[k v] es IH]; simpl; intros d H.
  - injection H as <-. split; [auto|]. split; [intros e []|auto].
  - unfold kept at 1. unfold join_checked in H.
    destruct (file v) as [p|] eqn:Hfile; simpl in H; [|discriminate].
    destruct (fileExists env (path_join env musicPath p)) as [[|]|e] eqn:Hex;
      simpl in H; [| |discriminate].
    + destruct (IH _ H) as [Hsub [Hk Hall]]. split; [exact Hsub|]. split.
      * intros e0 [<-|He0] Hin.
        -- unfold kept. simpl. now rewrite Hfile, Hex.
        -- now apply Hk.
      * intros e0 Hin Hpass. apply Hall; [exact Hin|].
        intros e1 He1. apply Hpass. now right.
    + destruct (IH _ H) as [Hsub [Hk Hall]].
      assert (Hdel : forall e0, In e0 d' -> In e0 d /\ fst e0 <> k).
      { intros e0 He0. apply Hsub in He0. unfold obj_delete in He0.
        apply filter_In in He0 as [Hin Hneq]. split; [exact Hin|].
        intros <-. now rewrite String.eqb_refl in Hneq. }
      split; [intros e0 He0; now apply Hdel|]. split.
      * intros e0 [<-|He0] Hin.
        -- exfalso. destruct (Hdel _ Hin) as [_ Hneq]. now apply Hneq.
        -- now apply Hk.
      * intros e0 Hin Hpass. apply Hall.
        -- unfold obj_delete. apply filter_In. split; [exact Hin|].
           destruct (String.eqb_spec (fst e0) k) as [Heq|_]; [|reflexivity].
           exfalso. specialize (Hpass (k, v) (or_introl eq_refl) (eq_sym Heq)).
           unfold kept in Hpass. simpl in Hpass. now rewrite Hfile, Hex in Hpass.
        -- intros e1 He1. apply Hpass. now right.
Qed.

End PruneFacts.

Lemma sortFiles_In (files : list string) (f : string) :
  In f (sortFiles files) <-> In f files.
Proof. apply orderBy_In. Qed.

Lemma sortFiles_NoDup (files : list string) :
  NoDup files -> NoDup (sortFiles files).
Proof.
  intros H. eapply Permutation_NoDup; [|exact H].
  symmetry. apply orderBy_perm.
Qed.

(** C10. A record set that holds an error-only record makes
    [checkFileExistence] throw: the loop builds the path from the [file]
    field of each record, and the error record has none; when it is the
    first entry the throw is the [TypeError] of [path.join], the
    [ERR_INVALID_ARG_TYPE] of its argument validation. Hence a file
    whose processing throws, in a scan over a duplicate-free enumeration,
    makes the scan throw before the cache is written. *)
Theorem prune_throws_on_error_only_record :
  forall (env : Env) (musicPath : string),
    (forall d key r,
        In (key, r) d -> file r = None ->
        exists e, checkFileExistence env musicPath d = Throw e)
    /\ (forall d key reason,
           checkFileExistence env musicPath ((key, errorRecord reason) :: d)
           = Throw invalidPathArgument)
    /\ (forall categories options cache f err,
           NoDup (fg env musicPath) ->
           In f (fg env musicPath) ->
           snd (processFile env musicPath f categories options
                  (mkScanState cache [])) = Throw err ->
           exists e,
             fst (scan env musicPath categories options cache) = Throw e
             /\ persisted cache (scan env musicPath categories options cache)
                = cache).
Proof.
  intros env musicPath. split; [|split].
  - intros d key r Hin Hfile. unfold checkFileExistence, entries.
    eapply checkEntries_error_record; eassumption.
  - reflexivity.
  - intros categories options cache f err Hnd Hin Hthrow.
    unfold persisted, scan. simpl.
    set (s := processFiles env musicPath (findFiles env musicPath) categories
                options (mkScanState cache [])).
    assert (Hrec : obj_get f (data s)
                   = Some (errorRecord (String_of_error err))).
    { unfold s. rewrite processFiles_each.
      - now apply processFilesStep_throw.
      - unfold findFiles. now apply sortFiles_NoDup.
      - unfold findFiles. now apply sortFiles_In. }
    apply obj_get_In in Hrec.
    destruct (@checkEntries_error_record env musicPath (entries (data s))
                (data s) f _ Hrec eq_refl) as [e He].
    exists e. unfold checkFileExistence. rewrite He. split; reflexivity.
Qed.

Lemma prune_throws_witness :
  (exists e,
      checkFileExistence failingEnv "music"
        [("m/1.mp3", exampleRecord "m/1.mp3" "X" "Y" VNull VNull);
         ("m/2.mp3", errorRecord "Error: End-Of-Stream")] = Throw e)
  /\ (exists e,
         fst (scan failingEnv "music" [musicCategory] defaultOptions [])
         = Throw e
         /\ persisted [] (scan failingEnv "music" [musicCategory]
                            defaultOptions []) = []).
Proof.
  split.
  - apply (proj1 (prune_throws_on_error_only_record failingEnv "music")
             _ "m/2.mp3" (errorRecord "Error: End-Of-Stream")).
    + right. left. reflexivity.
    + reflexivity.
  - apply (proj2 (proj2 (prune_throws_on_error_only_record failingEnv "music"))
             [musicCategory] defaultOptions [] "m/2.mp3"
             (mkError "Error" None "End-Of-Stream")).
    + repeat constructor; simpl; intuition discriminate.
    + right. left. reflexivity.
    + reflexivity.
Defined.

(** X2. A pruning pass that completes over a record set with distinct keys
    keeps exactly the entries whose file exists. *)
Lemma prune_keeps_existing_files (env : Env) (musicPath : string)
  (d d' : obj FileData) :
  NoDup (keys d) ->
  checkFileExistence env musicPath d = Ok d' ->
  forall e, In e d' <-> In e d /\ kept env musicPath e = true.
Proof.
  intros Hnd Hrun e. unfold checkFileExistence, entries in Hrun.
  destruct (@checkEntries_kept env musicPath d d d' Hrun)
    as [Hsub [Hkept Hall]].
  split.
  - intros Hin. split; [now apply Hsub|].
    apply Hkept; [now apply Hsub|exact Hin].
  - intros [Hin Hk]. apply Hall; [exact Hin|].
    intros [k0 r0] Hin0 Hfst. destruct e as [k r]. simpl in Hfst. subst k0.
    assert (r0 = r).
    { pose proof (@obj_get_NoDup _ k r0 d Hnd Hin0) as H0.
      pose proof (@obj_get_NoDup _ k r d Hnd Hin) as H1. congruence. }
    now subst r0.
Qed.

Lemma prune_keeps_existing_files_witness :
  let gone := ("m/2.mp3", exampleRecord "m/2.mp3" "X" "Y" VNull VNull) in
  In gone [("m/1.mp3", exampleRecord "m/1.mp3" "X" "Y" VNull VNull)]
  <-> In gone [("m/1.mp3", exampleRecord "m/1.mp3" "X" "Y" VNull VNull); gone]
      /\ kept prunedEnv "music" gone = true.
Proof.
  apply (@prune_keeps_existing_files prunedEnv "music").
  - repeat constructor; simpl; intuition discriminate.
  - reflexivity.
Defined.

Section RescanFacts.
Variable env : Env.
Variable musicPath : string.
Variable categories : list Category.
Variable options : Options.

Lemma isFresh_iff (d : obj FileData) (file filepath : string) (b : bool)
  (m : Z) :
  isFresh env d file filepath = Ok (b, m) ->
  stat_mtimeMs env filepath = Ok m
  /\ (b = true <-> exists r, obj_get file d = Some r /\ mtime r = Some m).
Proof.
  unfold isFresh.
  destruct (stat_mtimeMs env filepath) as [m'|e]; simpl; [|discriminate].
  intros [= <- <-]. split; [reflexivity|].
  destruct (obj_get file d) as [r|].
  - destruct (mtime r) as [m0|] eqn:Hm0.
    + rewrite Z.eqb_eq. split.
      * intros ->. now exists r.
      * intros [r' [[= <-] Hm]]. congruence.
    + split; [discriminate|]. intros [r' [[= <-] Hm]]. congruence.
  - split; [discriminate|]. intros [r' [Hr _]]. discriminate.
Qed.

Lemma processFilesStep_scanned (s : ScanState) (file : string) :
  scanned env musicPath
    (data (processFilesStep env musicPath categories options s file)) file.
Proof.
  unfold scanned, processFilesStep, processFile.
  destruct (isFresh env (data s) file (path_join env musicPath file))
    as [[fresh m]|e] eqn:Hfresh; simpl.
  - apply isFresh_iff in Hfresh as [Hstat Hiff].
    destruct (fresh && negb (forceRefresh options)) eqn:Hskip; simpl.
    + apply andb_prop in Hskip as [-> _].
      destruct (proj1 Hiff eq_refl) as [r [Hr Hm]].
      exists r. split; [exact Hr|]. right. now exists m.
    + destruct (processTags env (extname env file) file
                  (path_join env musicPath file) (getCategory file categories));
        simpl; rewrite obj_get_set_same; eexists; split; try reflexivity.
      * right. exists m. now split.
      * now left.
  - rewrite obj_get_set_same. eexists. split; [reflexivity|now left].
Qed.

Lemma processFiles_scanned (files : list string) (s : ScanState) (f : string) :
  In f files ->
  scanned env musicPath
    (data (processFiles env musicPath files categories options s)) f.
Proof.
  revert s. induction files as [|f0 files IH]; simpl; intros s Hin;
    [destruct Hin|].
  destruct (in_dec string_dec f files) as [Hf|Hf]; [now apply IH|].
  destruct Hin as [->|Hin]; [|contradiction].
  unfold scanned. rewrite processFiles_other by exact Hf.
  apply processFilesStep_scanned.
Qed.

Lemma processFilesStep_filed (s : ScanState) (file : string) :
  filedUnderOwnPath (data s) ->
  filedUnderOwnPath
    (data (processFilesStep env musicPath categories options s file)).
Proof.
  intros Hwf. unfold processFilesStep, processFile.
  destruct (isFresh env (data s) file (path_join env musicPath file))
    as [[fresh m]|e]; simpl.
  - destruct (fresh && negb (forceRefresh options)); simpl; [exact Hwf|].
    destruct (processTags env (extname env file) file
                (path_join env musicPath file) (getCategory file categories));
      simpl; intros k r p Hin Hfile;
      apply obj_set_In in Hin as [E|Hin];
      try (injection E as -> ->; simpl in Hfile; congruence);
      eapply Hwf; eassumption.
  - intros k r p Hin Hfile. apply obj_set_In in Hin as [E|Hin].
    + injection E as -> ->. discriminate.
    + eapply Hwf; eassumption.
Qed.

Lemma processFiles_filed (files : list string) (s : ScanState) :
  filedUnderOwnPath (data s) ->
  filedUnderOwnPath
    (data (processFiles env musicPath files categories options s)).
Proof.
  revert s. induction files as [|f files IH]; simpl; intros s Hwf;
    [exact Hwf|].
  apply IH. now apply processFilesStep_filed.
Qed.


Lemma checkEntries_get (es : list (string * FileData)) (d d' : obj FileData)
  (k : string) :
  checkEntries env musicPath es d = Ok d' ->
  (forall e0, In e0 es -> fst e0 = k -> kept env musicPath e0 = true) ->
  obj_get k d' = obj_get k d.
Proof.
  revert d. induction es as [|[k0 v] es IH]; simpl; intros d H Hpass.
  - now injection H as <-.
  - pose proof (Hpass (k0, v) (or_introl eq_refl)) as Hhead.
    unfold kept in Hhead. simpl in Hhead. unfold join_checked in H.
    destruct (file v) as [p|]; simpl in H; [|discriminate].
    destruct (fileExists env (path_join env musicPath p)) as [[|]|e];
      simpl in H; [| |discriminate].
    + apply IH; [exact H|]. intros e0 He0. apply Hpass. now right.
    + rewrite (IH _ H); [|intros e0 He0; apply Hpass; now right].
      apply obj_get_delete_other. intros <-.
      specialize (Hhead eq_refl). discriminate.
Qed.
End RescanFacts.


(* ================================================================== *)
(** * More on the scan *)
(* ================================================================== *)

Section ScanMore.
Variable env : Env.
Variable musicPath : string.
Variable categories : list Category.
Variable options : Options.

Lemma processFilesStep_extracted (s : ScanState) (file : string) :
  extracted (processFilesStep env musicPath categories options s file)
  = extracted s
    ++ (if needsExtraction env musicPath options (data s) file
        then [file] else []).
Proof.
  unfold processFilesStep, processFile, needsExtraction.
  destruct (isFresh env (data s) file (path_join env musicPath file))
    as [[fresh m]|err]; simpl; [|now rewrite app_nil_r].
  destruct (fresh && negb (forceRefresh options)); simpl;
    [now rewrite app_nil_r|].
  destruct (processTags env _ file _ _); reflexivity.
Qed.

Lemma needsExtraction_local (d d' : obj FileData) (f : string) :
  obj_get f d' = obj_get f d ->
  needsExtraction env musicPath options d' f
  = needsExtraction env musicPath options d f.
Proof.
  intros H. unfold needsExtraction.
  now rewrite (@isFresh_local env d d' f (path_join env musicPath f) H).
Qed.

Lemma processFiles_extracted (files : list string) :
  NoDup files ->
  forall s,
    extracted (processFiles env musicPath files categories options s)
    = extracted s
      ++ filter (needsExtraction env musicPath options (data s)) files.
Proof.
  induction 1 as [|f files Hnot Hnd IH]; intros s; simpl.
  - now rewrite app_nil_r.
  - rewrite IH, processFilesStep_extracted, <- app_assoc. f_equal.
    assert (E : filter (needsExtraction env musicPath options
                          (data (processFilesStep env musicPath categories
                                   options s f))) files
                = filter (needsExtraction env musicPath options (data s))
                    files).
    { apply filter_ext_in. intros f' Hf'. apply needsExtraction_local.
      apply processFilesStep_other. intros ->. contradiction. }
    rewrite E.
    now destruct (needsExtraction env musicPath options (data s) f).
Qed.

Lemma checkEntries_returns (es : list (string * FileData)) :
  forall d,
    (exists d', checkEntries env musicPath es d = Ok d')
    <-> forall e, In e es -> checkable env musicPath e.
Proof.
  induction es as [|[key value] es IH]; intros d; simpl.
  - split; [intros _ e []|intros _; eexists; reflexivity].
  - unfold join_checked.
    destruct (file value) as [p|] eqn:Hfile; simpl.
    + destruct (fileExists env (path_join env musicPath p)) as [b|err]
        eqn:Hex; simpl.
      * assert (Hhead : checkable env musicPath (key, value))
          by (exists p, b; split; [exact Hfile|exact Hex]).
        destruct b; rewrite IH; split;
          try (intros H e [<-|He]; [exact Hhead|now apply H]);
          intros H e He; apply H; now right.
      * split; [intros [d' H]; discriminate|].
        intros H. destruct (H (key, value) (or_introl eq_refl))
          as [p' [b [Hp Hb]]]. simpl in Hp. rewrite Hfile in Hp.
        injection Hp as <-. rewrite Hex in Hb. discriminate.
    + split; [intros [d' H]; discriminate|].
      intros H. destruct (H (key, value) (or_introl eq_refl))
        as [p' [b [Hp _]]]. simpl in Hp. rewrite Hfile in Hp. discriminate.
Qed.
End ScanMore.

(** X21. [processFiles] invokes the extractor exactly on the files whose
    modification time can be read and whose record in the cache is not
    fresh, or on all the files whose modification time can be read when a
    refresh is forced; once on each, in the order of the files, and what
    the scan writes for one file does not change the verdict on another.
    The file list has no duplicates. *)
Theorem extractor_invoked_on_stale_files (env : Env) (musicPath : string)
  (categories : list Category) (options : Options) (files : list string)
  (s : ScanState) :
  NoDup files ->
  extracted (processFiles env musicPath files categories options s)
  = extracted s ++ filter (needsExtraction env musicPath options (data s)) files
  /\ (forceRefresh options = true ->
      extracted (processFiles env musicPath files categories options s)
      = extracted s
        ++ filter (fun f =>
                     match stat_mtimeMs env (path_join env musicPath f) with
                     | Ok _ => true
                     | Throw _ => false
                     end) files).
Proof.
  intros Hnd. split; [now apply processFiles_extracted|].
  intros Hforce. rewrite processFiles_extracted by exact Hnd. f_equal.
  apply filter_ext. intros f. unfold needsExtraction, isFresh.
  destruct (stat_mtimeMs env (path_join env musicPath f)); simpl;
    [|reflexivity].
  now rewrite Hforce, andb_false_r.
Qed.

Lemma extractor_invoked_witness :
  extracted (processFiles healthyEnv "music" ["m/1.mp3"; "m/2.mp3"]
               [musicCategory] defaultOptions (mkScanState healthyCache []))
  = [] ++ filter (needsExtraction healthyEnv "music" defaultOptions
                    healthyCache) ["m/1.mp3"; "m/2.mp3"]
  /\ (forceRefresh defaultOptions = true ->
      extracted (processFiles healthyEnv "music" ["m/1.mp3"; "m/2.mp3"]
                   [musicCategory] defaultOptions
                   (mkScanState healthyCache []))
      = [] ++ filter (fun f =>
                        match stat_mtimeMs healthyEnv
                                (path_join healthyEnv "music" f) with
                        | Ok _ => true
                        | Throw _ => false
                        end) ["m/1.mp3"; "m/2.mp3"]).
Proof.
  apply (@extractor_invoked_on_stale_files healthyEnv "music" [musicCategory]
           defaultOptions ["m/1.mp3"; "m/2.mp3"]
           (mkScanState healthyCache [])).
  repeat constructor; simpl; intuition discriminate.
Defined.

(** X22. The pruning pass completes exactly when every record names a
    file and every check whether a file exists comes to an answer, that
    is, the access succeeds or fails with [ENOENT] or [EACCES]; a record
    without [file] or an access that fails otherwise makes it throw. *)
Theorem prune_returns_iff_checkable (env : Env) (musicPath : string)
  (d : obj FileData) :
  ((exists d', checkFileExistence env musicPath d = Ok d')
   <-> forall e, In e d -> checkable env musicPath e)
  /\ (forall p b,
        fileExists env p = Ok b
        <-> (b = true /\ fs_access env p = Ok tt)
            \/ (b = false
                /\ exists err, fs_access env p = Throw err
                     /\ (err_code err = Some "ENOENT"
                         \/ err_code err = Some "EACCES"))).
Proof.
  split; [apply checkEntries_returns|].
  intros p b. unfold fileExists, fileAccessCheck.
  destruct (fs_access env p) as [[]|err] eqn:Hacc.
  - split.
    + intros [= <-]. left. split; reflexivity.
    + intros [[-> _]|[_ [err [H _]]]]; [reflexivity|discriminate].
  - destruct (err_code err) as [code|] eqn:Hcode; simpl.
    + destruct (String.eqb_spec code "ENOENT") as [->|Hne1]; simpl.
      * split.
        -- intros [= <-]. right. split; [reflexivity|].
           exists err. split; [reflexivity|]. now left.
        -- intros [[_ H]|[-> _]]; [discriminate|reflexivity].
      * destruct (String.eqb_spec code "EACCES") as [->|Hne2]; simpl.
        -- split.
           ++ intros [= <-]. right. split; [reflexivity|].
              exists err. split; [reflexivity|]. now right.
           ++ intros [[_ H]|[-> _]]; [discriminate|reflexivity].
        -- split; [discriminate|].
           intros [[_ H]|[_ [err' [[= <-] [H|H]]]]]; try discriminate;
             rewrite Hcode in H; congruence.
    + split; [discriminate|].
      intros [[_ H]|[_ [err' [[= <-] [H|H]]]]]; try discriminate;
        rewrite Hcode in H; discriminate.
Qed.

Lemma split_slash_plain (seg : string) :
  noSlash seg = true ->
  forall cur, split_from "/" 0 cur seg = [(cur ++ seg)%string].
Proof.
  induction seg as [|c seg IH]; intros H cur.
  - simpl. f_equal. clear. induction cur as [|x cur IH]; simpl;
      [reflexivity|now rewrite <- IH].
  - cbn [noSlash] in H. apply andb_true_iff in H. destruct H as [Hc Hseg].
    cbn [split_from String.prefix].
    destruct (ascii_dec "/" c) as [<-|Hne]; [discriminate|].
    rewrite (IH Hseg). now rewrite string_append_assoc.
Qed.

Lemma split_slash_first (seg rest : string) :
  noSlash seg = true ->
  forall cur,
    split_from "/" 0 cur (seg ++ String "/" rest)
    = (cur ++ seg)%string :: split_from "/" 0 "" rest.
Proof.
  induction seg as [|c seg IH]; intros H cur.
  - cbn [String.append split_from String.prefix].
    destruct (ascii_dec "/" "/") as [_|Hne]; [|contradiction].
    assert (E : String.prefix "" rest = true) by (now destruct rest).
    rewrite E. change (String.length "/" - 1) with 0. f_equal. clear.
    induction cur as [|x cur IH]; simpl; [reflexivity|now rewrite <- IH].
  - cbn [noSlash] in H. apply andb_true_iff in H. destruct H as [Hc Hseg].
    cbn [String.append split_from String.prefix].
    destruct (ascii_dec "/" c) as [<-|Hne]; [discriminate|].
    rewrite (IH Hseg). now rewrite string_append_assoc.
Qed.

(** X23. [getBaseDir] returns the first segment of the path: what comes
    before the first slash, or the whole path when it has no slash; one
    leading slash is passed over, so a path that starts with two slashes
    has the empty base directory. *)
Theorem getBaseDir_first_segment (seg rest : string) :
  noSlash seg = true ->
  seg <> "" ->
  getBaseDir seg = seg
  /\ getBaseDir (seg ++ String "/" rest)%string = seg
  /\ getBaseDir (String "/" seg) = seg
  /\ getBaseDir (String "/" (seg ++ String "/" rest)%string) = seg
  /\ getBaseDir (String "/" (String "/" rest)) = "".
Proof.
  intros Hseg Hne. unfold getBaseDir, str_split.
  assert (Hhead : forall s, match (seg ++ s)%string with
                            | String "/" r => r
                            | _ => (seg ++ s)%string
                            end = (seg ++ s)%string).
  { intros s. destruct seg as [|c seg']; [contradiction|]. simpl in *.
    apply andb_true_iff in Hseg. destruct Hseg as [Hc _].
    destruct (Ascii.eqb_spec c "/") as [->|Hc']; [discriminate|].
    destruct c as [[] [] [] [] [] [] [] []]; try reflexivity.
    contradiction. }
  repeat split.
  - pose proof (Hhead "") as H. assert (E : (seg ++ "")%string = seg).
    { clear. induction seg as [|c s IH]; simpl; [reflexivity|now rewrite IH]. }
    rewrite E in H. rewrite H. now rewrite (@split_slash_plain seg Hseg "").
  - rewrite Hhead. now rewrite (@split_slash_first seg rest Hseg "").
  - now rewrite (@split_slash_plain seg Hseg "").
  - now rewrite (@split_slash_first seg rest Hseg "").
  - simpl. assert (E : String.prefix "" rest = true) by (now destruct rest).
    now rewrite E.
Qed.

Lemma getBaseDir_first_segment_witness :
  getBaseDir "m" = "m"
  /\ getBaseDir ("m" ++ String "/" "a/1.mp3")%string = "m"
  /\ getBaseDir (String "/" "m") = "m"
  /\ getBaseDir (String "/" ("m" ++ String "/" "a/1.mp3")%string) = "m"
  /\ getBaseDir (String "/" (String "/" "a/1.mp3")) = "".
Proof.
  apply (@getBaseDir_first_segment "m" "a/1.mp3").
  - reflexivity.
  - discriminate.
Defined.

Lemma processFilesStep_NoDup (env : Env) (musicPath : string)
  (categories : list Category) (options : Options) (s : ScanState)
  (file : string) :
  NoDup (keys (data s)) ->
  NoDup (keys (data (processFilesStep env musicPath categories options s
                       file))).
Proof.
  intros H. unfold processFilesStep, processFile.
  destruct (isFresh env (data s) file (path_join env musicPath file))
    as [[fresh m]|err]; simpl; [|now apply obj_set_NoDup].
  destruct (fresh && negb (forceRefresh options)); simpl; [exact H|].
  destruct (processTags env _ file _ _); simpl; now apply obj_set_NoDup.
Qed.

Lemma processFiles_NoDup (env : Env) (musicPath : string)
  (categories : list Category) (options : Options) (files : list string) :
  forall s,
    NoDup (keys (data s)) ->
    NoDup (keys (data (processFiles env musicPath files categories options
                         s))).
Proof.
  induction files as [|f files IH]; intros s H; simpl; [exact H|].
  apply IH. now apply processFilesStep_NoDup.
Qed.

(** X25. A scan that completes has indexed every file it enumerated and
    that exists: the record set it hands to the cache holds, under the
    path of the file, a record that names the file and carries the
    modification time the file has now. The cache read at the start has
    distinct paths and every record of it is stored under its own path. *)
Theorem scan_indexes_every_existing_file (env : Env) (musicPath : string)
  (categories : list Category) (options : Options) (cache d : obj FileData)
  (calls : list string) :
  NoDup (keys cache) ->
  filedUnderOwnPath cache ->
  scan env musicPath categories options cache = (Ok d, calls) ->
  forall f,
    In f (fg env musicPath) ->
    fileExists env (path_join env musicPath f) = Ok true ->
    exists r m,
      obj_get f d = Some r /\ file r = Some f /\ mtime r = Some m
      /\ stat_mtimeMs env (path_join env musicPath f) = Ok m.
Proof.
  intros Hnd Hfiled Hscan f Hf Hex. unfold scan, findFiles in Hscan.
  set (s := processFiles env musicPath (sortFiles (fg env musicPath))
              categories options (mkScanState cache [])) in *.
  injection Hscan as Hcheck _.
  assert (Hin : In f (sortFiles (fg env musicPath)))
    by now apply sortFiles_In.
  destruct (@processFiles_scanned env musicPath categories options
              (sortFiles (fg env musicPath)) (mkScanState cache []) f Hin)
    as [r [Hget Hr]].
  fold s in Hget.
  pose proof (@processFiles_filed env musicPath categories options
                (sortFiles (fg env musicPath)) (mkScanState cache [])
                Hfiled) as Hfiled'.
  fold s in Hfiled'.
  pose proof (@processFiles_NoDup env musicPath categories options
                (sortFiles (fg env musicPath)) (mkScanState cache []) Hnd)
    as Hnd'.
  fold s in Hnd'.
  pose proof (obj_get_In _ _ Hget) as Hmem.
  destruct (file r) as [p|] eqn:Hfile.
  - assert (p = f) by (eapply Hfiled'; eassumption). subst p.
    destruct Hr as [Hnone|[m [Hm Hstat]]]; [discriminate|].
    exists r, m. split; [|split; [exact Hfile|split; assumption]].
    unfold checkFileExistence in Hcheck.
    rewrite (@checkEntries_get env musicPath (entries (data s)) (data s) d f
               Hcheck); [exact Hget|].
    intros [k0 r0] Hin0 Hk0. simpl in Hk0. subst k0.
    assert (r0 = r).
    { pose proof (@obj_get_NoDup _ f r0 (data s) Hnd' Hin0) as H0.
      congruence. }
    subst r0. unfold kept. simpl. now rewrite Hfile, Hex.
  - destruct (@checkEntries_error_record env musicPath (entries (data s))
                (data s) f r Hmem Hfile) as [e He].
    unfold checkFileExistence in Hcheck. congruence.
Qed.

Lemma scan_indexes_every_existing_file_witness :
  exists r m,
    obj_get "m/1.mp3" healthyCache = Some r
    /\ file r = Some "m/1.mp3" /\ mtime r = Some m
    /\ stat_mtimeMs healthyEnv (path_join healthyEnv "music" "m/1.mp3")
       = Ok m.
Proof.
  apply (@scan_indexes_every_existing_file healthyEnv "music" [musicCategory]
           defaultOptions [] healthyCache ["m/1.mp3"; "m/2.mp3"]).
  - constructor.
  - intros k r p [].
  - reflexivity.
  - left. reflexivity.
  - reflexivity.
Defined.

(* ================================================================== *)
(** * Objects built alike *)
(* ================================================================== *)

Section ParallelFacts.
Variables A B : Type.
Variable R : A -> B -> Prop.

Lemma parallel_keys (o1 : obj A) (o2 : obj B) :
  parallel R o1 o2 -> keys o1 = keys o2.
Proof.
  induction 1 as [|[k1 a] [k2 b] o1 o2 [Hk _] _ IH]; simpl;
    [reflexivity|].
  simpl in Hk. now rewrite Hk, IH.
Qed.

Lemma parallel_length (o1 : obj A) (o2 : obj B) :
  parallel R o1 o2 -> List.length o1 = List.length o2.
Proof. apply Forall2_length. Qed.

Lemma parallel_has (o1 : obj A) (o2 : obj B) (k : string) :
  parallel R o1 o2 -> obj_has k o1 = obj_has k o2.
Proof.
  unfold obj_has.
  induction 1 as [|[k1 a] [k2 b] o1 o2 [Hk _] _ IH]; simpl;
    [reflexivity|].
  simpl in Hk. subst k2. destruct (k1 =? k); [reflexivity|exact IH].
Qed.

Lemma parallel_replace (o1 : obj A) (o2 : obj B) (k : string) (a : A) (b : B) :
  parallel R o1 o2 -> R a b ->
  parallel R (obj_replace k a o1) (obj_replace k b o2).
Proof.
  intros H Hab.
  induction H as [|[k1 a1] [k2 b1] o1 o2 [Hk Hr] Hrest IH]; simpl;
    [constructor|].
  simpl in Hk, Hr. subst k2. destruct (k1 =? k).
  - constructor; [now split|exact Hrest].
  - constructor; [now split|exact IH].
Qed.

Lemma parallel_insert_index (o1 : obj A) (o2 : obj B) (n : N) (k : string)
  (a : A) (b : B) :
  parallel R o1 o2 -> R a b ->
  parallel R (obj_insert_index n k a o1) (obj_insert_index n k b o2).
Proof.
  intros H Hab.
  induction H as [|[k1 a1] [k2 b1] o1 o2 [Hk Hr] Hrest IH]; simpl.
  - constructor; [now split|constructor].
  - simpl in Hk, Hr. subst k2.
    destruct (array_index k1) as [n1|]; [destruct (n <? n1)%N|].
    + constructor; [now split|]. constructor; [now split|exact Hrest].
    + constructor; [now split|exact IH].
    + constructor; [now split|]. constructor; [now split|exact Hrest].
Qed.

Lemma parallel_set (o1 : obj A) (o2 : obj B) (k : string) (a : A) (b : B) :
  parallel R o1 o2 -> R a b -> parallel R (obj_set k a o1) (obj_set k b o2).
Proof.
  intros H Hab. unfold obj_set. rewrite <- (parallel_has k H).
  destruct (obj_has k o1).
  - now apply parallel_replace.
  - destruct (array_index k).
    + now apply parallel_insert_index.
    + apply Forall2_app; [exact H|]. constructor; [now split|constructor].
Qed.

Lemma parallel_fold_set (l1 : list (string * A)) (l2 : list (string * B))
  (o1 : obj A) (o2 : obj B) :
  parallel R l1 l2 -> parallel R o1 o2 ->
  parallel R
    (fold_left (fun o kv => obj_set (fst kv) (snd kv) o) l1 o1)
    (fold_left (fun o kv => obj_set (fst kv) (snd kv) o) l2 o2).
Proof.
  intros H. revert o1 o2.
  induction H as [|[k1 a] [k2 b] l1 l2 [Hk Hr] _ IH]; simpl; intros o1 o2 Ho;
    [exact Ho|].
  simpl in Hk, Hr. subst k2. apply IH. now apply parallel_set.
Qed.

(** Objects rebuilt from entries that go alike go alike. *)
Lemma parallel_fromEntries (l1 : list (string * A)) (l2 : list (string * B)) :
  parallel R l1 l2 -> parallel R (fromEntries l1) (fromEntries l2).
Proof.
  intros H. unfold fromEntries. apply parallel_fold_set; [exact H|constructor].
Qed.
End ParallelFacts.

Lemma parallel_impl (A B : Type) (R R' : A -> B -> Prop)
  (o1 : obj A) (o2 : obj B) :
  (forall a b, R a b -> R' a b) -> parallel R o1 o2 -> parallel R' o1 o2.
Proof.
  intros Himp H. induction H as [|x y o1 o2 [Hk Hr] _ IH]; constructor;
    [split; [exact Hk|now apply Himp]|exact IH].
Qed.

(* ================================================================== *)
(** * The heap *)
(* ================================================================== *)

Lemma read_lt (h : heap) (l : loc) (c : cell) :
  read h l = Some c -> l < List.length h.
Proof. intros H. apply nth_error_Some. unfold read in H. congruence. Qed.

Lemma read_app_old (h ext : heap) (l : loc) (c : cell) :
  read h l = Some c -> read (h ++ ext) l = Some c.
Proof.
  intros H. unfold read in *. rewrite nth_error_app1; [exact H|].
  apply nth_error_Some. congruence.
Qed.

Lemma read_app_lt (h ext : heap) (l : loc) :
  l < List.length h -> read (h ++ ext) l = read h l.
Proof. intros H. unfold read. now apply nth_error_app1. Qed.

Lemma read_alloc_new (h : heap) (c : cell) :
  read (h ++ [c]) (List.length h) = Some c.
Proof.
  unfold read. rewrite nth_error_app2 by lia. now rewrite Nat.sub_diag.
Qed.

Lemma length_write (h : heap) (l : loc) (c : cell) :
  List.length (write h l c) = List.length h.
Proof.
  revert l. induction h as [|x h IH]; intros [|l]; simpl; auto.
Qed.

Lemma read_write_same (h : heap) (l : loc) (c : cell) :
  l < List.length h -> read (write h l c) l = Some c.
Proof.
  revert l. induction h as [|x h IH]; intros [|l]; simpl; intros H;
    try lia; [reflexivity|].
  apply IH. lia.
Qed.

Lemma read_write_other (h : heap) (l l' : loc) (c : cell) :
  l <> l' -> read (write h l c) l' = read h l'.
Proof.
  revert l l'. induction h as [|x h IH]; intros [|l] [|l']; simpl; intros H;
    try reflexivity; try contradiction.
  apply IH. lia.
Qed.

(** ** What a tree on the heap depends on *)

Lemma repFiles_preserved (S S' : loc -> Prop) (h h' : heap)
  (files : list (string * FileData)) (m : list (string * option loc)) :
  (forall x, S x -> S' x) -> preserves S h h' ->
  repFiles S h files m -> repFiles S' h' files m.
Proof.
  intros Hsub Hpre H. induction H as [|k f lf files m HS Hr _ IH];
    constructor; auto.
Qed.

Lemma repNode_preserved (S S' : loc -> Prop) (h h' : heap) :
  (forall x, S x -> S' x) -> preserves S h h' ->
  forall t l, repNode S h t l -> repNode S' h' t l.
Proof.
  intros Hsub Hpre.
  apply (@repNode_mut S h
           (fun t l => repNode S' h' t l)
           (fun items m => repSlots S' h' items m)).
  - intros k d b files tg l li m HSl HSli Hl Hli Hfiles.
    eapply repNode_end; eauto. eapply repFiles_preserved; eassumption.
  - intros k d b items l li m HSl HSli Hl Hli Hnd _ IH.
    eapply repNode_branch; eauto.
  - constructor.
  - intros k t l items m _ IHt _ IHs. now constructor.
Qed.

Lemma repSlots_preserved (S S' : loc -> Prop) (h h' : heap) :
  (forall x, S x -> S' x) -> preserves S h h' ->
  forall items m, repSlots S h items m -> repSlots S' h' items m.
Proof.
  intros Hsub Hpre items m H.
  induction H as [|k t l items m Ht _ IH]; constructor; [|exact IH].
  eapply repNode_preserved; eassumption.
Qed.

Lemma repSlots_parallel (S : loc -> Prop) (h : heap)
  (items : list (string * TaxNode)) (m : list (string * option loc)) :
  repSlots S h items m <-> parallel (slotOf S h) items m.
Proof.
  split.
  - induction 1 as [|k t l items m Ht _ IH]; constructor; [|exact IH].
    split; [reflexivity|]. now exists l.
  - revert m. induction items as [|[k t] items IH]; intros m H;
      inversion H as [|? [k' s] ? ? [Hk [l [Hs Ht]]] Hrest]; subst;
      [constructor|].
    simpl in *. subst. constructor; [exact Ht|now apply IH].
Qed.

Lemma repFiles_parallel (S : loc -> Prop) (h : heap)
  (files : list (string * FileData)) (m : list (string * option loc)) :
  repFiles S h files m <-> parallel (fileSlotOf S h) files m.
Proof.
  split.
  - induction 1 as [|k f lf files m HS Hr _ IH]; constructor; [|exact IH].
    split; [reflexivity|]. now exists lf.
  - revert m. induction files as [|[k f] files IH]; intros m H;
      inversion H as [|? [k' s] ? ? [Hk [lf [Hs [HS Hr]]]] Hrest]; subst;
      [constructor|].
    simpl in *. subst. constructor; [exact HS|exact Hr|now apply IH].
Qed.

Lemma ordFiles_bounds (h : heap) (files : list (string * FileData))
  (m : list (string * option loc)) (lo hi : loc) :
  ordFiles h files m lo hi -> lo <= hi.
Proof.
  induction 1 as [lo hi H|k f lf files m lo hi H _ _ IH]; lia.
Qed.

Lemma ordNode_bounds (h : heap) :
  forall t l lo, ordNode h t l lo -> lo < l.
Proof.
  apply (@ordNode_mut h
           (fun t l lo => lo < l)
           (fun items m lo hi => lo <= hi)).
  - intros k d b files tg l li m lo _ Hlt _ Hfiles.
    apply ordFiles_bounds in Hfiles. lia.
  - intros k d b items l li m lo _ Hlt _ _ _ IH. lia.
  - intros lo hi H. exact H.
  - intros k t l items m lo hi _ IHt _ IHs. lia.
Qed.

Lemma ordSlots_bounds (h : heap) (items : list (string * TaxNode))
  (m : list (string * option loc)) (lo hi : loc) :
  ordSlots h items m lo hi -> lo <= hi.
Proof.
  induction 1 as [lo hi H|k t l items m lo hi Ht _ IH]; [exact H|].
  apply ordNode_bounds in Ht. lia.
Qed.

Lemma ordFiles_preserved (h h' : heap) (files : list (string * FileData))
  (m : list (string * option loc)) (lo hi : loc) :
  preserves (fun x => lo <= x < hi) h h' ->
  ordFiles h files m lo hi -> ordFiles h' files m lo hi.
Proof.
  intros Hpre H. induction H as [lo hi H|k f lf files m lo hi Hlo Hr Hrest IH].
  - now constructor.
  - pose proof (ordFiles_bounds Hrest) as Hb.
    constructor; [exact Hlo| |].
    + apply Hpre; [lia|exact Hr].
    + apply IH. intros x c Hx. apply Hpre. lia.
Qed.

Lemma ordNode_preserved (h : heap) :
  forall t l lo, ordNode h t l lo ->
    forall h', preserves (fun x => lo <= x <= l) h h' -> ordNode h' t l lo.
Proof.
  apply (@ordNode_mut h
           (fun t l lo =>
              forall h', preserves (fun x => lo <= x <= l) h h' ->
                         ordNode h' t l lo)
           (fun items m lo hi =>
              forall h', preserves (fun x => lo <= x < hi) h h' ->
                         ordSlots h' items m lo hi)).
  - intros k d b files tg l li m lo Hl Hlt Hli Hfiles h' Hpre.
    pose proof (ordFiles_bounds Hfiles) as Hb.
    eapply ordNode_end; [apply Hpre; [lia|exact Hl]|exact Hlt| |].
    + apply Hpre; [lia|exact Hli].
    + eapply ordFiles_preserved; [|exact Hfiles].
      intros x c Hx. apply Hpre. lia.
  - intros k d b items l li m lo Hl Hlt Hli Hnd Hslots IH h' Hpre.
    pose proof (ordSlots_bounds Hslots) as Hb.
    eapply ordNode_branch; [apply Hpre; [lia|exact Hl]|exact Hlt| |exact Hnd|].
    + apply Hpre; [lia|exact Hli].
    + apply IH. intros x c Hx. apply Hpre. lia.
  - intros lo hi H h' _. now constructor.
  - intros k t l items m lo hi Ht IHt Hs IHs h' Hpre.
    pose proof (ordNode_bounds Ht) as Hb1.
    pose proof (ordSlots_bounds Hs) as Hb2.
    constructor.
    + apply IHt. intros x c Hx. apply Hpre. lia.
    + apply IHs. intros x c Hx. apply Hpre. lia.
Qed.

Lemma ordSlots_preserved (h h' : heap) (items : list (string * TaxNode))
  (m : list (string * option loc)) (lo hi : loc) :
  preserves (fun x => lo <= x < hi) h h' ->
  ordSlots h items m lo hi -> ordSlots h' items m lo hi.
Proof.
  intros Hpre H. induction H as [lo hi H|k t l items m lo hi Ht Hs IH].
  - now constructor.
  - pose proof (ordNode_bounds Ht) as Hb1.
    pose proof (ordSlots_bounds Hs) as Hb2.
    constructor.
    + eapply ordNode_preserved; [exact Ht|].
      intros x c Hx. apply Hpre. lia.
    + apply IH. intros x c Hx. apply Hpre. lia.
Qed.

Lemma ordSlots_keys (h : heap) (items : list (string * TaxNode))
  (m : list (string * option loc)) (lo hi : loc) :
  ordSlots h items m lo hi -> keys m = keys items.
Proof.
  induction 1 as [|k t l items m lo hi _ _ IH]; simpl; [reflexivity|].
  now rewrite IH.
Qed.

(* ================================================================== *)
(** * The cache files *)
(* ================================================================== *)

Lemma string_length_append (a b : string) :
  String.length (a ++ b) = String.length a + String.length b.
Proof. induction a as [|c a IH]; simpl; [reflexivity|now rewrite IH]. Qed.

Lemma string_app_inv_tail (a b s : string) :
  (a ++ s)%string = (b ++ s)%string -> a = b.
Proof.
  revert b. induction a as [|c a IH]; intros [|c' b] H; simpl in H.
  - reflexivity.
  - apply (f_equal String.length) in H. simpl in H.
    rewrite string_length_append in H. lia.
  - apply (f_equal String.length) in H. simpl in H.
    rewrite string_length_append in H. lia.
  - injection H as -> H. f_equal. now apply IH.
Qed.

Lemma writeCache_disk (codec : Codec) (failing : string -> option JsError)
  (disk disk' : Disk) (filepath : string) (json : list Byte.byte) :
  writeCache codec failing disk filepath json = Ok disk' ->
  exists zipped,
    gzip codec json = Ok zipped
    /\ disk' (filepath ++ ".gz")%string = Some zipped
    /\ forall p, p <> (filepath ++ ".gz")%string -> disk' p = disk p.
Proof.
  unfold writeCache, disk_writeFile.
  destruct (gzip codec json) as [zipped|err]; simpl; [|discriminate].
  destruct (failing (filepath ++ ".gz")%string); [discriminate|].
  intros [= <-]. exists zipped. split; [reflexivity|].
  split; [now rewrite String.eqb_refl|].
  intros p Hp. destruct (String.eqb_spec p (filepath ++ ".gz")%string);
    [contradiction|reflexivity].
Qed.

(** X16. What [writeCache] wrote, [readCache] reads back: when
    unzipping undoes the zipping of the text written, reading the cache
    at the path written yields what the text of the data parses to, and
    reading a cache at any other path yields what it yielded before the
    write. *)
Theorem cache_round_trip (codec : Codec) (failing : string -> option JsError)
  (disk disk' : Disk) (filepath : string) (d d' : obj FileData) :
  writeCache codec failing disk filepath (stringifyData codec d) = Ok disk' ->
  (forall zipped,
      gzip codec (stringifyData codec d) = Ok zipped ->
      gunzip codec zipped = Ok (stringifyData codec d)) ->
  parseData codec (stringifyData codec d) = Ok d' ->
  readCache [] (disk_readFile disk') (gunzip codec) (parseData codec) filepath
  = Ok d'
  /\ forall other,
       other <> filepath ->
       readCache [] (disk_readFile disk') (gunzip codec) (parseData codec)
         other
       = readCache [] (disk_readFile disk) (gunzip codec) (parseData codec)
           other.
Proof.
  intros Hwrite Hzip Hjson.
  destruct (writeCache_disk _ _ _ _ _ Hwrite) as [zipped [Hz [Hnew Hold]]].
  split.
  - unfold readCache, disk_readFile. rewrite Hnew. simpl.
    rewrite (Hzip _ Hz). simpl. now rewrite Hjson.
  - intros other Hne. unfold readCache, disk_readFile.
    rewrite Hold; [reflexivity|].
    intros E. apply Hne. eapply string_app_inv_tail. exact E.
Qed.

Lemma cache_round_trip_witness :
  let written :=
    fun p => if p =? "cache.gz" then Some healthyCacheFile else emptyDisk p in
  readCache [] (disk_readFile written) (gunzip exampleCodec)
    (parseData exampleCodec) "cache"
  = Ok healthyCache
  /\ forall other,
       other <> "cache" ->
       readCache [] (disk_readFile written) (gunzip exampleCodec)
         (parseData exampleCodec) other
       = readCache [] (disk_readFile emptyDisk) (gunzip exampleCodec)
           (parseData exampleCodec) other.
Proof.
  intros written.
  apply (@cache_round_trip exampleCodec neverFailing emptyDisk written
           "cache" healthyCache healthyCache).
  - vm_compute. reflexivity.
  - intros zipped Hz. vm_compute in Hz. injection Hz as <-.
    vm_compute. reflexivity.
  - vm_compute. reflexivity.
Defined.

(* ================================================================== *)
(** * [indexPath] *)
(* ================================================================== *)

Section IndexFacts.
Variable A : Type.
Variable env : Env.
Variable plenv : PlaylistEnv A.
Variable codec : Codec.
Variable failing : string -> option JsError.
Variable paths : IndexerPaths.
Variable fuel : nat.

(** What holds of the steps from the import of the playlists on. *)
Lemma indexPlaylists_run (options : IndexOptions A) (disk : Disk)
  (extracted : list string) (d : obj FileData) (h : heap)
  (ml : MediaLibrary (CategoryEntry loc)) :
  let run := indexPlaylists plenv codec failing paths options disk extracted
               d h ml in
  run_extracted run = extracted
  /\ (forall p, p <> (mlCachePath paths ++ ".gz")%string ->
                run_disk run p = disk p)
  /\ ((forall v, run_end run <> Some (Ok v)) -> run_disk run = disk)
  /\ (waPath paths = None -> forall v, run_end run <> Some (Ok v)).
Proof.
  unfold indexPlaylists.
  destruct (findPlaylists plenv (waPath paths) _) as [playlists|err]
    eqn:Hfind.
  - destruct (writeCache codec failing disk (mlCachePath paths) _)
      as [disk'|err] eqn:Hwrite; simpl.
    + destruct (writeCache_disk _ _ _ _ _ Hwrite) as [z [_ [_ Hold]]].
      split; [reflexivity|]. split; [exact Hold|]. split.
      * intros Hno. exfalso. eapply Hno. reflexivity.
      * intros Hwa. rewrite Hwa in Hfind. discriminate.
    + split; [reflexivity|]. split; [reflexivity|]. split; [reflexivity|].
      discriminate.
  - simpl. split; [reflexivity|]. split; [reflexivity|].
    split; [reflexivity|]. discriminate.
Qed.

Lemma indexCatalogue_run (options : IndexOptions A) (lib : Library)
  (disk : Disk) (extracted : list string) (d : obj FileData) :
  let run := indexCatalogue plenv codec failing paths fuel options lib disk
               extracted d in
  run_extracted run = extracted
  /\ (forall p, p <> (mlCachePath paths ++ ".gz")%string ->
                run_disk run p = disk p)
  /\ ((forall v, run_end run <> Some (Ok v)) -> run_disk run = disk)
  /\ (waPath paths = None -> forall v, run_end run <> Some (Ok v)).
Proof.
  unfold indexCatalogue.
  destruct (profile_categories options) as [categories|err]; simpl;
    [|repeat split; discriminate].
  destruct (catalogueMediaLibrary fuel categories d (lib_heap lib)
              (lib_ml lib)) as [[[h ml]|]|err]; simpl;
    try (repeat split; discriminate).
  apply indexPlaylists_run.
Qed.

(** X17. A run of [indexPath] writes to the two cache files and to no
    other; a run that does not resolve leaves the cache of the media
    library as it was; a run with [onlyProfile] invokes the extractor on
    no file and leaves the cache of the records as it was; and an indexer
    that was given no Winamp path never resolves, because the playlists
    are imported whatever [addPlaylists] says and the path of the
    playlists cannot be joined. *)
Theorem indexPath_writes_caches_in_order (musicPath : string)
  (options : IndexOptions A) (lib : Library) (disk : Disk) :
  let run := indexPath env plenv codec failing paths fuel musicPath options
               lib disk in
  (forall p, p <> (fileCachePath paths ++ ".gz")%string ->
             p <> (mlCachePath paths ++ ".gz")%string ->
             run_disk run p = disk p)
  /\ ((forall v, run_end run <> Some (Ok v)) ->
      forall p, p <> (fileCachePath paths ++ ".gz")%string ->
                run_disk run p = disk p)
  /\ (io_onlyProfile options = true ->
      run_extracted run = []
      /\ forall p, p <> (mlCachePath paths ++ ".gz")%string ->
                   run_disk run p = disk p)
  /\ (waPath paths = None -> forall v, run_end run <> Some (Ok v)).
Proof.
  unfold indexPath.
  destruct (readCache [] (disk_readFile disk) (gunzip codec)
              (parseData codec) (fileCachePath paths)) as [cache|err];
    [|simpl; repeat split; discriminate].
  destruct (io_onlyProfile options) eqn:Honly.
  - destruct (indexCatalogue_run options lib disk [] cache)
      as [Hx [Hframe [Hfail Hwa]]].
    split; [intros p _ Hp; now apply Hframe|].
    split; [intros Hno p _; now rewrite Hfail|].
    split; [intros _; split; [exact Hx|exact Hframe]|exact Hwa].
  - destruct (profile_categories options) as [categories|err]; simpl;
      [|repeat split; discriminate].
    set (s := processFiles env musicPath (findFiles env musicPath) categories
                (mkOptions (io_forceRefresh options) (io_printSpeed options))
                (mkScanState cache [])).
    destruct (checkFileExistence env musicPath (data s)) as [d|err]; simpl;
      [|repeat split; discriminate].
    destruct (writeCache codec failing disk (fileCachePath paths)
                (stringifyData codec d)) as [disk'|err] eqn:Hwrite; simpl;
      [|repeat split; discriminate].
    destruct (writeCache_disk _ _ _ _ _ Hwrite) as [z [_ [_ Hold]]].
    destruct (indexCatalogue_run options lib disk' (extracted s) d)
      as [Hx [Hframe [Hfail Hwa]]].
    split; [intros p Hp1 Hp2; rewrite Hframe by exact Hp2; now apply Hold|].
    split; [intros Hno p Hp; rewrite (Hfail Hno); now apply Hold|].
    split; [discriminate|exact Hwa].
Qed.

Lemma indexCatalogue_resolved (options : IndexOptions A) (lib : Library)
  (disk : Disk) (extracted : list string) (d d0 : obj FileData)
  (lib' : Library) :
  let run := indexCatalogue plenv codec failing paths fuel options lib disk
               extracted d in
  run_end run = Some (Ok (d0, lib')) ->
  d0 = d
  /\ exists ml z,
       lib_ml lib' = Some ml
       /\ gzip codec (stringifyMl codec (lib_heap lib') ml) = Ok z
       /\ run_disk run (mlCachePath paths ++ ".gz")%string = Some z.
Proof.
  unfold indexCatalogue.
  destruct (profile_categories options) as [categories|err]; simpl;
    [|discriminate].
  destruct (catalogueMediaLibrary fuel categories d (lib_heap lib)
              (lib_ml lib)) as [[[h ml]|]|err]; simpl; try discriminate.
  unfold indexPlaylists.
  destruct (findPlaylists plenv (waPath paths) _) as [playlists|err];
    [|discriminate].
  destruct (writeCache codec failing disk (mlCachePath paths) _)
    as [disk'|err] eqn:Hwrite; simpl; [|discriminate].
  intros [= <- <-]. split; [reflexivity|].
  destruct (writeCache_disk _ _ _ _ _ Hwrite) as [z [Hz [Hnew _]]].
  eexists. exists z. simpl. split; [reflexivity|]. split; assumption.
Qed.

(** What a full run that resolves has done. *)
Lemma indexPath_resolved (musicPath : string) (options : IndexOptions A)
  (lib lib' : Library) (disk : Disk) (d : obj FileData) :
  let run := indexPath env plenv codec failing paths fuel musicPath options
               lib disk in
  run_end run = Some (Ok (d, lib')) ->
  io_onlyProfile options = false ->
  fileCachePath paths <> mlCachePath paths ->
  (exists zipped,
      gzip codec (stringifyData codec d) = Ok zipped
      /\ run_disk run (fileCachePath paths ++ ".gz")%string = Some zipped)
  /\ (exists cache categories,
        readCache [] (disk_readFile disk) (gunzip codec) (parseData codec)
          (fileCachePath paths) = Ok cache
        /\ profile_categories options = Ok categories
        /\ scan env musicPath categories
             (mkOptions (io_forceRefresh options) (io_printSpeed options))
             cache
           = (Ok d, run_extracted run))
  /\ exists ml z,
       lib_ml lib' = Some ml
       /\ gzip codec (stringifyMl codec (lib_heap lib') ml) = Ok z
       /\ run_disk run (mlCachePath paths ++ ".gz")%string = Some z.
Proof.
  unfold indexPath. intros Hend Honly Hpaths. rewrite Honly in *.
  destruct (readCache [] (disk_readFile disk) (gunzip codec)
              (parseData codec) (fileCachePath paths)) as [cache|err];
    [|discriminate].
  destruct (profile_categories options) as [categories|err]; simpl in *;
    [|discriminate].
  set (s := processFiles env musicPath (findFiles env musicPath) categories
              (mkOptions (io_forceRefresh options) (io_printSpeed options))
              (mkScanState cache [])) in *.
  destruct (checkFileExistence env musicPath (data s)) as [d1|err] eqn:Hcheck;
    simpl in *; [|discriminate].
  destruct (writeCache codec failing disk (fileCachePath paths)
              (stringifyData codec d1)) as [disk'|err] eqn:Hwrite;
    simpl in *; [|discriminate].
  destruct (indexCatalogue_resolved _ _ _ _ _ Hend) as [-> Hml].
  destruct (indexCatalogue_run options lib disk' (extracted s) d1)
    as [Hx [Hframe _]].
  destruct (writeCache_disk _ _ _ _ _ Hwrite) as [z' [Hz' [Hnew _]]].
  split; [|split; [|exact Hml]].
  - exists z'. split; [exact Hz'|]. rewrite Hframe; [exact Hnew|].
    intros E. apply Hpaths. eapply string_app_inv_tail. exact E.
  - exists cache, categories. split; [reflexivity|]. split; [reflexivity|].
    unfold scan. fold s. rewrite Hcheck, Hx. reflexivity.
Qed.

(** X18. A full run of [indexPath] that resolves has written both
    caches, which have different paths: the file of the record cache
    holds the zipped text of the record set the scan ended with, the
    scan being run on the record set read from that file before, and the
    file of the cache of the media library holds the zipped text of the
    library the run left. Hence the next run reads that record set back,
    as far as unzipping undoes the zipping of its text and the text
    parses. *)
Theorem indexPath_resolved_run_persists (musicPath : string)
  (options : IndexOptions A) (lib lib' : Library) (disk : Disk)
  (d : obj FileData) :
  let run := indexPath env plenv codec failing paths fuel musicPath options
               lib disk in
  run_end run = Some (Ok (d, lib')) ->
  io_onlyProfile options = false ->
  fileCachePath paths <> mlCachePath paths ->
  (exists zipped,
      gzip codec (stringifyData codec d) = Ok zipped
      /\ run_disk run (fileCachePath paths ++ ".gz")%string = Some zipped)
  /\ (exists cache categories,
        readCache [] (disk_readFile disk) (gunzip codec) (parseData codec)
          (fileCachePath paths) = Ok cache
        /\ profile_categories options = Ok categories
        /\ scan env musicPath categories
             (mkOptions (io_forceRefresh options) (io_printSpeed options))
             cache
           = (Ok d, run_extracted run))
  /\ (exists ml z,
        lib_ml lib' = Some ml
        /\ gzip codec (stringifyMl codec (lib_heap lib') ml) = Ok z
        /\ run_disk run (mlCachePath paths ++ ".gz")%string = Some z)
  /\ (forall d',
        (forall zipped,
            gzip codec (stringifyData codec d) = Ok zipped ->
            gunzip codec zipped = Ok (stringifyData codec d)) ->
        parseData codec (stringifyData codec d) = Ok d' ->
        readCache [] (disk_readFile (run_disk run)) (gunzip codec)
          (parseData codec) (fileCachePath paths) = Ok d').
Proof.
  intros run Hend Honly Hpaths.
  destruct (indexPath_resolved musicPath options lib disk Hend Honly Hpaths)
    as [Hfile [Hscan Hml]].
  split; [exact Hfile|]. split; [exact Hscan|]. split; [exact Hml|].
  intros d' Hzip Hjson. destruct Hfile as [zipped [Hz Hdisk]].
  unfold readCache, disk_readFile. unfold run. rewrite Hdisk. simpl.
  rewrite (Hzip _ Hz). simpl. now rewrite Hjson.
Qed.
End IndexFacts.

Lemma indexPath_resolved_run_witness :
  (exists zipped,
      gzip exampleCodec (stringifyData exampleCodec healthyCache) = Ok zipped
      /\ run_disk healthyRun (fileCachePath examplePaths ++ ".gz")%string
         = Some zipped)
  /\ (exists cache categories,
        readCache [] (disk_readFile emptyDisk) (gunzip exampleCodec)
          (parseData exampleCodec) (fileCachePath examplePaths) = Ok cache
        /\ profile_categories exampleOptions = Ok categories
        /\ scan healthyEnv "music" categories
             (mkOptions (io_forceRefresh exampleOptions)
                        (io_printSpeed exampleOptions))
             cache
           = (Ok healthyCache, run_extracted healthyRun))
  /\ (exists ml z,
        lib_ml healthyLibrary = Some ml
        /\ gzip exampleCodec
             (stringifyMl exampleCodec (lib_heap healthyLibrary) ml) = Ok z
        /\ run_disk healthyRun (mlCachePath examplePaths ++ ".gz")%string
           = Some z)
  /\ (forall d',
        (forall zipped,
            gzip exampleCodec (stringifyData exampleCodec healthyCache)
            = Ok zipped ->
            gunzip exampleCodec zipped
            = Ok (stringifyData exampleCodec healthyCache)) ->
        parseData exampleCodec (stringifyData exampleCodec healthyCache)
        = Ok d' ->
        readCache [] (disk_readFile (run_disk healthyRun))
          (gunzip exampleCodec) (parseData exampleCodec)
          (fileCachePath examplePaths) = Ok d').
Proof.
  apply (@indexPath_resolved_run_persists unit healthyEnv examplePlaylistEnv
           exampleCodec neverFailing examplePaths 5 "music" exampleOptions
           (mkLibrary [] None) healthyLibrary emptyDisk healthyCache).
  - vm_compute. reflexivity.
  - reflexivity.
  - discriminate.
Defined.
(* ================================================================== *)
(** * Two consecutive runs *)
(* ================================================================== *)











(* ================================================================== *)
(** * [cloneDeep] *)
(* ================================================================== *)

Lemma preserves_app (S : loc -> Prop) (h ext : heap) :
  preserves S h (h ++ ext).
Proof. intros x c _. apply read_app_old. Qed.

Lemma height_branch (k : string) (d : value) (b : bool)
  (items : list (string * TaxNode)) :
  height (Branch k d b items) = Datatypes.S (heightItems items).
Proof.
  reflexivity.
Qed.

Lemma height_pos (t : TaxNode) : 1 <= height t.
Proof. destruct t; [rewrite height_branch|simpl]; lia. Qed.


Lemma cloneProps_files (S : loc -> Prop)
  (run : heap -> loc -> option (heap * loc)) :
  (forall h lf f, read h lf = Some (CFile f) ->
                  run h lf = Some (h ++ [CFile f], List.length h)) ->
  forall files fm h,
    repFiles S h files fm ->
    exists ext fm',
      cloneProps run h fm = Some (h ++ ext, fm')
      /\ ordFiles (h ++ ext) files fm' (List.length h) (List.length (h ++ ext))
      /\ keys fm' = keys fm.
Proof.
  intros Hrun files. induction files as [|[k f] files IH]; intros fm h Hrep;
    inversion Hrep as [|? ? lf ? m HS Hr Hrest]; subst.
  - exists [], []. simpl. rewrite app_nil_r. repeat split. now constructor.
  - assert (Hrest' : repFiles S (h ++ [CFile f]) files m).
    { eapply repFiles_preserved; [intros x Hx; exact Hx| |exact Hrest].
      apply preserves_app. }
    destruct (IH m _ Hrest') as [ext [fm' [Hc [Ho Hk]]]].
    exists (CFile f :: ext), ((k, Some (List.length h)) :: fm').
    simpl. rewrite (Hrun _ _ _ Hr), Hc.
    rewrite <- app_assoc in *. simpl in *. split; [reflexivity|].
    split; [|now rewrite Hk].
    constructor; [lia| |].
    + apply read_app_old with (ext := ext) in Hr as _.
      change (h ++ CFile f :: ext) with (h ++ [CFile f] ++ ext).
      rewrite app_assoc. apply read_app_old. apply read_alloc_new.
    + rewrite length_app in Ho. simpl in Ho.
      replace (List.length h + 1) with (Datatypes.S (List.length h)) in Ho
        by lia.
      exact Ho.
Qed.

Lemma cloneProps_slots (S : loc -> Prop)
  (run : heap -> loc -> option (heap * loc)) (bound : nat) :
  cloneSpec S run bound ->
  forall items m h,
    repSlots S h items m -> heightItems items <= bound ->
    exists ext m',
      cloneProps run h m = Some (h ++ ext, m')
      /\ ordSlots (h ++ ext) items m' (List.length h) (List.length (h ++ ext))
      /\ keys m' = keys m.
Proof.
  intros Hrun items. induction items as [|[k t] items IH]; intros m h Hrep Hh;
    inversion Hrep as [|? ? l ? m0 Ht Hrest]; subst.
  - exists [], []. simpl. rewrite app_nil_r. repeat split. now constructor.
  - simpl in Hh.
    destruct (Hrun h t l Ht) as [ext1 [l1 [Hc1 [Hlast Hord]]]]; [lia|].
    assert (Hrest' : repSlots S (h ++ ext1) items m0).
    { eapply repSlots_preserved; [intros x Hx; exact Hx| |exact Hrest].
      apply preserves_app. }
    destruct (IH m0 _ Hrest') as [ext2 [m' [Hc2 [Ho Hk]]]]; [lia|].
    exists (ext1 ++ ext2), ((k, Some l1) :: m').
    simpl. rewrite Hc1, Hc2. rewrite app_assoc.
    split; [reflexivity|]. split; [|now rewrite Hk].
    constructor.
    + eapply ordNode_preserved; [exact Hord|]. apply preserves_app.
    + now rewrite Hlast.
Qed.

Lemma cloneDeep_file (fuel : nat) (h : heap) (lf : loc) (f : FileData) :
  read h lf = Some (CFile f) ->
  cloneDeep (Datatypes.S fuel) h lf = Some (h ++ [CFile f], List.length h).
Proof. intros H. simpl. now rewrite H. Qed.

Lemma cloneDeep_unfold (fuel : nat) (h : heap) (l : loc) :
  cloneDeep (Datatypes.S fuel) h l =
  match read h l with
  | None => None
  | Some (CFile f) => Some (alloc h (CFile f))
  | Some (CNode n) =>
      match cloneDeep fuel h (n_items n) with
      | Some (h1, li) => Some (alloc h1 (CNode (with_items n li)))
      | None => None
      end
  | Some (CItems m) =>
      match cloneProps (cloneDeep fuel) h m with
      | Some (h1, m') => Some (alloc h1 (CItems m'))
      | None => None
      end
  end.
Proof. reflexivity. Qed.

Lemma length_snoc (h : heap) (c : cell) :
  List.length (h ++ [c]) = Datatypes.S (List.length h).
Proof. rewrite length_app. simpl. lia. Qed.

(** A clone of an item extends the heap by a copy laid out in order. *)
Lemma cloneDeep_node (S : loc -> Prop) (bound : nat) :
  forall fuel, 2 * bound < fuel -> cloneSpec S (cloneDeep fuel) bound.
Proof.
  induction bound as [|bound IH]; intros fuel Hfuel h t l Hrep Hh.
  - pose proof (height_pos t). lia.
  - destruct fuel as [|[|fuel]]; try lia.
    inversion Hrep as [k d b files tg ? li m HSl HSli Hl Hli Hfiles
                      |k d b items ? li m HSl HSli Hl Hli Hnd Hslots]; subst.
    + destruct fuel as [|fuel]; [lia|].
      destruct (@cloneProps_files S (cloneDeep (Datatypes.S fuel))
                  (fun h lf f => @cloneDeep_file fuel h lf f)
                  files m h Hfiles) as [ext [fm' [Hc [Ho Hk]]]].
      set (node := CNode (mkNodeObj k d b true (List.length (h ++ ext)) tg)).
      exists (ext ++ [CItems fm'] ++ [node]).
      exists (List.length ((h ++ ext) ++ [CItems fm'])).
      assert (E : h ++ ext ++ [CItems fm'] ++ [node]
                  = ((h ++ ext) ++ [CItems fm']) ++ [node])
        by (now rewrite !app_assoc).
      rewrite E, !cloneDeep_unfold, Hl. cbn [n_items].
      rewrite cloneDeep_unfold, Hli, Hc. unfold alloc, with_items.
      cbn [n_key n_data n_isNullCollection n_isEndNode n_tags].
      split; [reflexivity|]. split; [symmetry; apply length_snoc|].
      eapply ordNode_end with (li := List.length (h ++ ext)) (m := fm').
      * apply read_alloc_new.
      * rewrite length_snoc. lia.
      * apply read_app_old. apply read_alloc_new.
      * eapply ordFiles_preserved; [|exact Ho].
        intros x c _ Hx. apply read_app_old. now apply read_app_old.
    + rewrite height_branch in Hh.
      destruct (@cloneProps_slots S (cloneDeep fuel) bound
                  (IH fuel ltac:(lia)) items m h Hslots ltac:(lia))
        as [ext [m' [Hc [Ho Hk]]]].
      set (node := CNode (mkNodeObj k d b false (List.length (h ++ ext)) None)).
      exists (ext ++ [CItems m'] ++ [node]).
      exists (List.length ((h ++ ext) ++ [CItems m'])).
      assert (E : h ++ ext ++ [CItems m'] ++ [node]
                  = ((h ++ ext) ++ [CItems m']) ++ [node])
        by (now rewrite !app_assoc).
      rewrite E, !cloneDeep_unfold, Hl. cbn [n_items].
      rewrite cloneDeep_unfold, Hli, Hc. unfold alloc, with_items.
      cbn [n_key n_data n_isNullCollection n_isEndNode n_tags].
      split; [reflexivity|]. split; [symmetry; apply length_snoc|].
      eapply ordNode_branch with (li := List.length (h ++ ext)) (m := m').
      * apply read_alloc_new.
      * rewrite length_snoc. lia.
      * apply read_app_old. apply read_alloc_new.
      * now rewrite Hk.
      * eapply ordSlots_preserved; [|exact Ho].
        intros x c _ Hx. apply read_app_old. now apply read_app_old.
Qed.

(** A clone of an [items] object extends the heap by a copy of the tree
    laid out in order, the copy of the object last. *)
Lemma cloneDeep_items (S : loc -> Prop) (h : heap) (items : obj TaxNode)
  (li : loc) (fuel : nat) :
  repItems S h items li -> 2 * heightItems items + 1 < fuel ->
  exists ext m',
    cloneDeep fuel h li
    = Some ((h ++ ext) ++ [CItems m'], List.length (h ++ ext))
    /\ NoDup (keys m')
    /\ ordSlots ((h ++ ext) ++ [CItems m']) items m' (List.length h)
         (List.length (h ++ ext)).
Proof.
  intros [HSli [m [Hli [Hnd Hslots]]]] Hfuel.
  destruct fuel as [|fuel]; [lia|].
  destruct (@cloneProps_slots S (cloneDeep fuel) (heightItems items)
              (@cloneDeep_node S (heightItems items) fuel ltac:(lia))
              items m h Hslots (le_n _)) as [ext [m' [Hc [Ho Hk]]]].
  exists ext, m'. simpl. rewrite Hli, Hc. unfold alloc.
  split; [reflexivity|]. split; [now rewrite Hk|].
  eapply ordSlots_preserved; [|exact Ho].
  intros x c _ Hx. now apply read_app_old.
Qed.

(* ================================================================== *)
(** * [filterMediaLibraryTaxonomy] *)
(* ================================================================== *)

Lemma obj_replace_middle (V : Type) (done rest : obj V) (k : string)
  (v v' : V) :
  ~ In k (keys done) ->
  obj_replace k v' (done ++ (k, v) :: rest) = done ++ (k, v') :: rest.
Proof.
  induction done as [|[k0 v0] done IH]; simpl; intros Hnot.
  - now rewrite String.eqb_refl.
  - destruct (String.eqb_spec k0 k) as [->|_].
    + exfalso. apply Hnot. now left.
    + f_equal. apply IH. intros I. apply Hnot. now right.
Qed.

(** Assigning to a property the object has replaces its value in place. *)
Lemma obj_set_middle (V : Type) (done rest : obj V) (k : string) (v v' : V) :
  NoDup (keys (done ++ (k, v) :: rest)) ->
  obj_set k v' (done ++ (k, v) :: rest) = done ++ (k, v') :: rest.
Proof.
  intros Hnd. unfold keys in Hnd. rewrite map_app in Hnd. simpl in Hnd.
  apply NoDup_remove_2 in Hnd.
  assert (Hnot : ~ In k (keys done)).
  { intros I. apply Hnd. apply in_or_app. now left. }
  unfold obj_set, obj_has. rewrite obj_get_app.
  destruct (obj_get k done) eqn:Hg.
  - apply obj_get_In in Hg. exfalso. apply Hnot.
    change k with (fst (k, v0)). now apply in_map.
  - simpl. rewrite String.eqb_refl. now apply obj_replace_middle.
Qed.

Lemma filterNode_branch (p : FileData -> bool) (k : string) (d : value)
  (b : bool) (items : list (string * TaxNode)) :
  filterNode p (Branch k d b items) = Branch k d b (filterTaxonomy p items).
Proof.
  simpl. unfold filterTaxonomy. do 2 f_equal.
  induction items as [|[k' t] items IH]; simpl; [reflexivity|].
  now rewrite IH.
Qed.

Lemma filterNode_end (p : FileData -> bool) (k : string) (d : value)
  (b : bool) (files : list (string * FileData)) (tg : option (obj value)) :
  filterNode p (EndNode k d b files tg)
  = EndNode k d b (fromEntries (filter (fun e => p (snd e)) files)) tg.
Proof. reflexivity. Qed.

Lemma filterFileEntries_spec (p : FileData -> bool) (h : heap)
  (files : list (string * FileData)) (fm : list (string * option loc))
  (lo hi : loc) :
  ordFiles h files fm lo hi ->
  exists fileEntries,
    filterFileEntries p h fm = Some fileEntries
    /\ parallel (fileSlotOf (fun x => lo <= x /\ x < hi) h)
         (filter (fun e => p (snd e)) files) fileEntries.
Proof.
  induction 1 as [lo hi H|k f lf files m lo hi Hlo Hr Hrest IH].
  - exists []. split; [reflexivity|constructor].
  - destruct IH as [r [Hf Hpar]]. pose proof (ordFiles_bounds Hrest) as Hb.
    assert (Hpar' : parallel (fileSlotOf (fun x => lo <= x /\ x < hi) h)
                      (filter (fun e => p (snd e)) files) r).
    { eapply parallel_impl; [|exact Hpar].
      intros a s [lf' [-> [Hs Hrd]]]. exists lf'.
      split; [reflexivity|]. split; [lia|exact Hrd]. }
    simpl. rewrite Hr, Hf. destruct (p f).
    + eexists. split; [reflexivity|]. constructor; [|exact Hpar'].
      split; [reflexivity|]. exists lf. simpl.
      split; [reflexivity|]. split; [lia|exact Hr].
    + eexists. split; [reflexivity|exact Hpar'].
Qed.

Lemma loopPost_preserved (p : FileData -> bool) (S S' : loc -> Prop)
  (h h' : heap) (items : list (string * TaxNode))
  (m : list (string * option loc)) :
  (forall x, S x -> S' x) -> preserves S h h' ->
  loopPost p S h items m -> loopPost p S' h' items m.
Proof.
  intros Hsub Hpre H.
  induction H as [|k t items m He _ IH|k t l items m He Ht _ IH].
  - constructor.
  - now constructor.
  - apply loopPost_keep; [exact He| |exact IH].
    eapply repNode_preserved; eassumption.
Qed.

(** After the loop, the entries that are not [null] are the items of the
    filtered tree. *)
Lemma loopPost_compact (p : FileData -> bool) (S : loc -> Prop) (h : heap)
  (items : list (string * TaxNode)) (m : list (string * option loc)) :
  loopPost p S h items m ->
  parallel (slotOf S h) (filterEach p items)
    (filter (fun e => match snd e with Some _ => true | None => false end) m).
Proof.
  induction 1 as [|k t items m He _ IH|k t l items m He Ht _ IH]; simpl.
  - constructor.
  - now rewrite He.
  - rewrite He. constructor; [|exact IH].
    split; [reflexivity|]. now exists l.
Qed.

Lemma filterLoop_cons (run : heap -> loc -> option (heap * loc))
  (p : FileData -> bool) (items : loc) (h : heap) (key : string) (item : loc)
  (es' : list (string * option loc)) :
  filterLoop run p items h ((key, Some item) :: es') =
  match read h item with
  | Some (CNode n) =>
      if n_isEndNode n then
        match read h (n_items n) with
        | Some (CItems fm) =>
            match filterFileEntries p h (entries fm) with
            | Some fileEntries =>
                let (h1, fresh) := alloc h (CItems (fromEntries fileEntries)) in
                let h2 := write h1 item (CNode (with_items n fresh)) in
                if Nat.eqb (List.length fileEntries) 0 then
                  match set_null h2 items key with
                  | Some h3 => filterLoop run p items h3 es'
                  | None => None
                  end
                else filterLoop run p items h2 es'
            | None => None
            end
        | _ => None
        end
      else
        match run h (n_items n) with
        | Some (h1, sub) =>
            match read h1 item, read h1 sub with
            | Some (CNode n1), Some (CItems subm) =>
                let h2 := write h1 item (CNode (with_items n1 sub)) in
                if Nat.eqb (List.length (keys subm)) 0 then
                  match set_null h2 items key with
                  | Some h3 => filterLoop run p items h3 es'
                  | None => None
                  end
                else filterLoop run p items h2 es'
            | _, _ => None
            end
        | None => None
        end
  | _ => None
  end.
Proof. reflexivity. Qed.

Lemma write_facts (h : heap) (l : loc) (c : cell) :
  l < List.length h ->
  List.length (write h l c) = List.length h
  /\ read (write h l c) l = Some c
  /\ forall x, x <> l -> read (write h l c) x = read h x.
Proof.
  intros Hl. split; [apply length_write|].
  split; [now apply read_write_same|].
  intros x Hx. apply read_write_other. lia.
Qed.

Lemma alloc_write_facts (h : heap) (c1 c2 : cell) (l : loc) :
  l < List.length h ->
  List.length (write (h ++ [c1]) l c2) = Datatypes.S (List.length h)
  /\ read (write (h ++ [c1]) l c2) l = Some c2
  /\ read (write (h ++ [c1]) l c2) (List.length h) = Some c1
  /\ forall x, x < List.length h -> x <> l ->
               read (write (h ++ [c1]) l c2) x = read h x.
Proof.
  intros Hl.
  destruct (@write_facts (h ++ [c1]) l c2) as [Hlen [Hsame Hother]].
  { rewrite length_snoc. lia. }
  split; [now rewrite Hlen, length_snoc|]. split; [exact Hsame|]. split.
  - rewrite Hother by lia. apply read_alloc_new.
  - intros x Hx Hne. rewrite Hother by lia. now apply read_app_lt.
Qed.

Lemma keys_middle (V : Type) (done rest : obj V) (k : string) (v v' : V) :
  keys (done ++ (k, v') :: rest) = keys (done ++ (k, v) :: rest).
Proof. unfold keys. now rewrite !map_app. Qed.

(** The loop over the items of one level: it ends, it leaves alone what
    lies outside the layout of the items, and it leaves every item either
    standing for its filtered tree or replaced by [null]. *)
Lemma filterLoop_spec (p : FileData -> bool)
  (run : heap -> loc -> option (heap * loc)) (bound : nat) :
  filterSpec p run bound ->
  forall items es h li lo done,
    ordSlots h items es lo li ->
    read h li = Some (CItems (done ++ es)) ->
    NoDup (keys (done ++ es)) ->
    heightItems items <= bound ->
    exists h' es',
      filterLoop run p li h es = Some h'
      /\ List.length h <= List.length h'
      /\ (forall x, x < List.length h -> x < lo \/ li < x ->
                    read h' x = read h x)
      /\ read h' li = Some (CItems (done ++ es'))
      /\ loopPost p (fun x => (lo <= x /\ x < li) \/ List.length h <= x) h'
           items es'.
Proof.
  intros Hrun items. induction items as [|[k t] items IH];
    intros es h li lo done Hord Hli Hnd Hh.
  - inversion Hord; subst. exists h, []. simpl.
    repeat split; auto. constructor.
  - inversion Hord as [|? ? l ? es_r ? ? Ht Hrest]; subst.
    simpl in Hh.
    pose proof (ordNode_bounds Ht) as Hb1.
    pose proof (ordSlots_bounds Hrest) as Hb2.
    pose proof (read_lt _ _ Hli) as Hlilt.
    rewrite filterLoop_cons.
    inversion Ht as [k0 d b files tg ? lit fm ? Hl Hlt Hlit Hfiles
                    |k0 d b sub ? lit subm ? Hl Hlt Hlit Hnd' Hsub]; subst.
    + (* an end node *)
      rewrite Hl. cbn [n_isEndNode n_items]. rewrite Hlit.
      destruct (filterFileEntries_spec p Hfiles) as [fileEntries [Hfe Hpar]].
      unfold entries. rewrite Hfe. unfold alloc, with_items.
      cbn [n_key n_data n_isNullCollection n_isEndNode n_tags].
      pose proof (ordFiles_bounds Hfiles) as Hb3.
      destruct (@alloc_write_facts h (CItems (fromEntries fileEntries))
                  (CNode (mkNodeObj k0 d b true (List.length h) tg)) l)
        as [Hlen2 [Hnode [Hfresh Hold]]]; [lia|].
      set (h2 := write (h ++ [CItems (fromEntries fileEntries)]) l
                   (CNode (mkNodeObj k0 d b true (List.length h) tg))) in *.
      destruct (Nat.eqb (List.length fileEntries) 0) eqn:Hempty.
      * apply Nat.eqb_eq in Hempty. apply length_zero_iff_nil in Hempty.
        subst fileEntries.
        unfold set_null. rewrite Hold by lia. rewrite Hli.
        rewrite obj_set_middle by exact Hnd.
        destruct (@write_facts h2 li (CItems (done ++ (k, None) :: es_r)))
          as [Hlen3 [Hmap Hold3]]; [lia|].
        set (h3 := write h2 li (CItems (done ++ (k, None) :: es_r))) in *.
        destruct (IH es_r h3 li (Datatypes.S l) (done ++ [(k, None)]))
          as [h' [es' [Hloop [Hlen [Hframe [Hli' Hpost]]]]]].
        { eapply ordSlots_preserved; [|exact Hrest].
          intros x c [Hx1 Hx2] Hr. rewrite Hold3 by lia.
          rewrite Hold by lia. exact Hr. }
        { rewrite <- app_assoc. exact Hmap. }
        { rewrite <- app_assoc. simpl.
          rewrite (keys_middle done es_r k (Some l) None). exact Hnd. }
        { lia. }
        exists h', ((k, None) :: es'). rewrite Hloop.
        split; [reflexivity|]. split; [lia|]. split; [|split].
        -- intros x Hx Hcase. rewrite Hframe by lia.
           rewrite Hold3 by lia. apply Hold; lia.
        -- rewrite <- app_assoc in Hli'. exact Hli'.
        -- apply loopPost_drop.
           ++ rewrite filterNode_end.
              destruct (filter (fun e => p (snd e)) files);
                [reflexivity|inversion Hpar].
           ++ eapply loopPost_preserved; [| |exact Hpost].
              ** intros x [Hx|Hx]; [left|right]; lia.
              ** intros x c _ Hr. exact Hr.
      * apply Nat.eqb_neq in Hempty.
        destruct (IH es_r h2 li (Datatypes.S l) (done ++ [(k, Some l)]))
          as [h' [es' [Hloop [Hlen [Hframe [Hli' Hpost]]]]]].
        { eapply ordSlots_preserved; [|exact Hrest].
          intros x c [Hx1 Hx2] Hr. rewrite Hold by lia. exact Hr. }
        { rewrite <- app_assoc. simpl. rewrite Hold by lia. exact Hli. }
        { rewrite <- app_assoc. exact Hnd. }
        { lia. }
        exists h', ((k, Some l) :: es'). rewrite Hloop.
        split; [reflexivity|]. split; [lia|]. split; [|split].
        -- intros x Hx Hcase. rewrite Hframe by lia. apply Hold; lia.
        -- rewrite <- app_assoc in Hli'. exact Hli'.
        -- apply loopPost_keep.
           ++ rewrite filterNode_end.
              destruct (fromEntries (filter (fun e => p (snd e)) files))
                as [|x xs] eqn:Hfrom; [|reflexivity].
              apply (proj1 (fromEntries_nil_iff _)) in Hfrom. rewrite Hfrom in Hpar.
              inversion Hpar; subst. now contradiction Hempty.
           ++ rewrite filterNode_end.
              eapply repNode_end with (li := List.length h)
                                      (m := fromEntries fileEntries).
              ** left. lia.
              ** right. lia.
              ** rewrite Hframe by lia. exact Hnode.
              ** rewrite Hframe by lia. exact Hfresh.
              ** apply repFiles_parallel. apply parallel_fromEntries.
                 eapply parallel_impl; [|exact Hpar].
                 intros f s [lf [-> [Hs Hrd]]]. exists lf.
                 split; [reflexivity|]. split; [left; lia|].
                 rewrite Hframe by lia. rewrite Hold by lia. exact Hrd.
           ++ eapply loopPost_preserved; [| |exact Hpost].
              ** intros x [Hx|Hx]; [left|right]; lia.
              ** intros x c _ Hr. exact Hr.
    + (* a branch *)
      rewrite height_branch in Hh.
      rewrite Hl. cbn [n_isEndNode n_items].
      destruct (Hrun h sub lit subm lo Hlit Hnd' Hsub)
        as [h1 [lsub [Hr [Hl1 [Hl2 [Hf1 Hrep]]]]]]; [lia|].
      destruct Hrep as [HSsub [subm' [Hsubm' [Hnd'' Hslots]]]].
      rewrite Hr. rewrite (Hf1 l) by lia. rewrite Hl, Hsubm'.
      unfold with_items.
      cbn [n_key n_data n_isNullCollection n_isEndNode n_tags].
      destruct (@write_facts h1 l
                  (CNode (mkNodeObj k0 d b false lsub None)))
        as [Hlen2 [Hnode Hold]]; [lia|].
      set (h2 := write h1 l (CNode (mkNodeObj k0 d b false lsub None))) in *.
      pose proof (ordSlots_bounds Hsub) as Hb3.
      assert (Hpar : parallel (slotOf
                 (fun x => (lo <= x /\ x < lit) \/ List.length h <= x) h1)
                 (filterTaxonomy p sub) subm').
      { now apply repSlots_parallel. }
      destruct (Nat.eqb (List.length (keys subm')) 0) eqn:Hempty.
      * apply Nat.eqb_eq in Hempty. apply length_zero_iff_nil in Hempty.
        assert (Hnil : filterTaxonomy p sub = []).
        { apply parallel_keys in Hpar. rewrite Hempty in Hpar.
          destruct (filterTaxonomy p sub); [reflexivity|discriminate]. }
        unfold set_null. rewrite Hold by lia. rewrite (Hf1 li) by lia.
        rewrite Hli. rewrite obj_set_middle by exact Hnd.
        destruct (@write_facts h2 li (CItems (done ++ (k, None) :: es_r)))
          as [Hlen3 [Hmap Hold3]]; [lia|].
        set (h3 := write h2 li (CItems (done ++ (k, None) :: es_r))) in *.
        destruct (IH es_r h3 li (Datatypes.S l) (done ++ [(k, None)]))
          as [h' [es' [Hloop [Hlen [Hframe [Hli' Hpost]]]]]].
        { eapply ordSlots_preserved; [|exact Hrest].
          intros x c [Hx1 Hx2] Hrd. rewrite Hold3 by lia.
          rewrite Hold by lia. rewrite Hf1 by lia. exact Hrd. }
        { rewrite <- app_assoc. exact Hmap. }
        { rewrite <- app_assoc. simpl.
          rewrite (keys_middle done es_r k (Some l) None). exact Hnd. }
        { lia. }
        exists h', ((k, None) :: es'). rewrite Hloop.
        split; [reflexivity|]. split; [lia|]. split; [|split].
        -- intros x Hx Hcase. rewrite Hframe by lia.
           rewrite Hold3 by lia. rewrite Hold by lia. apply Hf1; lia.
        -- rewrite <- app_assoc in Hli'. exact Hli'.
        -- apply loopPost_drop.
           ++ rewrite filterNode_branch, Hnil. reflexivity.
           ++ eapply loopPost_preserved; [| |exact Hpost].
              ** intros x [Hx|Hx]; [left|right]; lia.
              ** intros x c _ Hrd. exact Hrd.
      * apply Nat.eqb_neq in Hempty.
        destruct (IH es_r h2 li (Datatypes.S l) (done ++ [(k, Some l)]))
          as [h' [es' [Hloop [Hlen [Hframe [Hli' Hpost]]]]]].
        { eapply ordSlots_preserved; [|exact Hrest].
          intros x c [Hx1 Hx2] Hrd. rewrite Hold by lia.
          rewrite Hf1 by lia. exact Hrd. }
        { rewrite <- app_assoc. simpl. rewrite Hold by lia.
          rewrite Hf1 by lia. exact Hli. }
        { rewrite <- app_assoc. exact Hnd. }
        { lia. }
        exists h', ((k, Some l) :: es'). rewrite Hloop.
        split; [reflexivity|]. split; [lia|]. split; [|split].
        -- intros x Hx Hcase. rewrite Hframe by lia.
           rewrite Hold by lia. apply Hf1; lia.
        -- rewrite <- app_assoc in Hli'. exact Hli'.
        -- apply loopPost_keep.
           ++ rewrite filterNode_branch. simpl.
              destruct (filterTaxonomy p sub) as [|x xs] eqn:Hfrom;
                [|reflexivity].
              apply parallel_keys in Hpar. simpl in Hpar.
              rewrite <- Hpar in Hempty. now contradiction Hempty.
           ++ rewrite filterNode_branch.
              eapply repNode_branch with (li := lsub) (m := subm').
              ** left. lia.
              ** right. lia.
              ** rewrite Hframe by lia. exact Hnode.
              ** rewrite Hframe by lia. rewrite Hold by lia. exact Hsubm'.
              ** exact Hnd''.
              ** eapply repSlots_preserved; [| |exact Hslots].
                 --- intros x [Hx|Hx]; [left|right]; lia.
                 --- intros x c Hx Hrd. pose proof (read_lt _ _ Hrd) as Hxl.
                     rewrite Hframe by (destruct Hx; lia).
                     rewrite Hold by (destruct Hx; lia). exact Hrd.
           ++ eapply loopPost_preserved; [| |exact Hpost].
              ** intros x [Hx|Hx]; [left|right]; lia.
              ** intros x c _ Hrd. exact Hrd.
Qed.

(** A filter of taxonomy items laid out in order returns the filtered
    tree. *)
Lemma filterMediaLibraryTaxonomy_spec (p : FileData -> bool) :
  forall fuel, filterSpec p (filterMediaLibraryTaxonomy fuel p) fuel.
Proof.
  induction fuel as [|fuel IH]; intros h items li m lo Hli Hnd Hord Hh; [lia|].
  destruct (@filterLoop_spec p _ fuel IH items m h li lo [] Hord Hli Hnd)
    as [h' [es' [Hloop [Hlen [Hframe [Hli' Hpost]]]]]]; [lia|].
  simpl in Hli'.
  exists (h' ++ [CItems (compactObject es')]), (List.length h').
  split.
  { simpl. rewrite Hli. unfold entries. now rewrite Hloop, Hli'. }
  split; [lia|]. split; [rewrite length_snoc; lia|]. split.
  - intros x Hx Hc. rewrite read_app_lt by lia. now apply Hframe.
  - split; [right; lia|]. exists (compactObject es').
    split; [apply read_alloc_new|]. split; [apply fromEntries_NoDup|].
    apply repSlots_parallel. unfold filterTaxonomy, compactObject, entries.
    apply parallel_fromEntries.
    eapply parallel_impl; [|apply (loopPost_compact Hpost)].
    intros t s [l [-> Hrep]]. exists l. split; [reflexivity|].
    eapply repNode_preserved; [| |exact Hrep].
    + intros x Hx. exact Hx.
    + apply preserves_app.
Qed.

(** Deriving the items of a secondary category: the call returns, every
    object that was on the heap is as it was, and the derived items stand
    for the filtered tree and consist of new objects. *)
Lemma deriveItems_spec (S : loc -> Prop) (h : heap) (items : obj TaxNode)
  (li : loc) (fuel : nat) (p : FileData -> bool) :
  repItems S h items li -> 2 * heightItems items + 1 < fuel ->
  exists h' derived,
    deriveItems fuel h li p = Some (h', derived)
    /\ (forall x, x < List.length h -> read h' x = read h x)
    /\ repItems (fun x => List.length h <= x) h' (filterTaxonomy p items)
         derived.
Proof.
  intros Hrep Hfuel.
  destruct (cloneDeep_items Hrep Hfuel) as [ext [m' [Hc [Hnd Hord]]]].
  destruct (@filterMediaLibraryTaxonomy_spec p fuel
              ((h ++ ext) ++ [CItems m']) items (List.length (h ++ ext)) m'
              (List.length h))
    as [h' [l' [Hf [Hl1 [Hl2 [Hframe Hres]]]]]].
  - apply read_alloc_new.
  - exact Hnd.
  - exact Hord.
  - lia.
  - exists h', l'. unfold deriveItems. rewrite Hc, Hf.
    split; [reflexivity|]. split.
    + intros x Hx. rewrite Hframe.
      * rewrite read_app_lt by (rewrite length_app; lia).
        now apply read_app_lt.
      * rewrite length_snoc, length_app. lia.
      * left. exact Hx.
    + destruct Hres as [HS [m [Hm [Hndm Hslots]]]].
      rewrite length_snoc, length_app in *.
      split; [lia|]. exists m. split; [exact Hm|]. split; [exact Hndm|].
      eapply repSlots_preserved; [| |exact Hslots].
      * intros x [Hx|Hx]; lia.
      * intros x c _ Hr. exact Hr.
Qed.

(** ** The filtered tree *)

Lemma TaxNode_nested_ind (P : TaxNode -> Prop) :
  (forall k d b items, Forall (fun e => P (snd e)) items ->
                       P (Branch k d b items)) ->
  (forall k d b files tg, P (EndNode k d b files tg)) ->
  forall t, P t.
Proof.
  intros Hb He. fix IH 1. intros [k d b items|k d b files tg].
  - apply Hb. induction items as [|[k' t] items IHl]; constructor.
    + apply IH.
    + exact IHl.
  - apply He.
Qed.

Lemma noEmpty_branch (k : string) (d : value) (b : bool)
  (items : list (string * TaxNode)) :
  noEmpty (Branch k d b items)
  = negb (Nat.eqb (List.length items) 0) && noEmptyItems items.
Proof.
  simpl. f_equal. induction items as [|[k' t] items IH]; simpl;
    [reflexivity|now rewrite IH].
Qed.

Lemma filterEach_In (p : FileData -> bool) (items : list (string * TaxNode))
  (k : string) (t' : TaxNode) :
  In (k, t') (filterEach p items) ->
  exists t, In (k, t) items /\ t' = filterNode p t
            /\ isEmptyNode t' = false.
Proof.
  induction items as [|[k0 t0] items IH]; simpl; [intros []|].
  destruct (isEmptyNode (filterNode p t0)) eqn:He.
  - intros Hin. destruct (IH Hin) as [t [Ht Hrest]].
    exists t. split; [now right|exact Hrest].
  - intros [E|Hin].
    + injection E as <- <-. exists t0. split; [now left|now split].
    + destruct (IH Hin) as [t [Ht Hrest]].
      exists t. split; [now right|exact Hrest].
Qed.

(** A node that survives the filter has no empty node below it. *)
Lemma filterNode_noEmpty (p : FileData -> bool) :
  forall t, isEmptyNode (filterNode p t) = false ->
            noEmpty (filterNode p t) = true.
Proof.
  induction t as [k d b items IH|k d b files tg] using TaxNode_nested_ind.
  - rewrite filterNode_branch, noEmpty_branch. intros He.
    apply andb_true_intro. split.
    + destruct (filterTaxonomy p items); [discriminate|reflexivity].
    + apply forallb_forall. intros [k' t'] Hin.
      apply fromEntries_In in Hin. apply filterEach_In in Hin
        as [t [Ht [-> Hne]]].
      rewrite Forall_forall in IH. simpl. apply (IH (k', t) Ht). exact Hne.
  - rewrite filterNode_end. simpl.
    destruct (fromEntries (filter (fun e => p (snd e)) files));
      [discriminate|reflexivity].
Qed.

Lemma filterTaxonomy_noEmpty (p : FileData -> bool) (items : obj TaxNode) :
  noEmptyItems (filterTaxonomy p items) = true.
Proof.
  apply forallb_forall. intros [k t'] Hin.
  apply fromEntries_In in Hin. apply filterEach_In in Hin as [t [_ [-> Hne]]].
  simpl. now apply filterNode_noEmpty.
Qed.

Lemma filter_rejecting (A : Type) (p : A -> bool) (l : list A) :
  (forall a, p a = false) -> filter p l = [].
Proof.
  intros Hp. induction l as [|a l IH]; simpl; [reflexivity|].
  now rewrite Hp.
Qed.

Lemma filterEach_rejecting (p : FileData -> bool)
  (items : list (string * TaxNode)) :
  Forall (fun e => isEmptyNode (filterNode p (snd e)) = true) items ->
  filterEach p items = [].
Proof.
  induction 1 as [|[k t] items He _ IH]; simpl; [reflexivity|].
  simpl in He. now rewrite He.
Qed.

(** A filter that rejects every file empties every node. *)
Lemma filterNode_rejecting (p : FileData -> bool) :
  (forall f, p f = false) ->
  forall t, isEmptyNode (filterNode p t) = true.
Proof.
  intros Hp.
  induction t as [k d b items IH|k d b files tg] using TaxNode_nested_ind.
  - rewrite filterNode_branch. unfold filterTaxonomy.
    now rewrite filterEach_rejecting.
  - rewrite filterNode_end. rewrite filter_rejecting; [reflexivity|].
    intros e. apply Hp.
Qed.

Lemma filterTaxonomy_rejecting (p : FileData -> bool) (items : obj TaxNode) :
  (forall f, p f = false) -> filterTaxonomy p items = [].
Proof.
  intros Hp. unfold filterTaxonomy. rewrite filterEach_rejecting; [reflexivity|].
  apply Forall_forall. intros e _. now apply filterNode_rejecting.
Qed.

Lemma repNode_within (S : loc -> Prop) (h : heap) :
  forall t l, repNode S h t l ->
    repNode (fun x => S x /\ x < List.length h) h t l.
Proof.
  apply (@repNode_mut S h
           (fun t l => repNode (fun x => S x /\ x < List.length h) h t l)
           (fun items m =>
              repSlots (fun x => S x /\ x < List.length h) h items m)).
  - intros k d b files tg l li m HSl HSli Hl Hli Hfiles.
    eapply repNode_end; [split; [exact HSl|eapply read_lt; exact Hl]
                        |split; [exact HSli|eapply read_lt; exact Hli]
                        |exact Hl|exact Hli|].
    clear - Hfiles. induction Hfiles as [|k f lf files m HS Hr _ IH];
      constructor; [split; [exact HS|eapply read_lt; exact Hr]|exact Hr
                   |exact IH].
  - intros k d b items l li m HSl HSli Hl Hli Hnd _ IH.
    eapply repNode_branch; [split; [exact HSl|eapply read_lt; exact Hl]
                           |split; [exact HSli|eapply read_lt; exact Hli]
                           |exact Hl|exact Hli|exact Hnd|exact IH].
  - constructor.
  - intros k t l items m _ IHt _ IHs. now constructor.
Qed.

Lemma repItems_within (S : loc -> Prop) (h : heap) (items : obj TaxNode)
  (li : loc) :
  repItems S h items li ->
  repItems (fun x => S x /\ x < List.length h) h items li.
Proof.
  intros [HS [m [Hm [Hnd Hslots]]]].
  split; [split; [exact HS|eapply read_lt; exact Hm]|].
  exists m. split; [exact Hm|]. split; [exact Hnd|].
  clear - Hslots. induction Hslots as [|k t l items m Ht _ IH];
    constructor; [now apply repNode_within|exact IH].
Qed.

Lemma deriveExample_rep :
  repItems (fun _ => True) deriveExampleHeap deriveExampleTree 3.
Proof.
  split; [exact I|]. exists [("Y", Some 2)].
  split; [reflexivity|]. split.
  - repeat constructor. simpl. intuition.
  - constructor; [|constructor].
    eapply repNode_end with (li := 1) (m := [("m/1.mp3", Some 0)]);
      try exact I; try reflexivity.
    constructor; [exact I|reflexivity|constructor].
Qed.

(** C8. The items a secondary category derives stand for the filtered
    tree of the base items, and that tree has no empty branch and no empty
    leaf at any depth: each of its nodes is the filtered form of a node of
    the base tree and is not empty. A filter that rejects every file
    yields the empty [items] object; the call returns in either case. *)
Theorem derived_tree_has_no_empty_node :
  forall (S : loc -> Prop) (h : heap) (items : obj TaxNode) (baseItems : loc)
         (fuel : nat) (filterFunction : FileData -> bool),
    repItems S h items baseItems ->
    2 * heightItems items + 1 < fuel ->
    exists h' derived,
      deriveItems fuel h baseItems filterFunction = Some (h', derived)
      /\ repItems (fun x => List.length h <= x) h'
           (filterTaxonomy filterFunction items) derived
      /\ noEmptyItems (filterTaxonomy filterFunction items) = true
      /\ (forall k t, In (k, t) (filterTaxonomy filterFunction items) ->
            exists t0, In (k, t0) items /\ t = filterNode filterFunction t0
                       /\ isEmptyNode t = false)
      /\ ((forall f, filterFunction f = false) ->
          filterTaxonomy filterFunction items = []
          /\ read h' derived = Some (CItems [])).
Proof.
  intros S h items baseItems fuel p Hrep Hfuel.
  destruct (@deriveItems_spec S h items baseItems fuel p Hrep Hfuel)
    as [h' [derived [Hd [_ Hres]]]].
  exists h', derived. split; [exact Hd|]. split; [exact Hres|].
  split; [apply filterTaxonomy_noEmpty|]. split.
  - intros k t Hin. apply fromEntries_In in Hin. now apply filterEach_In.
  - intros Hp. pose proof (@filterTaxonomy_rejecting p items Hp) as Hnil.
    split; [exact Hnil|].
    destruct Hres as [_ [m [Hm [_ Hslots]]]]. rewrite Hnil in Hslots.
    inversion Hslots; subst. exact Hm.
Qed.

Lemma derived_tree_witness :
  exists h' derived,
    deriveItems 5 deriveExampleHeap 3 rejectAll = Some (h', derived)
    /\ repItems (fun x => List.length deriveExampleHeap <= x) h'
         (filterTaxonomy rejectAll deriveExampleTree) derived
    /\ noEmptyItems (filterTaxonomy rejectAll deriveExampleTree) = true
    /\ (forall k t, In (k, t) (filterTaxonomy rejectAll deriveExampleTree) ->
          exists t0, In (k, t0) deriveExampleTree
                     /\ t = filterNode rejectAll t0
                     /\ isEmptyNode t = false)
    /\ ((forall f, rejectAll f = false) ->
        filterTaxonomy rejectAll deriveExampleTree = []
        /\ read h' derived = Some (CItems [])).
Proof.
  apply (@derived_tree_has_no_empty_node (fun _ => True) deriveExampleHeap
           deriveExampleTree 3 5 rejectAll deriveExample_rep).
  simpl. lia.
Defined.

(** Without the clone the filter works on the base items themselves: the
    entry of an emptied item becomes [null] in the very object it was given. *)
Lemma filter_in_place_changes_base_items :
  exists h' filtered,
    filterMediaLibraryTaxonomy 5 rejectAll deriveExampleHeap 3
    = Some (h', filtered)
    /\ read deriveExampleHeap 3 = Some (CItems [("Y", Some 2)])
    /\ read h' 3 = Some (CItems [("Y", None)])
    /\ read h' filtered = Some (CItems []).
Proof.
  eexists. eexists. split; [vm_compute; reflexivity|].
  repeat split; reflexivity.
Qed.

(** C9. Deriving the items of a secondary category leaves every object
    that was on the heap as it was, so the base items still stand for the
    same tree, field for field, through objects that existed before; the
    derived items stand for a tree whose objects - items, item lists and
    file records - are all new, so the two trees share none. *)
Theorem derive_works_on_independent_copy :
  forall (S : loc -> Prop) (h : heap) (items : obj TaxNode) (baseItems : loc)
         (fuel : nat) (filterFunction : FileData -> bool),
    repItems S h items baseItems ->
    2 * heightItems items + 1 < fuel ->
    exists h' derived,
      deriveItems fuel h baseItems filterFunction = Some (h', derived)
      /\ (forall x, x < List.length h -> read h' x = read h x)
      /\ repItems (fun x => S x /\ x < List.length h) h' items baseItems
      /\ repItems (fun x => List.length h <= x) h'
           (filterTaxonomy filterFunction items) derived.
Proof.
  intros S h items baseItems fuel p Hrep Hfuel.
  destruct (@deriveItems_spec S h items baseItems fuel p Hrep Hfuel)
    as [h' [derived [Hd [Hframe Hres]]]].
  exists h', derived. split; [exact Hd|]. split; [exact Hframe|].
  split; [|exact Hres].
  destruct (repItems_within Hrep) as [HS [m [Hm [Hnd Hslots]]]].
  split; [exact HS|]. exists m.
  split; [rewrite Hframe; [exact Hm|apply HS]|]. split; [exact Hnd|].
  eapply repSlots_preserved; [| |exact Hslots].
  - intros x Hx. exact Hx.
  - intros x c [_ Hx] Hr. now rewrite Hframe.
Qed.

Lemma derive_independent_copy_witness :
  exists h' derived,
    deriveItems 5 deriveExampleHeap 3 (fun _ => true) = Some (h', derived)
    /\ (forall x, x < List.length deriveExampleHeap ->
                  read h' x = read deriveExampleHeap x)
    /\ repItems (fun x => True /\ x < List.length deriveExampleHeap) h'
         deriveExampleTree 3
    /\ repItems (fun x => List.length deriveExampleHeap <= x) h'
         (filterTaxonomy (fun _ => true) deriveExampleTree) derived.
Proof.
  apply (@derive_works_on_independent_copy (fun _ => True) deriveExampleHeap
           deriveExampleTree 3 5 (fun _ => true) deriveExample_rep).
  simpl. lia.
Defined.

Lemma repItems_preserved (S : loc -> Prop) (h h' : heap) (items : obj TaxNode)
  (li : loc) :
  (forall x, x < List.length h -> read h' x = read h x) ->
  repItems S h items li -> repItems S h' items li.
Proof.
  intros Hframe [HS [m [Hm [Hnd Hslots]]]].
  split; [exact HS|]. exists m.
  split; [rewrite Hframe; [exact Hm|eapply read_lt; exact Hm]|].
  split; [exact Hnd|].
  eapply repSlots_preserved; [| |exact Hslots].
  - intros x Hx. exact Hx.
  - intros x c _ Hr. rewrite Hframe; [exact Hr|eapply read_lt; exact Hr].
Qed.

(** X3. Deriving every secondary category of a profile, several of them
    possibly from one primary category, returns and leaves every object
    that was on the heap as it was, the items of the primary categories
    among them. *)
Lemma secondaryCategories_leave_heap (fuel : nat)
  (primary : list (CategoryEntry loc)) (cats : list Category) :
  forall h,
    Forall (fun e => exists S t, repItems S h t (ce_items e)
                                 /\ 2 * heightItems t + 1 < fuel) primary ->
    exists h' secondary,
      secondaryCategories fuel primary h cats = Some (h', secondary)
      /\ List.length h <= List.length h'
      /\ forall x, x < List.length h -> read h' x = read h x.
Proof.
  induction cats as [|cat cats IH]; intros h Hprim; simpl.
  - exists h, []. repeat split; auto.
  - assert (Hstep : exists h1 entry,
               secondaryCategory fuel primary h cat = Some (h1, entry)
               /\ List.length h <= List.length h1
               /\ forall x, x < List.length h -> read h1 x = read h x).
    { unfold secondaryCategory.
      destruct (find (fun pCat => same_string (ce_code pCat) (cat_inherits cat))
                     primary) as [base|] eqn:Hfind.
      - apply find_some in Hfind as [Hin _].
        rewrite Forall_forall in Hprim.
        destruct (Hprim base Hin) as [S [t [Hrep Hfuel]]].
        destruct (@deriveItems_spec S h t (ce_items base) fuel
                    (cat_filter cat) Hrep Hfuel)
          as [h1 [derived [Hd [Hframe [HS [m [Hm _]]]]]]].
        rewrite Hd. eexists. eexists. split; [reflexivity|].
        split; [|exact Hframe].
        apply read_lt in Hm. lia.
      - exists h, None. repeat split; auto. }
    destruct Hstep as [h1 [entry [Hs [Hlen1 Hframe1]]]]. rewrite Hs.
    destruct (IH h1) as [h2 [rest [Hr [Hlen2 Hframe2]]]].
    + rewrite Forall_forall in *. intros e He.
      destruct (Hprim e He) as [S [t [Hrep Hfuel]]].
      exists S, t. split; [|exact Hfuel].
      eapply repItems_preserved; eassumption.
    + rewrite Hr. eexists. eexists. split; [reflexivity|].
      split; [lia|]. intros x Hx. rewrite Hframe2 by lia. now apply Hframe1.
Qed.

Lemma secondaryCategories_leave_heap_witness :
  exists h' secondary,
    secondaryCategories 5 [musicEntry] deriveExampleHeap
      [noneCategory; allCategory] = Some (h', secondary)
    /\ List.length deriveExampleHeap <= List.length h'
    /\ forall x, x < List.length deriveExampleHeap ->
                 read h' x = read deriveExampleHeap x.
Proof.
  apply (@secondaryCategories_leave_heap 5 [musicEntry]
           [noneCategory; allCategory] deriveExampleHeap).
  constructor; [|constructor].
  exists (fun _ => True), deriveExampleTree.
  split; [exact deriveExample_rep|simpl; lia].
Defined.
(* ================================================================== *)
(** * The catalogue on the heap *)
(* ================================================================== *)

Lemma sortTaxonomyItems_NoDup (V : Type) (o : obj V) :
  NoDup (keys (sortTaxonomyItems o)).
Proof. unfold sortTaxonomyItems. apply fromEntries_NoDup. Qed.




















(* ================================================================== *)
(** * The files of a derived tree *)
(* ================================================================== *)

Lemma uniqueKeys_branch (k : string) (d : value) (b : bool)
  (items : list (string * TaxNode)) :
  uniqueKeys (Branch k d b items) <-> uniqueKeysItems items.
Proof.
  unfold uniqueKeysItems. simpl.
  assert (E : (fix all (l : list (string * TaxNode)) : Prop :=
                 match l with
                 | [] => True
                 | (_, item) :: l' => uniqueKeys item /\ all l'
                 end) items
              <-> Forall (fun e => uniqueKeys (snd e)) items).
  { induction items as [|[k' t] items IH]; simpl.
    - split; [constructor|trivial].
    - rewrite IH. split.
      + intros [H1 H2]. now constructor.
      + intros H. inversion H; subst. now split. }
  now rewrite E.
Qed.

(** The trees the builder returns have distinct keys in every [items]
    object. *)
Lemma collect_uniqueKeys :
  forall (remainingTaxKeys : list string) (dataFiles : obj FileData)
         (taxKey : string) (tree : obj TaxNode),
    collectMediaLibraryTaxonomy dataFiles taxKey remainingTaxKeys = Ok tree ->
    uniqueKeysItems tree.
Proof.
  induction remainingTaxKeys as [|next rest IH];
    intros dataFiles taxKey tree Hrun;
    (split; [eapply collect_NoDup; exact Hrun|]);
    apply Forall_forall; intros [k n] Hin; simpl in Hrun;
    destruct (groupFiles taxKey [] (entries dataFiles)) as [items|err];
    simpl in Hrun; try discriminate;
    destruct (forEntries_In _ _ Hrun _ _ Hin) as [g [_ Hn]]; cbv beta in Hn.
  - injection Hn as <-. simpl. unfold sortAlbumFiles.
    apply fromEntries_NoDup.
  - destruct (collectMediaLibraryTaxonomy (g_items g) next rest)
      as [sub|err] eqn:Hsub; simpl in Hn; [|discriminate].
    injection Hn as <-. cbn [snd]. apply uniqueKeys_branch.
    split; [apply sortTaxonomyItems_NoDup|].
    apply Forall_forall. intros e He. apply sortTaxonomyItems_In in He.
    destruct (IH _ _ _ Hsub) as [_ Hall].
    exact (proj1 (Forall_forall _ _) Hall e He).
Qed.

Lemma isEmptyNode_leaves (t : TaxNode) :
  isEmptyNode t = true -> leaves t = [].
Proof.
  destruct t as [k d b [|e items]|k d b [|e files] tg]; simpl;
    try discriminate; reflexivity.
Qed.

Lemma filterEach_keys (p : FileData -> bool) (items : list (string * TaxNode)) :
  NoDup (keys items) -> NoDup (keys (filterEach p items)).
Proof.
  induction items as [|[k t] items IH]; simpl; intros H; [constructor|].
  inversion H as [|? ? Hnot Hnd]; subst.
  destruct (isEmptyNode (filterNode p t)); [now apply IH|].
  simpl. constructor; [|now apply IH].
  intros Hin. apply Hnot. clear - Hin.
  induction items as [|[k' t'] items IH]; simpl in *; [exact Hin|].
  destruct (isEmptyNode (filterNode p t')); simpl in *; tauto.
Qed.

Lemma filter_perm (A : Type) (p : A -> bool) (l l' : list A) :
  Permutation l l' -> Permutation (filter p l) (filter p l').
Proof.
  induction 1 as [|x l l' _ IH|x y l|l l' l'' _ IH1 _ IH2]; simpl.
  - constructor.
  - destruct (p x); [now constructor|exact IH].
  - destruct (p x), (p y); try reflexivity. apply perm_swap.
  - now rewrite IH1.
Qed.

Lemma filter_twice (A : Type) (p q : A -> bool) (l : list A) :
  filter q (filter p l) = filter (fun x => p x && q x) l.
Proof.
  induction l as [|x l IH]; simpl; [reflexivity|].
  destruct (p x); simpl; [destruct (q x)|]; now rewrite IH.
Qed.

(** Filtering a node keeps the accepted files of the node, all of them
    and nothing else. *)
Lemma filterNode_leaves (p : FileData -> bool) :
  forall t, uniqueKeys t ->
    Permutation (leaves (filterNode p t))
                (filter (fun e => p (snd e)) (leaves t)).
Proof.
  apply (TaxNode_nested_ind
           (fun t => uniqueKeys t ->
                     Permutation (leaves (filterNode p t))
                                 (filter (fun e => p (snd e)) (leaves t)))).
  - intros k d b items IH Hu. apply uniqueKeys_branch in Hu.
    destruct Hu as [Hnd Hall].
    rewrite filterNode_branch, !leaves_branch. unfold filterTaxonomy.
    rewrite (leavesOf_perm (@fromEntries_perm TaxNode (filterEach p items)
                              (@filterEach_keys p items Hnd))).
    clear Hnd. induction items as [|[k' t] items IHl]; simpl; [constructor|].
    inversion IH as [|? ? Ht IH']; subst.
    inversion Hall as [|? ? Hut Hall']; subst. simpl in Ht, Hut.
    rewrite filter_app.
    destruct (isEmptyNode (filterNode p t)) eqn:He.
    + pose proof (Ht Hut) as Hp. rewrite (isEmptyNode_leaves _ He) in Hp.
      apply Permutation_nil in Hp. rewrite Hp. simpl. now apply IHl.
    + simpl. apply Permutation_app; [now apply Ht|now apply IHl].
  - intros k d b files tg Hu. simpl in *.
    apply fromEntries_perm. now apply filter_keys_NoDup.
Qed.

Lemma filterTaxonomy_leaves (p : FileData -> bool) (items : obj TaxNode) :
  uniqueKeysItems items ->
  Permutation (leavesOf (filterTaxonomy p items))
              (filter (fun e => p (snd e)) (leavesOf items)).
Proof.
  intros Hu.
  pose proof (@filterNode_leaves p (Branch "" VUndefined false items)
                (proj2 (uniqueKeys_branch "" VUndefined false items) Hu))
    as H.
  now rewrite filterNode_branch, !leaves_branch in H.
Qed.

(** X8. The tree derived for a secondary category holds exactly the
    records of its base category that the filter accepts, each of them
    once: filtering and pruning the empty nodes lose no accepted file and
    keep no rejected one. *)
Theorem derived_tree_holds_accepted_records (cat : Category)
  (d : obj FileData) (taxKey : string) (remainingTaxKeys : list string)
  (tree : obj TaxNode) (filterFunction : FileData -> bool) :
  NoDup (keys d) ->
  collectMediaLibraryTaxonomy (getCategoryFiles cat d) taxKey remainingTaxKeys
  = Ok tree ->
  Permutation (leavesOf (filterTaxonomy filterFunction tree))
              (filter (fun e => inCategory cat e && filterFunction (snd e)) d).
Proof.
  intros Hnd Hrun.
  rewrite (@filterTaxonomy_leaves filterFunction tree
             (collect_uniqueKeys _ _ _ Hrun)).
  rewrite <- (filter_twice (inCategory cat)
                (fun e => filterFunction (snd e)) d).
  apply filter_perm.
  rewrite <- (@getCategoryFiles_perm cat d Hnd).
  eapply collect_leaves_perm; [|exact Hrun].
  unfold getCategoryFiles. apply fromEntries_NoDup.
Qed.

Lemma derived_tree_holds_accepted_witness :
  Permutation
    (leavesOf (filterTaxonomy onlyFirstFile rootExampleTree))
    (filter (fun e => inCategory musicCategory e && onlyFirstFile (snd e))
            rootExample).
Proof.
  apply (@derived_tree_holds_accepted_records musicCategory rootExample
           "artist" ["album"] rootExampleTree onlyFirstFile).
  - repeat constructor; simpl; intuition discriminate.
  - reflexivity.
Defined.

(* ================================================================== *)
(** * A filter that accepts every file *)
(* ================================================================== *)

Section OwnOrder.
Variable V : Type.
Implicit Types (o : obj V) (k : string) (v : V).

Lemma obj_insert_index_append (n : N) k v o :
  (forall k', In k' (keys o) ->
     exists n', array_index k' = Some n' /\ (n' <= n)%N) ->
  obj_insert_index n k v o = o ++ [(k, v)].
Proof.
  induction o as [|[k0 v0] o IH]; simpl; intros H; [reflexivity|].
  destruct (H k0 (or_introl eq_refl)) as [n0 [-> Hle]].
  destruct (N.ltb_spec n n0) as [Hlt|_]; [lia|].
  rewrite IH; [reflexivity|]. intros k' Hk'. apply H. now right.
Qed.

Lemma ownOrder_before (pre post : list string) (k : string) (n : N) :
  ownOrder (pre ++ k :: post) -> array_index k = Some n ->
  forall k', In k' pre -> exists n', array_index k' = Some n' /\ (n' <= n)%N.
Proof. intros [_ H] Hk. eapply H; [reflexivity|exact Hk]. Qed.

Lemma fold_set_ownOrder (l : list (string * V)) :
  forall acc,
    ownOrder (keys acc ++ keys l) ->
    fold_left (fun o kv => obj_set (fst kv) (snd kv) o) l acc = acc ++ l.
Proof.
  induction l as [|[k v] l IH]; intros acc H; simpl.
  - now rewrite app_nil_r.
  - assert (Hnot : ~ In k (keys acc)).
    { destruct H as [Hnd _]. simpl in Hnd. apply NoDup_remove_2 in Hnd.
      intros Hin. apply Hnd. apply in_or_app. now left. }
    assert (Hset : obj_set k v acc = acc ++ [(k, v)]).
    { unfold obj_set, obj_has.
      rewrite (proj2 (obj_get_None_keys k acc) Hnot).
      destruct (array_index k) as [n|] eqn:Hidx; [|reflexivity].
      apply obj_insert_index_append.
      simpl in H. exact (@ownOrder_before (keys acc) (keys l) k n H Hidx). }
    rewrite Hset, IH.
    + now rewrite <- app_assoc.
    + unfold keys in *. rewrite map_app, <- app_assoc. exact H.
Qed.

(** An object rebuilt from its own entries is the object. *)
Lemma fromEntries_ownOrder_id o : ownOrder (keys o) -> fromEntries o = o.
Proof.
  intros H. unfold fromEntries. now rewrite fold_set_ownOrder.
Qed.

Lemma obj_insert_index_split (n : N) k v o :
  exists pre post,
    o = pre ++ post
    /\ obj_insert_index n k v o = pre ++ (k, v) :: post
    /\ (forall k', In k' (keys pre) ->
          exists n', array_index k' = Some n' /\ (n' <= n)%N)
    /\ match post with
       | [] => True
       | (k0, _) :: _ =>
           match array_index k0 with
           | Some n0 => (n < n0)%N
           | None => True
           end
       end.
Proof.
  induction o as [|[k0 v0] o IH]; simpl.
  - exists [], []. repeat split. intros k' [].
  - destruct (array_index k0) as [n0|] eqn:H0.
    + destruct (N.ltb_spec n n0) as [Hlt|Hge].
      * exists [], ((k0, v0) :: o). repeat split; [intros k' []|].
        now rewrite H0.
      * destruct IH as [pre [post [-> [-> [Hpre Hpost]]]]].
        exists ((k0, v0) :: pre), post. repeat split; [|exact Hpost].
        intros k' [<-|Hk']; [exists n0; split; [exact H0|exact Hge]|].
        now apply Hpre.
    + exists [], ((k0, v0) :: o). repeat split; [intros k' []|].
      now rewrite H0.
Qed.

Lemma ownOrder_snoc_plain (ks : list string) k :
  ownOrder ks -> ~ In k ks -> array_index k = None -> ownOrder (ks ++ [k]).
Proof.
  intros [Hnd H] Hnot Hidx. split.
  - apply NoDup_app; [exact Hnd|repeat constructor; intros []|].
    intros x Hx [<-|[]]. contradiction.
  - intros pre x post n E Hx k' Hk'.
    destruct (exists_last (l := x :: post)) as [init [last E']];
      [discriminate|].
    rewrite E' in E. rewrite app_assoc in E.
    apply app_inj_tail in E. destruct E as [E <-].
    destruct init as [|x0 init].
    + simpl in E'. injection E' as -> _. congruence.
    + simpl in E'. injection E' as <- _.
      eapply H; [exact E|exact Hx|exact Hk'].
Qed.

Lemma ownOrder_insert (pre post : list string) k (n : N) :
  ownOrder (pre ++ post) -> ~ In k (pre ++ post) ->
  array_index k = Some n ->
  (forall k', In k' pre -> exists n', array_index k' = Some n' /\ (n' <= n)%N) ->
  match post with
  | [] => True
  | k0 :: _ => match array_index k0 with
               | Some n0 => (n < n0)%N
               | None => True
               end
  end ->
  ownOrder (pre ++ k :: post).
Proof.
  intros [Hnd H] Hnot Hidx Hpre Hpost. split.
  - eapply Permutation_NoDup; [apply Permutation_middle|].
    now constructor.
  - intros P x Q m E Hx k' Hk'.
    apply app_eq_app in E. destruct E as [l [[E1 E2]|[E1 E2]]].
    + destruct l as [|y l]; simpl in E2.
      * injection E2 as <- <-. rewrite app_nil_r in E1. subst P.
        rewrite Hidx in Hx. injection Hx as <-. now apply Hpre.
      * injection E2 as <- E2. subst pre.
        eapply (H P x (l ++ post) m); [now rewrite <- app_assoc|exact Hx|].
        exact Hk'.
    + destruct l as [|y l]; simpl in E2.
      * injection E2 as <- <-. rewrite app_nil_r in E1. subst P.
        rewrite Hidx in Hx. injection Hx as <-. now apply Hpre.
      * injection E2 as <- E2. subst P post.
        assert (Hold : forall k'', In k'' (pre ++ l) ->
                   exists n', array_index k'' = Some n' /\ (n' <= m)%N).
        { intros k'' Hk''.
          eapply (H (pre ++ l) x Q m);
            [now rewrite <- app_assoc|exact Hx|exact Hk'']. }
        apply in_app_or in Hk'. destruct Hk' as [Hk'|[<-|Hk']].
        -- apply Hold. apply in_or_app. now left.
        -- exists n. split; [exact Hidx|].
           destruct l as [|k0 l]; simpl in Hpost.
           ++ rewrite Hx in Hpost. lia.
           ++ destruct (Hold k0) as [n0 [Hk0 Hle]];
                [apply in_or_app; right; now left|].
              rewrite Hk0 in Hpost. lia.
        -- apply Hold. apply in_or_app. now right.
Qed.

(** A store keeps the keys of an object in own-property order. *)
Lemma obj_set_ownOrder k v o :
  ownOrder (keys o) -> ownOrder (keys (obj_set k v o)).
Proof.
  intros H. unfold obj_set, obj_has.
  destruct (obj_get k o) as [v0|] eqn:Hget.
  - now rewrite obj_replace_keys.
  - assert (Hnot : ~ In k (keys o)) by now apply obj_get_None_keys.
    destruct (array_index k) as [n|] eqn:Hidx.
    + destruct (obj_insert_index_split n k v o)
        as [pre [post [-> [-> [Hpre Hpost]]]]].
      unfold keys in *. rewrite map_app in *. simpl.
      apply ownOrder_insert with (n := n); try assumption.
      destruct post as [|[k0 v0] post]; [exact I|exact Hpost].
    + unfold keys in *. rewrite map_app. simpl.
      now apply ownOrder_snoc_plain.
Qed.

Lemma ownOrder_nil : ownOrder [].
Proof.
  split; [constructor|]. intros pre k post n E. now destruct pre.
Qed.

Lemma fold_set_keys_ownOrder (l : list (string * V)) :
  forall acc, ownOrder (keys acc) ->
    ownOrder (keys (fold_left (fun o kv => obj_set (fst kv) (snd kv) o)
                      l acc)).
Proof.
  induction l as [|[k v] l IH]; intros acc H; simpl; [exact H|].
  apply IH. now apply obj_set_ownOrder.
Qed.

Lemma fromEntries_ownOrder (l : list (string * V)) :
  ownOrder (keys (fromEntries l)).
Proof. apply fold_set_keys_ownOrder. apply ownOrder_nil. Qed.
End OwnOrder.

Lemma groupFiles_ownOrder (taxKey : string) (es : list (string * FileData)) :
  forall items items',
    ownOrder (keys items) ->
    groupFiles taxKey items es = Ok items' -> ownOrder (keys items').
Proof.
  induction es as [|e0 es IH]; simpl; intros items items' Hinv H.
  - now injection H as <-.
  - destruct (groupStep taxKey items e0) as [items1|err] eqn:Hstep;
      simpl in H; [|discriminate].
    apply (IH items1 items'); [|exact H].
    destruct e0 as [key f]. unfold groupStep in Hstep.
    destruct (obj_get (toString (getTaxonomyValue (attributes f) taxKey))
                items).
    + injection Hstep as <-. now apply obj_set_ownOrder.
    + destruct (inherited (toString (getTaxonomyValue (attributes f) taxKey)));
        [discriminate|].
      injection Hstep as <-. now apply obj_set_ownOrder.
Qed.

Lemma builtNode_branch (k : string) (d : value) (b : bool)
  (items : list (string * TaxNode)) :
  builtNode (Branch k d b items) <-> items <> [] /\ builtItems items.
Proof.
  unfold builtItems. simpl.
  assert (E : (fix all (l : list (string * TaxNode)) : Prop :=
                 match l with
                 | [] => True
                 | (_, item) :: l' => builtNode item /\ all l'
                 end) items
              <-> Forall (fun e => builtNode (snd e)) items).
  { induction items as [|[k' t] items IH]; simpl.
    - split; [constructor|trivial].
    - rewrite IH. split.
      + intros [H1 H2]. now constructor.
      + intros H. inversion H; subst. now split. }
  rewrite E. tauto.
Qed.

Lemma perm_not_nil (X : Type) (l l' : list X) :
  Permutation l l' -> l' <> [] -> l <> [].
Proof.
  intros Hp Hne ->. apply Permutation_nil in Hp. contradiction.
Qed.

(** The builder returns trees without empty nodes whose keys are in
    own-property order at every level. *)
Lemma collect_built :
  forall (remainingTaxKeys : list string) (dataFiles : obj FileData)
         (taxKey : string) (tree : obj TaxNode),
    collectMediaLibraryTaxonomy dataFiles taxKey remainingTaxKeys = Ok tree ->
    builtItems tree.
Proof.
  induction remainingTaxKeys as [|next rest IH];
    intros dataFiles taxKey tree Hrun; simpl in Hrun;
    destruct (groupFiles taxKey [] (entries dataFiles)) as [items|err]
      eqn:Hgroup; simpl in Hrun; try discriminate;
    pose proof (@groupFiles_groupsFrom (entries dataFiles) taxKey
                  (entries dataFiles) [] items
                  (groupsFrom_nil _) (fun e H => H) Hgroup) as Hfrom;
    (split;
     [rewrite (forEntries_keys _ _ Hrun);
      exact (@groupFiles_ownOrder taxKey (entries dataFiles) [] items
               ownOrder_nil Hgroup)|]);
    apply Forall_forall; intros [k n] Hin;
    destruct (forEntries_In _ _ Hrun _ _ Hin) as [g [Hg Hn]];
    cbv beta in Hn; destruct (Hfrom k g Hg) as [Hndg [Hne _]].
  - injection Hn as <-. simpl. split.
    + eapply perm_not_nil; [apply sortAlbumFiles_perm; exact Hndg|exact Hne].
    + unfold sortAlbumFiles. apply fromEntries_ownOrder.
  - destruct (collectMediaLibraryTaxonomy (g_items g) next rest)
      as [sub|err] eqn:Hsub; simpl in Hn; [|discriminate].
    injection Hn as <-. cbn [snd]. apply builtNode_branch.
    destruct (IH _ _ _ Hsub) as [_ Hall].
    assert (Hsubne : sub <> []).
    { intros ->.
      pose proof (@collect_leaves_perm rest (g_items g) next [] Hndg Hsub)
        as Hp.
      simpl in Hp. apply Permutation_nil in Hp. contradiction. }
    split; [|split].
    + eapply perm_not_nil;
        [apply sortTaxonomyItems_perm; eapply collect_NoDup; exact Hsub
        |exact Hsubne].
    + unfold sortTaxonomyItems. apply fromEntries_ownOrder.
    + apply Forall_forall. intros e He. apply sortTaxonomyItems_In in He.
      exact (proj1 (Forall_forall _ _) Hall e He).
Qed.

Lemma collect_leaves_In :
  forall (remainingTaxKeys : list string) (dataFiles : obj FileData)
         (taxKey : string) (tree : obj TaxNode),
    collectMediaLibraryTaxonomy dataFiles taxKey remainingTaxKeys = Ok tree ->
    forall e, In e (leavesOf tree) -> In e dataFiles.
Proof.
  intros remainingTaxKeys dataFiles taxKey tree Hrun e He.
  rewrite leavesOf_flat_map in He. apply in_flat_map in He.
  destruct He as [[name n] [Hin He]]. simpl in He.
  destruct remainingTaxKeys as [|next rest]; simpl in Hrun;
    destruct (groupFiles taxKey [] (entries dataFiles)) as [items|err]
      eqn:Hgroup; simpl in Hrun; try discriminate;
    pose proof (@groupFiles_groupsFrom (entries dataFiles) taxKey
                  (entries dataFiles) [] items
                  (groupsFrom_nil _) (fun e H => H) Hgroup) as Hfrom;
    destruct (forEntries_In _ _ Hrun _ _ Hin) as [g [Hg Hn]];
    cbv beta in Hn; destruct (Hfrom name g Hg) as [Hndg [_ Hsrc]];
    apply Hsrc.
  - eapply Permutation_in;
      [apply (@node_leaves_perm None g n Hndg Hn)|exact He].
  - eapply Permutation_in;
      [apply (@node_leaves_perm (Some (next, rest)) g n Hndg Hn)|exact He].
Qed.

Lemma filter_all (X : Type) (p : X -> bool) (l : list X) :
  (forall x, In x l -> p x = true) -> filter p l = l.
Proof.
  induction l as [|x l IH]; simpl; intros H; [reflexivity|].
  rewrite (H x (or_introl eq_refl)). f_equal. apply IH.
  intros y Hy. apply H. now right.
Qed.

(** A filter that accepts every file of a built node leaves the node as
    it is. *)
Lemma filterNode_accepting (p : FileData -> bool) :
  forall t, builtNode t ->
    (forall e, In e (leaves t) -> p (snd e) = true) ->
    filterNode p t = t.
Proof.
  apply (TaxNode_nested_ind
           (fun t => builtNode t ->
                     (forall e, In e (leaves t) -> p (snd e) = true) ->
                     filterNode p t = t)).
  - intros k d b items IH Hb Hp. apply builtNode_branch in Hb.
    destruct Hb as [_ [Hord Hall]].
    rewrite filterNode_branch. f_equal. unfold filterTaxonomy.
    rewrite leaves_branch in Hp.
    assert (E : filterEach p items = items).
    { clear Hord. induction items as [|[k' t] items IHl]; simpl;
        [reflexivity|].
      inversion IH as [|? ? Ht IH']; subst.
      inversion Hall as [|? ? Hbt Hall']; subst. simpl in Ht, Hbt.
      rewrite Ht; [|exact Hbt|intros e He; apply Hp; simpl;
                              apply in_or_app; now left].
      assert (Hne : isEmptyNode t = false).
      { destruct t as [? ? ? [|? ?]|? ? ? [|? ?] ?]; simpl in *;
          try reflexivity; destruct Hbt as [Hbt _]; contradiction. }
      rewrite Hne. f_equal. apply IHl; [exact IH'|exact Hall'|].
      intros e He. apply Hp. simpl. apply in_or_app. now right. }
    rewrite E. now apply fromEntries_ownOrder_id.
  - intros k d b files tg [_ Hord] Hp. simpl in *. f_equal.
    rewrite filter_all; [now apply fromEntries_ownOrder_id|exact Hp].
Qed.

(** X24. A filter that accepts every file of a category yields, for a
    secondary category that inherits from it, a tree equal to the tree of
    the category: the same nodes with the same keys in the same order at
    every level. *)
Theorem accepting_filter_keeps_the_tree (remainingTaxKeys : list string)
  (dataFiles : obj FileData) (taxKey : string) (tree : obj TaxNode)
  (filterFunction : FileData -> bool) :
  collectMediaLibraryTaxonomy dataFiles taxKey remainingTaxKeys = Ok tree ->
  (forall k f, In (k, f) dataFiles -> filterFunction f = true) ->
  filterTaxonomy filterFunction tree = tree.
Proof.
  intros Hrun Hp.
  pose proof (collect_built _ _ _ Hrun) as Hbuilt.
  assert (Hleaves : forall e, In e (leavesOf tree) ->
                              filterFunction (snd e) = true).
  { intros [k f] He. apply (Hp k). eapply collect_leaves_In; eassumption. }
  assert (Hne : forall items, items = tree -> tree <> [] ->
                  filterNode filterFunction (Branch "" VUndefined false items)
                  = Branch "" VUndefined false items).
  { intros items -> Hnil. apply filterNode_accepting.
    - apply builtNode_branch. split; [exact Hnil|exact Hbuilt].
    - now rewrite leaves_branch. }
  destruct tree as [|e tree']; [reflexivity|].
  specialize (Hne _ eq_refl ltac:(discriminate)).
  rewrite filterNode_branch in Hne. now injection Hne.
Qed.

Lemma accepting_filter_witness :
  filterTaxonomy (fun _ => true) rootExampleTree = rootExampleTree.
Proof.
  apply (@accepting_filter_keeps_the_tree ["album"] rootExample "artist"
           rootExampleTree (fun _ => true)).
  - reflexivity.
  - reflexivity.
Defined.
